(** * SocialNetwork: the user-profile cache and the repair of denormalised
      author fields

    A shallow embedding of [src/lib/cache/userCache.ts] (class
    [UserProfileCache]) and of the functions of
    [src/lib/firebase/firebaseUtils.ts] that drive it ([getUserProfile],
    [updateUserProfile], [enrichPostsWithUserData]), followed by the
    properties the specification states about them.

    The program is asynchronous TypeScript over Firestore.  It is modelled
    as state passing over a [World] that holds the in-memory cache, the
    two Firestore collections, the number of clock readings made so far,
    the trace of store round trips and console lines, and the promises
    that were started without being awaited.

    The development then covers the rest of [firebaseUtils.ts] (posts,
    likes, comments, the creation of profiles), the callbacks of
    [src/lib/contexts/AuthContext.tsx] and [formatTimeAgo] of
    [src/lib/utils.ts]; what these need beyond the [World] -- the
    collection "comments", Storage, their own requests -- is the
    [Cloud]. *)

From stdpp Require Import gmap strings pretty list fin_maps.
From Equations Require Import Equations.
From Stdlib Require Import ZArith.

(** ** Data model ([src/lib/types]) *)

(** [interface User].  Dates are milliseconds since the epoch. *)
Record User := mkUser {
  uid : string;
  email : string;
  displayName : string;
  photoURL : string;
  bio : option string;
  createdAt : Z;
  updatedAt : Z
}.

(** [interface Comment]. *)
Record Comment := mkComment {
  comment_id : string;
  comment_postId : string;
  comment_authorId : string;
  comment_authorName : string;
  comment_authorPhotoURL : string;
  comment_content : string;
  comment_createdAt : Z
}.

(** [interface Post].  A stored post document is its document id together
    with its data; [post_comments] is [None] when the document carries no
    [comments] array (the code tests [postData.comments &&
    Array.isArray(postData.comments)] and [post.comments?.]). *)
Record Post := mkPost {
  post_id : string;
  post_authorId : string;
  post_authorName : string;
  post_authorPhotoURL : string;
  post_content : string;
  post_imageURL : option string;
  post_likes : list string;
  post_comments : option (list Comment);
  post_createdAt : Z;
  post_updatedAt : Z
}.

(** [Partial<User>], the argument of [updateUserProfile]: every field may
    be left out. *)
Record PartialUser := mkPartialUser {
  data_uid : option string;
  data_email : option string;
  data_displayName : option string;
  data_photoURL : option string;
  data_bio : option string;
  data_createdAt : option Z;
  data_updatedAt : option Z
}.

(** The value of the cache map: [{ user: User; timestamp: number }]. *)
Record CacheEntry := mkCacheEntry {
  user : User;
  timestamp : Z
}.

#[global] Instance User_eq_dec : EqDecision User.
Proof. solve_decision. Defined.
#[global] Instance Comment_eq_dec : EqDecision Comment.
Proof. solve_decision. Defined.
#[global] Instance Post_eq_dec : EqDecision Post.
Proof. solve_decision. Defined.
#[global] Instance CacheEntry_eq_dec : EqDecision CacheEntry.
Proof. solve_decision. Defined.

(** ** Insertion-ordered maps

    The [Map<string, User>] values that [batchGetUsers] and [getUsers]
    build are iterated with [entries()], which follows insertion order, so
    they are association lists: [set] on a key that is present replaces
    the value in place, on a new key it appends. *)
Module JsMap.

Definition t (V : Type) := list (string * V).

Fixpoint get {V} (k : string) (m : t V) : option V :=
  match m with
  | [] => None
  | (k', v) :: m' => if decide (k = k') then Some v else get k m'
  end.

Fixpoint set {V} (k : string) (v : V) (m : t V) : t V :=
  match m with
  | [] => [(k, v)]
  | (k', v') :: m' =>
      if decide (k = k') then (k, v) :: m' else (k', v') :: set k v m'
  end.

End JsMap.

(** [new Set<string>()] with [add]: insertion-ordered, no duplicates. *)
Definition set_add (x : string) (s : list string) : list string :=
  if decide (x ∈ s) then s else s ++ [x].

(** ** Firestore writes and the trace *)

(** One staged [batch.update(doc(db, "posts", id), fields)]. *)
Inductive WriteOp :=
| SetAuthor (id : string) (authorName authorPhotoURL : string) (updatedAt : Z)
| SetComments (id : string) (comments : list Comment).

(** What the program sends to the outside: one event per store round trip
    and one per [console.error]. *)
Inductive Event :=
| GetDoc (id : string)
| UsersIn (batch : list string)
| PostsBy (authorId : string)
| UpdateDoc (id : string) (data : PartialUser) (updatedAt : Z)
| Commit (ops : list WriteOp)
| ConsoleError (msg : string).

(** A promise that was started and not awaited.  The program has one:
    the call of [updateUserContentReferences] in [updateUserProfile]. *)
Inductive Task :=
| Repair (uid newDisplayName newPhotoURL : string).

(** ** The world *)

Record World := mkWorld {
  cache : gmap string CacheEntry;      (* UserProfileCache.cache *)
  users : list (string * User);        (* collection "users": id, data *)
  posts : list Post;                   (* collection "posts" *)
  ticks : nat;                         (* clock readings made so far *)
  trace : list Event;
  detached : list Task
}.

Definition with_cache (c : gmap string CacheEntry) (w : World) : World :=
  mkWorld c (users w) (posts w) (ticks w) (trace w) (detached w).
Definition with_users (u : list (string * User)) (w : World) : World :=
  mkWorld (cache w) u (posts w) (ticks w) (trace w) (detached w).
Definition with_posts (p : list Post) (w : World) : World :=
  mkWorld (cache w) (users w) p (ticks w) (trace w) (detached w).
Definition with_ticks (n : nat) (w : World) : World :=
  mkWorld (cache w) (users w) (posts w) n (trace w) (detached w).
Definition with_trace (t : list Event) (w : World) : World :=
  mkWorld (cache w) (users w) (posts w) (ticks w) t (detached w).
Definition with_detached (d : list Task) (w : World) : World :=
  mkWorld (cache w) (users w) (posts w) (ticks w) (trace w) d.

(** ** Promises as a state and error monad

    An [async] function that is awaited either resolves with a value or
    rejects with an error; what it did to the world before rejecting
    stays done. *)
Inductive Outcome (A : Type) :=
| Resolved (a : A)
| Rejected (e : string).
Arguments Resolved {A} a.
Arguments Rejected {A} e.

Definition M (A : Type) : Type := World → Outcome A * World.

Definition ret {A} (a : A) : M A := λ w, (Resolved a, w).
Definition throw {A} (e : string) : M A := λ w, (Rejected e, w).
Definition bind {A B} (m : M A) (k : A → M B) : M B :=
  λ w, match m w with
       | (Resolved a, w') => k a w'
       | (Rejected e, w') => (Rejected e, w')
       end.

(** [promise.catch(handler)]. *)
Definition catch {A} (m : M A) (handler : string → M A) : M A :=
  λ w, match m w with
       | (Resolved a, w') => (Resolved a, w')
       | (Rejected e, w') => handler e w'
       end.

#[global] Instance M_ret : MRet M := @ret.
#[global] Instance M_bind : MBind M := λ A B k m, bind m k.

Definition get_world : M World := λ w, (Resolved w, w).
Definition modify (f : World → World) : M unit := λ w, (Resolved tt, f w).
Definition emit (e : Event) : M unit :=
  modify (λ w, with_trace (trace w ++ [e]) w).

(** [for (const x of xs) body(x)]. *)
Fixpoint for_each {A} (body : A → M unit) (xs : list A) : M unit :=
  match xs with
  | [] => ret tt
  | x :: xs' => body x ;; for_each body xs'
  end.

(** The same loop threading local variables [s]. *)
Fixpoint for_fold {A S} (body : S → A → M S) (s : S) (xs : list A) : M S :=
  match xs with
  | [] => ret s
  | x :: xs' => s' ← body s x; for_fold body s' xs'
  end.

(** ** Constants *)

Definition CACHE_TTL : Z := 5 * 60 * 1000.
Definition MAX_CACHE_SIZE : nat := 1000.
Definition MAX_BATCH_SIZE : nat := 500.
Definition FIREBASE_IN_LIMIT : nat := 10.

(** [uids.slice(i, i + 10)] for [i = 0, 10, 20, ...] while
    [i < uids.length]: the loop of [batchGetUsers] that builds
    [batches]. *)
Equations slices (uids : list string) (i : nat) : list (list string)
  by wf (length uids - i) lt :=
  slices uids i with decide (i < length uids) := {
    | left _ => take FIREBASE_IN_LIMIT (drop i uids) :: slices uids (i + FIREBASE_IN_LIMIT);
    | right _ => [] }.
Next Obligation. unfold FIREBASE_IN_LIMIT. lia. Qed.

(** The author fields of one nested comment rewritten. *)
Definition comment_with_author (c : Comment) (name photo : string) : Comment :=
  mkComment (comment_id c) (comment_postId c) (comment_authorId c)
    name photo (comment_content c) (comment_createdAt c).

(** [{...data, ...fields}] on a stored post. *)
Definition apply_op (op : WriteOp) (p : Post) : Post :=
  match op with
  | SetAuthor id name photo t =>
      if decide (post_id p = id) then
        mkPost (post_id p) (post_authorId p) name photo (post_content p)
          (post_imageURL p) (post_likes p) (post_comments p)
          (post_createdAt p) t
      else p
  | SetComments id cs =>
      if decide (post_id p = id) then
        mkPost (post_id p) (post_authorId p) (post_authorName p)
          (post_authorPhotoURL p) (post_content p) (post_imageURL p)
          (post_likes p) (Some cs) (post_createdAt p) (post_updatedAt p)
      else p
  end.

Definition apply_ops (ops : list WriteOp) (ps : list Post) : list Post :=
  foldl (λ ps op, apply_op op <$> ps) ps ops.

(** [{...doc, ...data, updatedAt}] on a stored profile. *)
Definition apply_data (data : PartialUser) (t : Z) (u : User) : User :=
  mkUser (default (uid u) (data_uid data))
    (default (email u) (data_email data))
    (default (displayName u) (data_displayName data))
    (default (photoURL u) (data_photoURL data))
    (match data_bio data with Some b => Some b | None => bio u end)
    (default (createdAt u) (data_createdAt data))
    t.

Fixpoint update_doc (id : string) (f : User → User)
    (us : list (string * User)) : list (string * User) :=
  match us with
  | [] => []
  | (k, u) :: us' =>
      if decide (id = k) then (k, f u) :: us' else (k, u) :: update_doc id f us'
  end.

(** A JavaScript string used as a condition. *)
Definition truthy (s : option string) : bool :=
  match s with
  | Some s => bool_decide (s ≠ "")
  | None => false
  end.

(** The [WriteBatch] object of the Firestore SDK: staged mutations and
    the flag [commit()] sets. *)
Record WriteBatch := mkWriteBatch {
  mutations : list WriteOp;
  committed : bool
}.

Definition writeBatch : WriteBatch := mkWriteBatch [] false.

(** ** Scenarios

    Concrete profiles, posts and worlds on which the program is run
    further down. *)

(** A clock that stands still, a store that answers every request, and
    one that rejects the fourth round trip. *)
Definition steady (n : nat) : Z := 1000.
Definition reliable (n : nat) : bool := false.
Definition commit_fails (n : nat) : bool := bool_decide (n = 3).

Definition alice : User :=
  mkUser "alice" "alice@example.org" "Alice" "alice.png" None 0 0.
Definition bob : User :=
  mkUser "bob" "bob@example.org" "Bob" "bob.png" None 0 0.

(** Bob after he renamed himself. *)
Definition bob_renamed : User :=
  mkUser "bob" "bob@example.org" "Robert" "robert.png" None 0 500.

(** The update of a display name and an avatar. *)
Definition rename : PartialUser :=
  mkPartialUser None None (Some "NewName") (Some "newAvatar") None None None.

(** Alice wrote [p1] and [p2]; Bob commented on [p1]; Bob wrote [p3], on
    which Alice commented with [c1]. *)
Definition c0 : Comment := mkComment "c0" "p1" "bob" "Bob" "bob.png" "nice" 5.
Definition c1 : Comment := mkComment "c1" "p3" "alice" "Alice" "alice.png" "hello" 6.
Definition p1 : Post :=
  mkPost "p1" "alice" "Alice" "alice.png" "one" None [] (Some [c0]) 1 1.
Definition p2 : Post :=
  mkPost "p2" "alice" "Alice" "alice.png" "two" None [] (Some []) 2 2.
Definition p3 : Post :=
  mkPost "p3" "bob" "Bob" "bob.png" "three" None [] (Some [c1]) 3 3.

(** The three posts, with an empty cache and with Alice's profile cached
    one second ago. *)
Definition feed : World :=
  mkWorld ∅ [("alice", alice); ("bob", bob)] [p1; p2; p3] 0 [] [].
Definition feed_warm : World :=
  mkWorld {["alice" := mkCacheEntry alice 0]} [("alice", alice); ("bob", bob)]
    [p1; p2; p3] 0 [] [].

(** No posts; Alice's profile cached one second ago. *)
Definition warm : World :=
  mkWorld {["alice" := mkCacheEntry alice 0]} [("alice", alice); ("bob", bob)]
    [] 0 [] [].

(** One store seen through two caches: an empty one, and one that still
    holds, within its TTL, the profile Bob had before he renamed
    himself. *)
Definition cold_cache : World :=
  mkWorld ∅ [("bob", bob_renamed)] [] 0 [] [].
Definition stale_cache : World :=
  mkWorld {["bob" := mkCacheEntry bob 0]} [("bob", bob_renamed)] [] 0 [] [].

(** [n] posts of one author with ids "0", "1", ...; [createPost] stores
    a post with an empty [comments] array, which is [Some []] here. *)
Definition posts_of (author : string) (comments : option (list Comment)) (n : nat)
    : list Post :=
  (λ i, mkPost (pretty i) author "Alice" "alice.png" "text" None [] comments 0 0)
    <$> seq 0 n.

Definition prolific (comments : option (list Comment)) (n : nat) : World :=
  mkWorld ∅ [("alice", alice)] (posts_of "alice" comments n) 0 [] [].

(** The sizes of the batches a trace committed, in order. *)
Definition commit_sizes (t : list Event) : list nat :=
  omap (λ e, match e with Commit ops => Some (length ops) | _ => None end) t.

(** 1001 profiles under the keys "0" to "1000", and a world with
    nothing in it. *)
Definition newcomers : list (string * User) :=
  (λ i, (pretty i, alice)) <$> seq 0 1001.
Definition blank : World := mkWorld ∅ [] [] 0 [] [].

(** The ids "0" to "22", of which "3" and "15" have a profile. *)
Definition twenty_three : list string := pretty <$> seq 0 23.
Definition two_of_them : World :=
  mkWorld ∅
    [("3", mkUser "3" "three@example.org" "Three" "3.png" None 0 0);
     ("15", mkUser "15" "fifteen@example.org" "Fifteen" "15.png" None 0 0)]
    [] 0 [] [].

(** Carol, who has a profile in none of the stores above. *)
Definition carol : User :=
  mkUser "carol" "carol@example.org" "Carol" "carol.png" None 0 0.

(** A post of Alice on which Bob commented and she answered, next to
    [p3]. *)
Definition c2 : Comment := mkComment "c2" "p4" "bob" "Bob" "bob.png" "first" 7.
Definition c3 : Comment := mkComment "c3" "p4" "alice" "Alice" "alice.png" "thanks" 8.
Definition p4 : Post :=
  mkPost "p4" "alice" "Alice" "alice.png" "four" None [] (Some [c2; c3]) 4 4.
Definition thread : World :=
  mkWorld ∅ [("alice", alice); ("bob", bob)] [p4; p3] 0 [] [].


(** ** The collections and requests of the rest of firebaseUtils.ts

    Posts, likes, comments and the creation of profiles need more of
    Firebase than the cache does: the collection "comments", Storage, and
    requests of their own. *)

(** The user object of Firebase Auth, as far as [createUserProfile]
    reads it. *)
Record AuthUser := mkAuthUser {
  auth_uid : string;
  auth_email : string;
  auth_displayName : string;
  auth_photoURL : string
}.

(** [CreatePostData]; the image file is given by its name. *)
Record CreatePostData := mkCreatePostData {
  content : string;
  imageFile : option string
}.

(** The requests to Firestore and to Storage, with the document written
    where there is one. *)
Inductive Request :=
  | SetDoc (id : string) (userData : User)
  | AddPost (post : Post)
  | AddComment (comment : Comment)
  | GetPost (id : string)
  | UpdateLikes (id : string) (likes : list string)
  | UpdateComments (id : string) (comments : list Comment) (updatedAt : Z)
  | DeleteDoc (collectionName id : string)
  | UploadBytes (path file : string)
  | GetDownloadURL (path : string).

Record Cloud := mkCloud {
  world : World;
  comment_docs : list Comment;         (* collection "comments" *)
  uploads : list (string * string);    (* Storage: path, file *)
  requests : list Request
}.

Definition with_world (w : World) (c : Cloud) : Cloud :=
  mkCloud w (comment_docs c) (uploads c) (requests c).
Definition with_comment_docs (d : list Comment) (c : Cloud) : Cloud :=
  mkCloud (world c) d (uploads c) (requests c).
Definition with_uploads (u : list (string * string)) (c : Cloud) : Cloud :=
  mkCloud (world c) (comment_docs c) u (requests c).
Definition with_requests (r : list Request) (c : Cloud) : Cloud :=
  mkCloud (world c) (comment_docs c) (uploads c) r.

(** Promises over the larger state. *)
Definition N (A : Type) : Type := Cloud → Outcome A * Cloud.

Definition retN {A} (a : A) : N A := λ c, (Resolved a, c).
Definition throwN {A} (e : string) : N A := λ c, (Rejected e, c).
Definition bindN {A B} (m : N A) (k : A → N B) : N B :=
  λ c, match m c with
       | (Resolved a, c') => k a c'
       | (Rejected e, c') => (Rejected e, c')
       end.

#[global] Instance N_ret : MRet N := @retN.
#[global] Instance N_bind : MBind N := λ A B k m, bindN m k.

(** A promise of the cache layer, run on the world of the cloud. *)
Definition lift {A} (m : M A) : N A :=
  λ c, match m (world c) with (a, w) => (a, with_world w c) end.

Definition get_cloud : N Cloud := λ c, (Resolved c, c).
Definition modifyN (f : Cloud → Cloud) : N unit := λ c, (Resolved tt, f c).

(** [try { ... } catch (error) { handler }]. *)
Definition try_catch {A} (m : N A) (handler : string → N A) : N A :=
  λ c, match m c with
       | (Resolved a, c') => (Resolved a, c')
       | (Rejected e, c') => handler e c'
       end.

(** *** Documents of the collection "posts" *)

(** [getDoc(doc(db, "posts", id))]. *)
Definition get_post (id : string) (ps : list Post) : option Post :=
  head (filter (λ p, post_id p = id) ps).

(** [updateDoc(doc(db, "posts", id), fields)] and
    [deleteDoc(doc(db, collection, id))] on the stored documents. *)
Definition update_post (id : string) (f : Post → Post) (ps : list Post) : list Post :=
  (λ p, if decide (post_id p = id) then f p else p) <$> ps.

Definition delete_post (id : string) (ps : list Post) : list Post :=
  filter (λ p, post_id p ≠ id) ps.

Definition delete_comment_doc (id : string) (cs : list Comment) : list Comment :=
  filter (λ c, comment_id c ≠ id) cs.

(** [{...doc, likes}] and [{...doc, comments, updatedAt}]. *)
Definition with_likes (likes : list string) (p : Post) : Post :=
  mkPost (post_id p) (post_authorId p) (post_authorName p)
    (post_authorPhotoURL p) (post_content p) (post_imageURL p) likes
    (post_comments p) (post_createdAt p) (post_updatedAt p).

Definition with_comments (comments : list Comment) (updatedAt : Z) (p : Post) : Post :=
  mkPost (post_id p) (post_authorId p) (post_authorName p)
    (post_authorPhotoURL p) (post_content p) (post_imageURL p) (post_likes p)
    (Some comments) (post_createdAt p) updatedAt.

(** *** The state of [AuthProvider] *)

Record AuthState := mkAuthState {
  user_state : option AuthUser;
  userProfile : option User;
  loading : bool
}.

(** *** Scenarios *)

(** Ids "id0", "id1", ... for the documents [addDoc] creates, a download
    URL for every path, and a service that grants every request. *)
Definition numbered (n : nat) : string := "id" +:+ pretty n.
Definition cdn (path : string) : string := "https://cdn.example.org/" +:+ path.
Definition granted (n : nat) : bool := false.

(** The cloud around [feed], with Bob's comment [c0] and Alice's [c1] in
    the collection "comments". *)
Definition feed_cloud : Cloud := mkCloud feed [c0; c1] [] [].

(** A service that turns down the request at position [k] and no
    other. *)
Definition fails_at (k n : nat) : bool := bool_decide (n = k).

(** Carol as Firebase Auth knows her; she has no profile in [feed]. *)
Definition carol_auth : AuthUser :=
  mkAuthUser "carol" "carol@example.org" "Carol" "carol.png".
Definition alice_auth : AuthUser :=
  mkAuthUser "alice" "alice@example.org" "Alice A." "alice2.png".
(** ** The program *)

Section Program.

(** The surroundings of the program: whether [firebase.ts] managed to
    initialise Firestore ([db] is not [null]), the readings of the
    wall clock (the [n]-th call of [Date.now()] or [new Date()] returns
    [clock n]), and which store round trips are rejected (the round trip
    recorded at position [n] of the trace fails when [fault n]). *)
Variable db : bool.
Variable clock : nat → Z.
Variable fault : nat → bool.

Definition Date_now : M Z :=
  λ w, (Resolved (clock (ticks w)), with_ticks (S (ticks w)) w).

(** A request to Firestore: recorded, then answered or rejected. *)
Definition roundtrip (e : Event) : M unit :=
  w ← get_world;
  emit e ;;
  if fault (length (trace w)) then throw "unavailable" else ret tt.

(** *** The Firestore SDK *)

(** [batch.update(ref, fields)]: refused once the batch was committed. *)
Definition batch_update (op : WriteOp) (b : WriteBatch) : M WriteBatch :=
  if committed b then
    throw "A write batch can no longer be used after commit() has been called."
  else ret (mkWriteBatch (mutations b ++ [op]) false).

(** [await batch.commit()]: marks the batch committed and sends its
    mutations, which the store applies together or not at all.  A batch
    of any length is applied: the limit of 500 operations that Firestore
    sets on a batch is not part of this store, and the length of what is
    sent is stated where it matters. *)
Definition batch_commit (b : WriteBatch) : M WriteBatch :=
  if committed b then
    throw "A write batch can no longer be used after commit() has been called."
  else
    let b' := mkWriteBatch (mutations b) true in
    match mutations b with
    | [] => ret b'
    | ops =>
        roundtrip (Commit ops) ;;
        modify (λ w, with_posts (apply_ops ops (posts w)) w) ;;
        ret b'
    end.

(** [getDocs(query(collection(db, "users"), where("uid", "in", batch)))]. *)
Definition users_in (batch : list string) (us : list (string * User)) : list User :=
  (filter (λ d, uid d.2 ∈ batch) us).*2.

(** [getDocs(query(collection(db, "posts"), where("authorId", "==", uid)))]. *)
Definition posts_by (author : string) (ps : list Post) : list Post :=
  filter (λ p, post_authorId p = author) ps.

(** *** firebaseUtils.ts: [checkFirestore], [getUserProfile] *)

Definition checkFirestore : M unit :=
  if db then ret tt
  else
    emit (ConsoleError "Firestore is null. Firebase config:") ;;
    throw "Firestore is not initialized. Please check your environment variables.".

(** The stored dates are taken to be present, so that the fallbacks of
    the date conversion ([|| data.createdAt || new Date()]) do not come
    into play and the document is returned as it is stored. *)
Definition getUserProfile (id : string) : M (option User) :=
  checkFirestore ;;
  roundtrip (GetDoc id) ;;
  w ← get_world;
  ret (JsMap.get id (users w)).

(** *** userCache.ts: class [UserProfileCache] *)

Definition is_fresh (now : Z) (e : CacheEntry) : bool :=
  bool_decide (now - timestamp e < CACHE_TTL)%Z.

Definition cleanupCache : M unit :=
  now ← Date_now;
  modify (λ w,
    with_cache (filter (λ kv, ¬ (CACHE_TTL ≤ now - timestamp kv.2)%Z) (cache w)) w).

Definition setUser (id : string) (u : User) : M unit :=
  w ← get_world;
  (if decide (MAX_CACHE_SIZE ≤ size (cache w)) then cleanupCache else ret tt) ;;
  now ← Date_now;
  modify (λ w, with_cache (<[id := mkCacheEntry u now]> (cache w)) w).

Definition invalidateUser (id : string) : M unit :=
  modify (λ w, with_cache (delete id (cache w)) w).

Definition clearCache : M unit :=
  modify (with_cache ∅).

(** [cached && Date.now() - cached.timestamp < this.CACHE_TTL]: the clock
    is read only when there is an entry. *)
Definition cache_hit (id : string) : M (option User) :=
  w ← get_world;
  match cache w !! id with
  | Some cached =>
      now ← Date_now;
      ret (if is_fresh now cached then Some (user cached) else None)
  | None => ret None
  end.

Definition getUser (id : string) : M (option User) :=
  hit ← cache_hit id;
  match hit with
  | Some u => ret (Some u)
  | None =>
      found ← getUserProfile id;
      match found with
      | Some u => setUser id u ;; ret (Some u)
      | None => ret None
      end
  end.

Definition batchGetUsers (uids : list string) : M (JsMap.t User) :=
  let batches := slices uids 0 in
  (if db then ret tt else throw "Firestore is not initialized") ;;
  for_fold (λ result batch,
      roundtrip (UsersIn batch) ;;
      w ← get_world;
      ret (foldl (λ r u, JsMap.set (uid u) u r) result (users_in batch (users w))))
    [] batches.

Definition getUsers (uids : list string) : M (JsMap.t User) :=
  '(result, uncachedUids) ← for_fold (λ '(result, uncachedUids) id,
      hit ← cache_hit id;
      match hit with
      | Some u => ret (JsMap.set id u result, uncachedUids)
      | None => ret (result, uncachedUids ++ [id])
      end) ([], []) uids;
  match uncachedUids with
  | [] => ret result
  | _ =>
      fetched ← batchGetUsers uncachedUids;
      for_fold (λ result '(id, u),
          let result := JsMap.set id u result in
          setUser id u ;; ret result)
        result fetched
  end.

(** The rewritten [comments] array of one post: the entries written by
    [id] get the new author fields, the others are kept as they are. *)
Definition updatedComments (id name photo : string) (cs : list Comment) : list Comment :=
  (λ c, if decide (comment_authorId c = id)
        then comment_with_author c name photo else c) <$> cs.

Definition updateUserContentReferences (id newDisplayName newPhotoURL : string) : M unit :=
  (if db then ret tt else throw "Firestore is not initialized") ;;
  let batch := writeBatch in
  roundtrip (PostsBy id) ;;
  w ← get_world;
  '(batch, batchOperations) ← for_fold (λ '(batch, batchOperations) postDoc,
      now ← Date_now;
      batch ← batch_update
        (SetAuthor (post_id postDoc) newDisplayName newPhotoURL now) batch;
      let batchOperations := S batchOperations in
      batch ← match post_comments postDoc with
              | Some cs =>
                  batch_update (SetComments (post_id postDoc)
                    (updatedComments id newDisplayName newPhotoURL cs)) batch
              | None => ret batch
              end;
      if decide (MAX_BATCH_SIZE ≤ batchOperations) then
        batch ← batch_commit batch;
        ret (batch, 0)
      else ret (batch, batchOperations))
    (batch, 0) (posts_by id (posts w));
  (if decide (0 < batchOperations) then batch_commit batch ;; ret tt else ret tt) ;;
  invalidateUser id.

(** *** firebaseUtils.ts: [updateUserProfile], [enrichPostsWithUserData] *)

(** [promise.catch(error => console.error(...))] without [await]: the
    promise is left to run on its own.  It is queued here as a whole; in
    the source the call has run to its first [await] by then, so that
    the query for the posts is sent before [updateUserProfile] goes on;
    the trace here has that request only once the repair is run. *)
Definition detach (t : Task) : M unit :=
  modify (λ w, with_detached (detached w ++ [t]) w).

Definition updateUserProfile (id : string) (data : PartialUser) : M unit :=
  checkFirestore ;;
  now ← Date_now;
  roundtrip (UpdateDoc id data now) ;;
  w ← get_world;
  match JsMap.get id (users w) with
  | None => throw "No document to update"
  | Some _ =>
      modify (λ w, with_users (update_doc id (apply_data data now) (users w)) w) ;;
      (if truthy (data_displayName data) || truthy (data_photoURL data) then
         updatedUser ← getUserProfile id;
         match updatedUser with
         | Some u => detach (Repair id (displayName u) (photoURL u))
         | None => ret tt
         end
       else ret tt) ;;
      invalidateUser id
  end.

(** One step of the event loop on a detached promise: it runs, and a
    rejection reaches the handler given to [catch].  The repair runs
    here in one piece; in the source it proceeds between the awaits of
    the calls that follow, and may have committed before they resolve;
    [background] says what any part of it can have done to a world. *)
Definition run_detached : M unit :=
  w ← get_world;
  match detached w with
  | [] => ret tt
  | Repair id name photo :: rest =>
      modify (with_detached rest) ;;
      catch (updateUserContentReferences id name photo)
        (λ error,
           emit (ConsoleError ("Error updating user content references: " +:+ error)))
  end.

(** The set of author ids of the posts and of their comments. *)
Definition authorIds (ps : list Post) : list string :=
  foldl (λ ids post,
      foldl (λ ids c, set_add (comment_authorId c) ids)
        (set_add (post_authorId post) ids)
        (default [] (post_comments post)))
    [] ps.

Definition enrich_comment (us : JsMap.t User) (c : Comment) : Comment :=
  match JsMap.get (comment_authorId c) us with
  | Some commentAuthor =>
      comment_with_author c (displayName commentAuthor) (photoURL commentAuthor)
  | None => c
  end.

Definition enrich_post (us : JsMap.t User) (post : Post) : Post :=
  let '(name, photo) :=
    match JsMap.get (post_authorId post) us with
    | Some postAuthor => (displayName postAuthor, photoURL postAuthor)
    | None => (post_authorName post, post_authorPhotoURL post)
    end in
  mkPost (post_id post) (post_authorId post) name photo (post_content post)
    (post_imageURL post) (post_likes post)
    (fmap (M := list) (enrich_comment us) <$> post_comments post)
    (post_createdAt post) (post_updatedAt post).

Definition enrichPostsWithUserData (ps : list Post) : M (list Post) :=
  us ← getUsers (authorIds ps);
  ret (enrich_post us <$> ps).


(** ** Notions used in the statements *)

(** *** Clock and store *)

(** The clock readings [lo], ..., [hi - 1] lie less than the TTL apart. *)
Definition calm (lo hi : nat) : Prop :=
  ∀ i j, lo ≤ i < hi → lo ≤ j < hi → (clock j - clock i < CACHE_TTL)%Z.

(** No round trip recorded at position [lo] of the trace or later is
    rejected. *)
Definition answered_from (lo : nat) : Prop := ∀ i, lo ≤ i → fault i = false.

(** The collection "users" as [createUserProfile] fills it: one document
    per id, whose [uid] field is its id. *)
Definition wf_users (us : list (string * User)) : Prop :=
  NoDup us.*1 ∧ ∀ d, d ∈ us → uid d.2 = d.1.

(** The store has no profile for [k], neither under the document id [k]
    nor with [k] in its [uid] field. *)
Definition absent (us : list (string * User)) (k : string) : Prop :=
  JsMap.get k us = None ∧ ∀ d, d ∈ us → uid d.2 ≠ k.

(** *** The cache *)

(** What [cleanupCache] leaves of a map when the clock reads [now]. *)
Definition swept (now : Z) (c : gmap string CacheEntry) : gmap string CacheEntry :=
  filter (λ kv, ¬ (CACHE_TTL ≤ now - timestamp kv.2)%Z) c.

(** The world [setUser id u] leaves: a sweep first when the map is at
    capacity, then the entry with the next clock reading. *)
Definition after_setUser (id : string) (u : User) (w : World) : World :=
  if decide (MAX_CACHE_SIZE ≤ size (cache w)) then
    mkWorld (<[id := mkCacheEntry u (clock (S (ticks w)))]>
               (swept (clock (ticks w)) (cache w)))
      (users w) (posts w) (S (S (ticks w))) (trace w) (detached w)
  else
    mkWorld (<[id := mkCacheEntry u (clock (ticks w))]> (cache w))
      (users w) (posts w) (S (ticks w)) (trace w) (detached w).

(** [setUser] for each pair of a list, one after the other. *)
Definition setUsers (ins : list (string * User)) : M unit :=
  for_each (λ kv, setUser kv.1 kv.2) ins.

(** Every entry of the cache is younger than the TTL at each of the clock
    readings from the next one up to [hi - 1]. *)
Definition all_fresh_until (w : World) (hi : nat) : Prop :=
  ∀ k e i, cache w !! k = Some e → ticks w ≤ i < hi →
    (clock i - timestamp e < CACHE_TTL)%Z.

(** The cache holds [k] with the profile [u] since a clock reading of
    index [lo] or later. *)
Definition written_since (lo : nat) (w : World) (k : string) (u : User) : Prop :=
  ∃ e, cache w !! k = Some e ∧ user e = u ∧
       ∃ j, lo ≤ j < ticks w ∧ timestamp e = clock j.

(** Whether the cache holds an entry for [k] that is younger than the TTL
    when the clock reads [now]. *)
Definition fresh_in (now : Z) (c : gmap string CacheEntry) (k : string) : bool :=
  match c !! k with
  | Some e => is_fresh now e
  | None => false
  end.

(** Every fresh entry of the cache is the profile the store holds. *)
Definition coherent (now : Z) (w : World) : Prop :=
  ∀ k e, cache w !! k = Some e → is_fresh now e = true →
    JsMap.get k (users w) = Some (user e).

(** No clock reading from the next one on finds a fresh entry for [k]:
    there is none, or it has expired for good. *)
Definition cold (w : World) (k : string) : Prop :=
  ∀ e i, cache w !! k = Some e → ticks w ≤ i → is_fresh (clock i) e = false.

(** *** The phases of [getUsers] *)

(** The body of the first loop of [getUsers] and of the second. *)
Definition probe_body : JsMap.t User * list string → string →
    M (JsMap.t User * list string) :=
  λ '(result, uncachedUids) id,
    hit ← cache_hit id;
    match hit with
    | Some u => ret (JsMap.set id u result, uncachedUids)
    | None => ret (result, uncachedUids ++ [id])
    end.

Definition fill_body : JsMap.t User → string * User → M (JsMap.t User) :=
  λ result '(id, u),
    let result := JsMap.set id u result in
    setUser id u ;; ret result.

(** What the first loop computes: each id is looked up in the cache, at
    the clock reading [t] when it has an entry; the ids served fill
    [result], the others are queued in [uncachedUids].  Returns both and
    the index of the next clock reading. *)
Fixpoint probe (c : gmap string CacheEntry) (t : nat)
    (acc : JsMap.t User * list string) (uids : list string)
    : JsMap.t User * list string * nat :=
  match uids with
  | [] => (acc, t)
  | id :: rest =>
      match c !! id with
      | Some e =>
          probe c (S t)
            (if is_fresh (clock t) e
             then (JsMap.set id (user e) acc.1, acc.2)
             else (acc.1, acc.2 ++ [id]))
            rest
      | None => probe c t (acc.1, acc.2 ++ [id]) rest
      end
  end.

(** [served k] says whether the first loop serves [k] from the cache: the
    verdict does not depend on which clock reading, of the [n] from
    reading [t] on, the loop compares the entry with. *)
Definition verdicts (c : gmap string CacheEntry) (served : string → bool)
    (t n : nat) (uids : list string) : Prop :=
  ∀ i k, t ≤ i < t + n → k ∈ uids →
    served k = match c !! k with
               | Some e => is_fresh (clock i) e
               | None => false
               end.

(** The entries the first loop writes to [result] under the verdicts
    [served]. *)
Definition hits_of (c : gmap string CacheEntry) (served : string → bool)
    (acc : JsMap.t User) (uids : list string) : JsMap.t User :=
  foldl (λ r k, match c !! k with
                | Some e => if served k then JsMap.set k (user e) r else r
                | None => r
                end) acc uids.

(** The profiles one query per slice brings back, in the order they are
    written to the result of [batchGetUsers], and that result. *)
Definition fetched_docs (uncached : list string) (us : list (string * User)) : list User :=
  concat ((λ batch, users_in batch us) <$> slices uncached 0).

Definition fetched_of (uncached : list string) (us : list (string * User)) : JsMap.t User :=
  foldl (λ r u, JsMap.set (uid u) u r) [] (fetched_docs uncached us).

(** [m], [n] times in a row. *)
Fixpoint again {A} (n : nat) (m : M A) : M (list A) :=
  match n with
  | 0 => ret []
  | S n' => a ← m; rest ← again n' m; ret (a :: rest)
  end.

(** *** Frames *)

Definition is_query (e : Event) : Prop := ∃ batch, e = UsersIn batch.

(** [m] leaves the store and the detached promises alone and sends
    nothing but "uid in" queries, whether it resolves or rejects. *)
Definition reads_only {A} (m : M A) : Prop :=
  ∀ w, users (m w).2 = users w ∧ posts (m w).2 = posts w ∧
       detached (m w).2 = detached w ∧
       ∃ evs, trace (m w).2 = trace w ++ evs ∧ Forall is_query evs.

(** [m] never changes the component [f] of the world. *)
Definition preserves {A B} (f : World → B) (m : M A) : Prop :=
  ∀ w, f (m w).2 = f w.

(** [m] changes the cache in one way only: when it resolves it has
    deleted the entry of [id]. *)
Definition ends_invalidating {A} (id : string) (m : M A) : Prop :=
  ∀ w, match m w with
       | (Resolved _, w') => cache w' = delete id (cache w)
       | (Rejected _, w') => cache w' = cache w
       end.

(** *** Repair *)

(** The post a staged update writes to. *)
Definition op_target (op : WriteOp) : string :=
  match op with
  | SetAuthor id _ _ _ => id
  | SetComments id _ => id
  end.

(** The updates the loop of the repair stages for the posts [ps] when the
    next clock reading has index [t]: one for the author fields of each
    post and, for a post with a [comments] array, one for its comments. *)
Fixpoint staged (id name photo : string) (t : nat) (ps : list Post) : list WriteOp :=
  match ps with
  | [] => []
  | p :: ps' =>
      SetAuthor (post_id p) name photo (clock t) ::
      match post_comments p with
      | Some cs => [SetComments (post_id p) (updatedComments id name photo cs)]
      | None => []
      end ++ staged id name photo (S t) ps'
  end.

(** [ps] still has, at the place it has in [ps0], every post of [ps0]
    whose id is not among [own]. *)
Definition untouched (own : list string) (ps0 ps : list Post) : Prop :=
  ∀ i p, ps0 !! i = Some p → post_id p ∉ own → ps !! i = Some p.

(** *** Enrichment and update *)

(** The fields of a post, and of a comment, other than the author's name
    and photo. *)
Definition same_post_data (p p' : Post) : Prop :=
  post_id p' = post_id p ∧ post_authorId p' = post_authorId p ∧
  post_content p' = post_content p ∧ post_imageURL p' = post_imageURL p ∧
  post_likes p' = post_likes p ∧ post_createdAt p' = post_createdAt p ∧
  post_updatedAt p' = post_updatedAt p.

Definition same_comment_data (c c' : Comment) : Prop :=
  comment_id c' = comment_id c ∧ comment_postId c' = comment_postId c ∧
  comment_authorId c' = comment_authorId c ∧
  comment_content c' = comment_content c ∧
  comment_createdAt c' = comment_createdAt c.

(** The author fields after enrichment: the profile's when [us] resolves
    the author id, the persisted ones otherwise. *)
Definition author_fields (us : JsMap.t User) (id name photo name' photo' : string) : Prop :=
  match JsMap.get id us with
  | Some a => name' = displayName a ∧ photo' = photoURL a
  | None => name' = name ∧ photo' = photo
  end.

(** The repairs [updateUserProfile id data] starts on a profile that reads
    [u] after the write: one when [data] carries a non-empty display
    name or photo URL, none otherwise. *)
Definition started (id : string) (data : PartialUser) (u : User) : list Task :=
  if truthy (data_displayName data) || truthy (data_photoURL data)
  then [Repair id (displayName u) (photoURL u)] else [].

(** The profile [getUsers] resolves for the author id [a] when the
    verdict on its cache entry is the one at the clock reading [now]:
    the cached profile when the entry is fresh, what the store holds
    otherwise. *)
Definition resolved (now : Z) (w : World) (a : string) : option User :=
  if fresh_in now (cache w) a then user <$> cache w !! a
  else JsMap.get a (users w).

(** The author fields of an enriched post or comment whose author
    resolves to [r]: the profile's, or the persisted ones when there is
    none. *)
Definition shown (r : option User) (name photo name' photo' : string) : Prop :=
  match r with
  | Some a => name' = displayName a ∧ photo' = photoURL a
  | None => name' = name ∧ photo' = photo
  end.

(** *** Schedules *)

(** What a repair, or any step that only reads and repairs, can have
    made of a world: the profiles are the same, the posts are the same
    documents as to their ids and authors, requests were only added, and
    no cache entry has appeared. *)
Definition later (w w' : World) : Prop :=
  users w' = users w ∧
  post_id <$> posts w' = post_id <$> posts w ∧
  post_authorId <$> posts w' = post_authorId <$> posts w ∧
  length (trace w) ≤ length (trace w') ∧
  ∀ k, cache w !! k = None → cache w' !! k = None.

(** [m] takes every world to a [later] one, whether it resolves or
    rejects. *)
Definition keeps {A} (m : M A) : Prop := ∀ w, later w (m w).2.

(** A step taken by the event loop between two awaited calls, on work
    that was detached: it resolves and leaves a [later] world. *)
Definition background (m : M unit) : Prop :=
  ∀ w, ∃ w', m w = (Resolved tt, w') ∧ later w w'.


(** ** More of the program *)

(** *** firebaseUtils.ts: [getUserPosts] *)

(** The map over the documents of a query: [comments: data.comments || []]
    gives every post a [comments] array.  The stored dates are taken to
    be present, as in [getUserProfile]. *)
Definition with_comments_array (p : Post) : Post :=
  mkPost (post_id p) (post_authorId p) (post_authorName p)
    (post_authorPhotoURL p) (post_content p) (post_imageURL p) (post_likes p)
    (Some (default [] (post_comments p))) (post_createdAt p) (post_updatedAt p).

(** [posts.sort((a, b) => b.createdAt.getTime() - a.createdAt.getTime())]:
    [a] goes before [b] when it is the newer of the two, and posts of the
    same instant keep their order ([Array.prototype.sort] is stable). *)
Fixpoint insert_newest_first (a : Post) (sorted : list Post) : list Post :=
  match sorted with
  | [] => [a]
  | b :: rest =>
      if decide (post_createdAt b ≤ post_createdAt a)%Z then a :: b :: rest
      else b :: insert_newest_first a rest
  end.

Definition sort_newest_first (ps : list Post) : list Post :=
  foldr insert_newest_first [] ps.

Definition getUserPosts (userId : string) : M (list Post) :=
  checkFirestore ;;
  roundtrip (PostsBy userId) ;;
  w ← get_world;
  let posts := with_comments_array <$> posts_by userId (posts w) in
  let sortedPosts := sort_newest_first posts in
  enrichPostsWithUserData sortedPosts.

(** *** utils.ts: [formatTimeAgo] *)

(** What [formatTimeAgo] is given: a [Date], whose time value is [None]
    when the date is invalid; an object with a [toDate] method, with the
    [Date] the method returns; a string; a number, here an integer;
    anything else ([null], [undefined], an object without [toDate]). *)
Inductive DateInput :=
  | JsDate (time : option Z)
  | HasToDate (time : option Z)
  | DateString (s : string)
  | DateNumber (n : Z)
  | OtherValue.

(** [new Date(n)] for an integer [n]: an invalid date beyond 8.64e15
    milliseconds from the epoch. *)
Definition new_Date (n : Z) : option Z :=
  if decide (-8640000000000000 ≤ n ≤ 8640000000000000)%Z then Some n else None.

(** [`${n} unit${n > 1 ? 's' : ''} ago`]. *)
Definition ago (n : Z) (unit : string) : string :=
  pretty n +:+ " " +:+ unit +:+ (if decide (1 < n)%Z then "s" else "") +:+ " ago".

(** The text, and the lines written with [console.warn].  [parse] is
    [new Date(string)] and [now] the time value of [new Date()].  The
    time values are integers of milliseconds; [Math.floor(x / k)] is the
    quotient of [Z], which rounds down as it does. *)
Definition formatTimeAgo (parse : string → option Z) (now : Z) (date : DateInput)
    : string * list string :=
  let dateObj : option (option Z) :=
    match date with
    | JsDate time => Some time
    | HasToDate time => Some time
    | DateString s => if decide (s = "") then None else Some (parse s)
    | DateNumber n => if decide (n = 0%Z) then None else Some (new_Date n)
    | OtherValue => None
    end in
  match dateObj with
  | None => ("just now", ["Invalid date format passed to formatTimeAgo:"])
  | Some None => ("just now", ["Invalid date object created:"])
  | Some (Some time) =>
      let diffInSeconds := ((now - time) / 1000)%Z in
      if decide (diffInSeconds < 60)%Z then ("just now", []) else
      let diffInMinutes := (diffInSeconds / 60)%Z in
      if decide (diffInMinutes < 60)%Z then (ago diffInMinutes "minute", []) else
      let diffInHours := (diffInMinutes / 60)%Z in
      if decide (diffInHours < 24)%Z then (ago diffInHours "hour", []) else
      let diffInDays := (diffInHours / 24)%Z in
      if decide (diffInDays < 7)%Z then (ago diffInDays "day", []) else
      let diffInWeeks := (diffInDays / 7)%Z in
      if decide (diffInWeeks < 4)%Z then (ago diffInWeeks "week", []) else
      let diffInMonths := (diffInDays / 30)%Z in
      if decide (diffInMonths < 12)%Z then (ago diffInMonths "month", []) else
      let diffInYears := (diffInDays / 365)%Z in
      (ago diffInYears "year", [])
  end.

(** *** Notions used in the statements about them *)

(** The post the repair of [id] leaves of a post [p] of [id] when it
    stamps it with the clock reading [t]. *)
Definition repaired (id name photo : string) (t : Z) (p : Post) : Post :=
  mkPost (post_id p) (post_authorId p) name photo (post_content p)
    (post_imageURL p) (post_likes p)
    (updatedComments id name photo <$> post_comments p)
    (post_createdAt p) t.

(** A time value at or after the epoch.  The differences and quotients
    [formatTimeAgo] takes of two of them are exact in the double
    precision arithmetic of the source. *)
Definition time_value (t : Z) : Prop := (0 ≤ t ≤ 8640000000000000)%Z.

(** Milliseconds. *)
Definition minute_ms : Z := 60 * 1000.
Definition hour_ms : Z := 60 * minute_ms.
Definition day_ms : Z := 24 * hour_ms.

(** The text for a date [age] milliseconds in the past, by the age
    alone. *)
Definition text_of_age (age : Z) : string :=
  if decide (age < minute_ms)%Z then "just now"
  else if decide (age < hour_ms)%Z then ago (age / minute_ms) "minute"
  else if decide (age < day_ms)%Z then ago (age / hour_ms) "hour"
  else if decide (age < 7 * day_ms)%Z then ago (age / day_ms) "day"
  else if decide (age < 28 * day_ms)%Z then ago (age / (7 * day_ms)) "week"
  else if decide (age < 360 * day_ms)%Z then ago (age / (30 * day_ms)) "month"
  else ago (age / (365 * day_ms)) "year".

(** Every post of the list is at least as new as those after it. *)
Fixpoint newest_first (ps : list Post) : Prop :=
  match ps with
  | [] => True
  | a :: rest =>
      Forall (λ b, (post_createdAt b ≤ post_createdAt a)%Z) rest ∧ newest_first rest
  end.

(** The value [d] is a way to write the time value [t]: a valid [Date]
    or a Firestore timestamp of that time, the number [t] unless it is
    [0] or out of the range of dates, or a non-empty string that [parse]
    reads as [t]. *)
Definition denotes (parse : string → option Z) (d : DateInput) (t : Z) : Prop :=
  match d with
  | JsDate time | HasToDate time => time = Some t
  | DateString s => s ≠ "" ∧ parse s = Some t
  | DateNumber n => n ≠ 0%Z ∧ new_Date n = Some t
  | OtherValue => False
  end.

(** ** The rest of firebaseUtils.ts, and AuthContext.tsx *)

Section Cloud.

(** More of the surroundings: whether [firebase.ts] initialised Storage,
    which of the requests of this part are refused (the request recorded
    at position [n] of [requests] fails when [refused n]), the id that
    [addDoc] gives to the document of the request at position [n], and
    the download URL of a path. *)
Variable storage : bool.
Variable refused : nat → bool.
Variable auto_id : nat → string.
Variable download_url : string → string.

Definition request (r : Request) : N unit :=
  λ c, (if refused (length (requests c)) then Rejected "unavailable" else Resolved tt,
        with_requests (requests c ++ [r]) c).

(** The clock and [checkFirestore] on the world of the cloud. *)
Definition new_Date_now : N Z := lift Date_now.
Definition checkFirestoreN : N unit := lift checkFirestore.

Definition checkStorage : N unit :=
  if storage then mret tt
  else throwN "Firebase Storage is not initialized. Please check your environment variables.".

(** *** Profiles *)

Definition createUserProfile (user : AuthUser) : N User :=
  checkFirestoreN ;;
  createdAt ← new_Date_now;
  updatedAt ← new_Date_now;
  let userData := mkUser (auth_uid user) (auth_email user) (auth_displayName user)
                    (auth_photoURL user) (Some "") createdAt updatedAt in
  request (SetDoc (auth_uid user) userData) ;;
  modifyN (λ c, with_world
    (with_users (JsMap.set (auth_uid user) userData (users (world c))) (world c)) c) ;;
  mret userData.

(** The callback [AuthProvider] gives to [onAuthStateChanged]. *)
Definition authStateChanged (user : option AuthUser) (s : AuthState) : N AuthState :=
  let s := mkAuthState user (userProfile s) (loading s) in
  s ← match user with
      | Some u =>
          try_catch
            (profile ← lift (getUserProfile (auth_uid u));
             profile ← match profile with
                       | Some p => mret p
                       | None => createUserProfile u
                       end;
             mret (mkAuthState (user_state s) (Some profile) (loading s)))
            (λ error,
               lift (emit (ConsoleError ("Error handling user profile: " +:+ error))) ;;
               mret s)
      | None => mret (mkAuthState (user_state s) None (loading s))
      end;
  mret (mkAuthState (user_state s) (userProfile s) false).

Definition refreshUserProfile (s : AuthState) : N AuthState :=
  match user_state s with
  | None => mret s
  | Some u =>
      try_catch
        (updatedProfile ← lift (getUserProfile (auth_uid u));
         match updatedProfile with
         | Some p => mret (mkAuthState (user_state s) (Some p) (loading s))
         | None => mret s
         end)
        (λ error,
           lift (emit (ConsoleError ("Error refreshing user profile: " +:+ error))) ;;
           mret s)
  end.

(** *** Storage and posts *)

Definition uploadFile (file path : string) : N string :=
  checkStorage ;;
  request (UploadBytes path file) ;;
  modifyN (λ c, with_uploads (uploads c ++ [(path, file)]) c) ;;
  request (GetDownloadURL path) ;;
  mret (download_url path).

Definition createPost (postData : CreatePostData) (user : User) : N Post :=
  checkFirestoreN ;;
  imageURL ← match imageFile postData with
             | Some name =>
                 checkStorage ;;
                 now ← new_Date_now;
                 let imagePath := "posts/" +:+ pretty now +:+ "_" +:+ name in
                 url ← uploadFile name imagePath;
                 mret (Some url)
             | None => mret None
             end;
  createdAt ← new_Date_now;
  updatedAt ← new_Date_now;
  c ← get_cloud;
  let id := auto_id (length (requests c)) in
  let post := mkPost id (uid user) (displayName user) (photoURL user)
                (content postData)
                (if truthy imageURL then imageURL else None)
                [] (Some []) createdAt updatedAt in
  request (AddPost post) ;;
  modifyN (λ c, with_world (with_posts (posts (world c) ++ [post]) (world c)) c) ;;
  mret post.

Definition deleteDocument_posts (id : string) : N unit :=
  checkFirestoreN ;;
  request (DeleteDoc "posts" id) ;;
  modifyN (λ c, with_world (with_posts (delete_post id (posts (world c))) (world c)) c).

Definition deleteDocument_comments (id : string) : N unit :=
  checkFirestoreN ;;
  request (DeleteDoc "comments" id) ;;
  modifyN (λ c, with_comment_docs (delete_comment_doc id (comment_docs c)) c).

Definition deletePost (postId : string) : N unit :=
  deleteDocument_posts postId.

(** *** Likes *)

Definition toggleLike (postId userId : string) : N unit :=
  checkFirestoreN ;;
  request (GetPost postId) ;;
  c ← get_cloud;
  match get_post postId (posts (world c)) with
  | Some post =>
      let likes := post_likes post in
      let likes' := if decide (userId ∈ likes)
                    then filter (λ id, id ≠ userId) likes
                    else likes ++ [userId] in
      request (UpdateLikes postId likes') ;;
      modifyN (λ c, with_world
        (with_posts (update_post postId (with_likes likes') (posts (world c)))
           (world c)) c)
  | None => mret tt
  end.

(** *** Comments *)

Definition addComment (postId : string) (commentContent : string) (user : User)
    : N Comment :=
  checkFirestoreN ;;
  createdAt ← new_Date_now;
  c ← get_cloud;
  let newComment := mkComment (auto_id (length (requests c))) postId (uid user)
                      (displayName user) (photoURL user) commentContent createdAt in
  request (AddComment newComment) ;;
  modifyN (λ c, with_comment_docs (comment_docs c ++ [newComment]) c) ;;
  request (GetPost postId) ;;
  c ← get_cloud;
  match get_post postId (posts (world c)) with
  | Some post =>
      let comments := default [] (post_comments post) ++ [newComment] in
      updatedAt ← new_Date_now;
      request (UpdateComments postId comments updatedAt) ;;
      modifyN (λ c, with_world
        (with_posts (update_post postId (with_comments comments updatedAt)
                       (posts (world c))) (world c)) c)
  | None => mret tt
  end ;;
  mret newComment.

Definition deleteComment (postId commentId : string) : N unit :=
  checkFirestoreN ;;
  request (GetPost postId) ;;
  c ← get_cloud;
  match get_post postId (posts (world c)) with
  | Some post =>
      match post_comments post with
      | Some cs =>
          let comments := filter (λ comment, comment_id comment ≠ commentId) cs in
          updatedAt ← new_Date_now;
          request (UpdateComments postId comments updatedAt) ;;
          modifyN (λ c, with_world
            (with_posts (update_post postId (with_comments comments updatedAt)
                           (posts (world c))) (world c)) c)
      | None =>
          throwN "TypeError: Cannot read properties of undefined (reading 'filter')"
      end
  | None => mret tt
  end ;;
  deleteDocument_comments commentId.

(** *** Notions used in the statements about them *)

(** No request recorded at position [lo] or later is refused. *)
Definition granted_from (lo : nat) : Prop := ∀ i, lo ≤ i → refused i = false.

End Cloud.
(** ** How the primitives run *)

Lemma bind_run {A B} (m : M A) (k : A → M B) w :
  (m ≫= k) w = match m w with
               | (Resolved a, w') => k a w'
               | (Rejected e, w') => (Rejected e, w')
               end.
Proof. reflexivity. Qed.

Lemma bind_resolved {A B} (m : M A) (k : A → M B) w a w' :
  m w = (Resolved a, w') → (m ≫= k) w = k a w'.
Proof. intros H. rewrite bind_run, H. reflexivity. Qed.

Lemma bind_rejected {A B} (m : M A) (k : A → M B) w e w' :
  m w = (Rejected e, w') → (m ≫= k) w = (Rejected e, w').
Proof. intros H. rewrite bind_run, H. reflexivity. Qed.

Lemma roundtrip_ok e w :
  fault (length (trace w)) = false →
  roundtrip e w = (Resolved tt, with_trace (trace w ++ [e]) w).
Proof. intros H. unfold roundtrip. rewrite bind_run. simpl. rewrite bind_run. simpl. rewrite H. reflexivity. Qed.

Lemma roundtrip_fail e w :
  fault (length (trace w)) = true →
  roundtrip e w = (Rejected "unavailable", with_trace (trace w ++ [e]) w).
Proof. intros H. unfold roundtrip. rewrite bind_run. simpl. rewrite bind_run. simpl. rewrite H. reflexivity. Qed.

Lemma getUserProfile_ok id w :
  db = true → fault (length (trace w)) = false →
  getUserProfile id w =
    (Resolved (JsMap.get id (users w)), with_trace (trace w ++ [GetDoc id]) w).
Proof.
  intros Hdb Hf. unfold getUserProfile, checkFirestore. rewrite Hdb.
  rewrite bind_run. simpl. rewrite bind_run, (roundtrip_ok _ _ Hf). reflexivity.
Qed.

(** ** The cache: [cache_hit], [cleanupCache], [setUser], [getUser] *)

Lemma lookup_swept now c k :
  swept now c !! k =
    match c !! k with
    | Some e => if decide (CACHE_TTL ≤ now - timestamp e)%Z then None else Some e
    | None => None
    end.
Proof.
  unfold swept. destruct (c !! k) as [e|] eqn:Hk.
  - destruct (decide _) as [Hold|Hyoung].
    + apply map_lookup_filter_None. right. intros e' He' HP.
      simpl in HP. rewrite Hk in He'. injection He' as <-. auto.
    + apply map_lookup_filter_Some. auto.
  - apply map_lookup_filter_None. left. exact Hk.
Qed.

Lemma swept_all_young now c :
  (∀ k e, c !! k = Some e → (now - timestamp e < CACHE_TTL)%Z) →
  swept now c = c.
Proof.
  intros H. apply map_filter_id. intros k e Hk. simpl.
  specialize (H k e Hk). lia.
Qed.

Lemma cache_hit_none id w :
  cache w !! id = None → cache_hit id w = (Resolved None, w).
Proof.
  intros H. unfold cache_hit. rewrite bind_run. simpl. rewrite H. reflexivity.
Qed.

Lemma cache_hit_some id w e :
  cache w !! id = Some e →
  cache_hit id w =
    (Resolved (if is_fresh (clock (ticks w)) e then Some (user e) else None),
     with_ticks (S (ticks w)) w).
Proof.
  intros H. unfold cache_hit. rewrite bind_run. simpl. rewrite H. reflexivity.
Qed.

Lemma cleanupCache_run w :
  cleanupCache w =
    (Resolved tt,
     mkWorld (swept (clock (ticks w)) (cache w)) (users w) (posts w)
       (S (ticks w)) (trace w) (detached w)).
Proof. reflexivity. Qed.

Lemma setUser_run id u w :
  setUser id u w = (Resolved tt, after_setUser id u w).
Proof.
  unfold setUser, after_setUser. rewrite bind_run. simpl.
  destruct (decide (MAX_CACHE_SIZE ≤ size (cache w))); reflexivity.
Qed.

Lemma after_setUser_frame id u w :
  users (after_setUser id u w) = users w ∧
  posts (after_setUser id u w) = posts w ∧
  trace (after_setUser id u w) = trace w ∧
  detached (after_setUser id u w) = detached w ∧
  ticks w < ticks (after_setUser id u w) ≤ ticks w + 2.
Proof.
  unfold after_setUser. destruct (decide _); simpl; repeat split; lia.
Qed.

Lemma after_setUser_same id u w :
  ∃ e, cache (after_setUser id u w) !! id = Some e ∧ user e = u ∧
       ∃ i, ticks w ≤ i < ticks (after_setUser id u w) ∧ timestamp e = clock i.
Proof.
  unfold after_setUser. destruct (decide _); simpl; rewrite lookup_insert_eq;
    eexists; (split; [reflexivity|]); (split; [reflexivity|]); simpl.
  - exists (S (ticks w)). split; [lia|reflexivity].
  - exists (ticks w). split; [lia|reflexivity].
Qed.

Lemma after_setUser_other id u w k :
  k ≠ id →
  cache (after_setUser id u w) !! k =
    match cache w !! k with
    | Some e =>
        if decide (MAX_CACHE_SIZE ≤ size (cache w) ∧
                   (CACHE_TTL ≤ clock (ticks w) - timestamp e)%Z)
        then None else Some e
    | None => None
    end.
Proof.
  intros Hne. unfold after_setUser.
  destruct (decide (MAX_CACHE_SIZE ≤ size (cache w))) as [Hfull|Hroom]; simpl.
  - rewrite lookup_insert_ne by congruence. rewrite lookup_swept.
    destruct (cache w !! k) as [e|]; [|reflexivity].
    destruct (decide (CACHE_TTL ≤ _)%Z), (decide (_ ∧ _)); tauto.
  - rewrite lookup_insert_ne by congruence.
    destruct (cache w !! k) as [e|]; [|reflexivity].
    destruct (decide (_ ∧ _)); tauto.
Qed.

(** With every entry young at the next reading the sweep removes nothing,
    so [setUser] only adds its entry. *)
Lemma after_setUser_all_young id u w hi :
  ticks w < hi → all_fresh_until w hi →
  ∃ t, cache (after_setUser id u w) = <[id := mkCacheEntry u t]> (cache w) ∧
       ∃ i, ticks w ≤ i < ticks (after_setUser id u w) ∧ t = clock i.
Proof.
  intros Hhi Hfresh. unfold after_setUser.
  destruct (decide (MAX_CACHE_SIZE ≤ size (cache w))); simpl.
  - rewrite swept_all_young.
    + eexists. split; [reflexivity|]. exists (S (ticks w)). split; [lia|reflexivity].
    + intros k e Hk. apply (Hfresh k e (ticks w) Hk). lia.
  - eexists. split; [reflexivity|]. exists (ticks w). split; [lia|reflexivity].
Qed.

Lemma after_setUser_keeps_fresh id u w hi :
  calm (ticks w) hi → all_fresh_until w hi →
  ticks (after_setUser id u w) ≤ hi →
  all_fresh_until (after_setUser id u w) hi.
Proof.
  intros Hcalm Hfresh Hhi k e i Hk Hi.
  destruct (after_setUser_frame id u w) as (_ & _ & _ & _ & Ht).
  destruct (decide (k = id)) as [->|Hne].
  - destruct (after_setUser_same id u w) as (e' & He' & _ & j & Hj & Hts).
    rewrite He' in Hk. injection Hk as <-. rewrite Hts.
    apply Hcalm; lia.
  - rewrite after_setUser_other in Hk by done.
    destruct (cache w !! k) as [e0|] eqn:Hk0; [|done].
    destruct (decide _); [done|]. injection Hk as <-.
    apply (Hfresh k e0 i Hk0). lia.
Qed.

Lemma setUsers_all_young ins : ∀ w hi,
  NoDup ins.*1 →
  (∀ k, k ∈ ins.*1 → cache w !! k = None) →
  ticks w + 2 * length ins ≤ hi →
  calm (ticks w) hi → all_fresh_until w hi →
  ∃ w', setUsers ins w = (Resolved tt, w') ∧
    size (cache w') = size (cache w) + length ins ∧
    (∀ k e, cache w !! k = Some e → cache w' !! k = Some e) ∧
    (∀ k u, (k, u) ∈ ins → ∃ e, cache w' !! k = Some e ∧ user e = u).
Proof.
  induction ins as [|[id u] ins IH]; intros w hi Hnd Hnew Hhi Hcalm Hfresh.
  - exists w. simpl. repeat split; [lia|auto|]. intros k u Hin. inversion Hin.
  - simpl in Hnd, Hhi. apply NoDup_cons in Hnd as [Hid Hnd].
    destruct (after_setUser_frame id u w) as (_ & _ & _ & _ & Ht).
    destruct (after_setUser_all_young id u w hi) as (t & Hc & _); [lia|done|].
    destruct (IH (after_setUser id u w) hi) as (w' & Hrun & Hsize & Hold & Hins).
    + done.
    + intros k Hk. rewrite Hc, lookup_insert_ne.
      * apply Hnew. simpl. right. done.
      * intros ->. done.
    + lia.
    + intros i j Hi Hj. apply Hcalm; lia.
    + apply after_setUser_keeps_fresh; [done|done|lia].
    + exists w'. split; [|split; [|split]].
      * unfold setUsers in *. simpl. rewrite bind_run, setUser_run. simpl. exact Hrun.
      * rewrite Hsize, Hc, map_size_insert_None; [simpl; lia|].
        apply Hnew. simpl. left.
      * intros k e Hk. apply Hold. rewrite Hc, lookup_insert_ne; [done|].
        intros <-. rewrite Hnew in Hk; [done|]. simpl. left.
      * intros k u' Hin. apply elem_of_cons in Hin as [Heq|Hin].
        -- injection Heq as -> ->. exists (mkCacheEntry u t). split; [|done].
           apply Hold. rewrite Hc. apply lookup_insert_eq.
        -- apply Hins. done.
Qed.

(** A miss of [getUser]: no entry, or one whose age is at or above the
    TTL. *)
Lemma getUser_miss id w :
  db = true → fault (length (trace w)) = false →
  (cache w !! id = None ∨
   ∃ e, cache w !! id = Some e ∧ (CACHE_TTL ≤ clock (ticks w) - timestamp e)%Z) →
  ∃ w1, trace w1 = trace w ++ [GetDoc id] ∧ cache w1 = cache w ∧
        users w1 = users w ∧
    match JsMap.get id (users w) with
    | Some u =>
        ∃ w2, setUser id u w1 = (Resolved tt, w2) ∧
              getUser id w = (Resolved (Some u), w2) ∧
              trace w2 = trace w ++ [GetDoc id] ∧
              ∃ e, cache w2 !! id = Some e ∧ user e = u
    | None => getUser id w = (Resolved None, w1)
    end.
Proof.
  intros Hdb Hfault Hmiss.
  assert (∃ w0, cache_hit id w = (Resolved None, w0) ∧ trace w0 = trace w ∧
                cache w0 = cache w ∧ users w0 = users w) as (w0 & Hhit & Ht & Hc & Hu).
  { destruct Hmiss as [Hnone|(e & He & Hold)].
    - exists w. rewrite cache_hit_none by done. done.
    - exists (with_ticks (S (ticks w)) w). rewrite (cache_hit_some _ _ _ He).
      unfold is_fresh. rewrite bool_decide_eq_false_2 by lia. done. }
  exists (with_trace (trace w0 ++ [GetDoc id]) w0).
  simpl. rewrite Ht. repeat split; [done..|].
  unfold getUser. rewrite bind_run, Hhit, bind_run.
  rewrite getUserProfile_ok by (rewrite ?Ht; done).
  rewrite Hu, Ht. destruct (JsMap.get id (users w)) as [u|]; [|reflexivity].
  eexists. split; [apply setUser_run|]. split; [|split].
  - rewrite bind_run, setUser_run. reflexivity.
  - destruct (after_setUser_frame id u (with_trace (trace w ++ [GetDoc id]) w0))
      as (_ & _ & -> & _). reflexivity.
  - destruct (after_setUser_same id u (with_trace (trace w ++ [GetDoc id]) w0))
      as (e & He & Hue & _). eauto.
Qed.

(** C4.  Freshness of [getUser], lines 13-26 of userCache.ts.  An entry
    whose age at the reading of the clock is below the TTL is returned as
    it is: the world changes by that one clock reading, so no store call
    is made.  When there is no entry, or its age is at or above the TTL,
    one point lookup goes to the store (initialised, and answering this
    request); a profile that is found is put in the cache by [setUser]
    and returned, a missing one gives [null] (here [None]) and leaves the
    cache as it was. *)
Theorem getUser_serves_fresh_entries_else_looks_up (id : string) (w : World) :
  (∀ e, cache w !! id = Some e →
        (clock (ticks w) - timestamp e < CACHE_TTL)%Z →
        getUser id w = (Resolved (Some (user e)), with_ticks (S (ticks w)) w) ∧
        trace (with_ticks (S (ticks w)) w) = trace w)
  ∧
  (db = true → fault (length (trace w)) = false →
   (cache w !! id = None ∨
    ∃ e, cache w !! id = Some e ∧ (CACHE_TTL ≤ clock (ticks w) - timestamp e)%Z) →
   ∃ w1, trace w1 = trace w ++ [GetDoc id] ∧ cache w1 = cache w ∧
         users w1 = users w ∧
     match JsMap.get id (users w) with
     | Some u =>
         ∃ w2, setUser id u w1 = (Resolved tt, w2) ∧
               getUser id w = (Resolved (Some u), w2) ∧
               trace w2 = trace w ++ [GetDoc id] ∧
               ∃ e, cache w2 !! id = Some e ∧ user e = u
     | None => getUser id w = (Resolved None, w1)
     end).
Proof.
  split.
  - intros e He Hage. split; [|reflexivity].
    unfold getUser. rewrite bind_run, (cache_hit_some _ _ _ He).
    unfold is_fresh. rewrite bool_decide_eq_true_2 by done. reflexivity.
  - apply getUser_miss.
Qed.

(** C7.  [setUser], lines 29-54 of userCache.ts, always returns.  Its
    sweep runs only when the map holds [MAX_CACHE_SIZE] entries or more
    and then removes exactly the entries whose age is at or above the
    TTL; every other entry stays, and the entry just written is there.
    Hence pairwise distinct new keys written in immediate succession (all
    clock readings less than the TTL apart, every older entry still
    young) are all kept and the map grows by their number, past
    [MAX_CACHE_SIZE] when there are more than that. *)
Theorem setUser_sweeps_expired_entries_only :
  (∀ id u w, ∃ w',
      setUser id u w = (Resolved tt, w') ∧
      (∃ e, cache w' !! id = Some e ∧ user e = u) ∧
      (∀ k e, k ≠ id → cache w !! k = Some e →
         cache w' !! k =
           if decide (MAX_CACHE_SIZE ≤ size (cache w) ∧
                      (CACHE_TTL ≤ clock (ticks w) - timestamp e)%Z)
           then None else Some e) ∧
      (∀ k, k ≠ id → cache w !! k = None → cache w' !! k = None))
  ∧
  (∀ ins w,
      NoDup ins.*1 →
      (∀ k, k ∈ ins.*1 → cache w !! k = None) →
      calm (ticks w) (ticks w + 2 * length ins) →
      all_fresh_until w (ticks w + 2 * length ins) →
      ∃ w', setUsers ins w = (Resolved tt, w') ∧
        size (cache w') = size (cache w) + length ins ∧
        (MAX_CACHE_SIZE < length ins → MAX_CACHE_SIZE < size (cache w')) ∧
        (∀ k e, cache w !! k = Some e → cache w' !! k = Some e) ∧
        (∀ k u, (k, u) ∈ ins → ∃ e, cache w' !! k = Some e ∧ user e = u)).
Proof.
  split.
  - intros id u w. exists (after_setUser id u w).
    split; [apply setUser_run|]. split; [|split].
    + destruct (after_setUser_same id u w) as (e & He & Hu & _). eauto.
    + intros k e Hne Hk. rewrite after_setUser_other, Hk by done. reflexivity.
    + intros k Hne Hk. rewrite after_setUser_other, Hk by done. reflexivity.
  - intros ins w Hnd Hnew Hcalm Hfresh.
    destruct (setUsers_all_young ins w _ Hnd Hnew (le_n _) Hcalm Hfresh)
      as (w' & Hrun & Hsize & Hold & Hins).
    exists w'. repeat split; [done|done|lia|done|done].
Qed.

(** ** Insertion-ordered maps and the slices of [batchGetUsers] *)

Lemma JsMap_get_set {V} (k k' : string) (v : V) (m : JsMap.t V) :
  JsMap.get k (JsMap.set k' v m) =
    if decide (k = k') then Some v else JsMap.get k m.
Proof.
  induction m as [|[k0 v0] m IH]; simpl.
  - destruct (decide (k = k')); reflexivity.
  - destruct (decide (k' = k0)) as [->|Hne]; simpl.
    + destruct (decide (k = k0)); reflexivity.
    + destruct (decide (k = k0)) as [->|].
      * destruct (decide (k0 = k')); [congruence|reflexivity].
      * exact IH.
Qed.

Lemma JsMap_keys_set {V} (k : string) (v : V) (m : JsMap.t V) :
  ∀ x, x ∈ (JsMap.set k v m).*1 ↔ x = k ∨ x ∈ m.*1.
Proof.
  induction m as [|[k0 v0] m IH]; intros x; simpl.
  - rewrite list_elem_of_singleton, elem_of_nil. tauto.
  - destruct (decide (k = k0)) as [->|Hne]; simpl.
    + rewrite !elem_of_cons. tauto.
    + rewrite !elem_of_cons, IH. tauto.
Qed.

Lemma JsMap_NoDup_set {V} (k : string) (v : V) (m : JsMap.t V) :
  NoDup m.*1 → NoDup (JsMap.set k v m).*1.
Proof.
  induction m as [|[k0 v0] m IH]; simpl; intros Hnd.
  - apply NoDup_singleton.
  - apply NoDup_cons in Hnd as [Hk0 Hnd].
    destruct (decide (k = k0)) as [->|Hne]; simpl.
    + apply NoDup_cons. done.
    + apply NoDup_cons. split; [|auto].
      rewrite JsMap_keys_set. intros [->|]; done.
Qed.

Lemma JsMap_get_None {V} (k : string) (m : JsMap.t V) :
  JsMap.get k m = None ↔ k ∉ m.*1.
Proof.
  induction m as [|[k0 v0] m IH]; simpl.
  - split; [intros _; apply not_elem_of_nil|done].
  - rewrite not_elem_of_cons. destruct (decide (k = k0)); [|tauto].
    split; [done|tauto].
Qed.

Lemma JsMap_get_Some_elem {V} (k : string) (v : V) (m : JsMap.t V) :
  JsMap.get k m = Some v → (k, v) ∈ m.
Proof.
  induction m as [|[k0 v0] m IH]; simpl; [done|].
  destruct (decide (k = k0)) as [->|].
  - intros [= ->]. left.
  - intros H. right. auto.
Qed.

Lemma JsMap_elem_get {V} (k : string) (v : V) (m : JsMap.t V) :
  NoDup m.*1 → (k, v) ∈ m → JsMap.get k m = Some v.
Proof.
  induction m as [|[k0 v0] m IH]; simpl; intros Hnd Hin; [inversion Hin|].
  apply NoDup_cons in Hnd as [Hk0 Hnd].
  apply elem_of_cons in Hin as [[= -> ->]|Hin].
  - rewrite decide_True by done. reflexivity.
  - destruct (decide (k = k0)) as [->|]; [|auto].
    exfalso. apply Hk0. apply list_elem_of_fmap. exists (k0, v). done.
Qed.

(** [for (const [k, v] of l) m.set(k, v)]: with pairwise distinct keys in
    [l] the last write of a key is its only one. *)
Lemma JsMap_get_foldl_set {V} (l : JsMap.t V) : ∀ (m : JsMap.t V) k,
  NoDup l.*1 →
  JsMap.get k (foldl (λ r kv, JsMap.set kv.1 kv.2 r) m l) =
    match JsMap.get k l with
    | Some v => Some v
    | None => JsMap.get k m
    end.
Proof.
  induction l as [|[k0 v0] l IH]; intros m k Hnd; simpl; [done|].
  apply NoDup_cons in Hnd as [Hk0 Hnd]. simpl in Hk0. rewrite IH by done.
  destruct (decide (k = k0)) as [->|Hne].
  - apply JsMap_get_None in Hk0. rewrite Hk0, JsMap_get_set.
    rewrite decide_True by done. reflexivity.
  - rewrite JsMap_get_set, decide_False by done. reflexivity.
Qed.

Lemma elem_of_concat {A} (x : A) (ls : list (list A)) :
  x ∈ concat ls ↔ ∃ l, l ∈ ls ∧ x ∈ l.
Proof.
  induction ls as [|l ls IH]; simpl.
  - split; [intros H; inversion H|intros (l & H & _); inversion H].
  - rewrite elem_of_app, IH. split.
    + intros [H|(l' & H1 & H2)]; [exists l; split; [left|done]|].
      exists l'. split; [right|]; done.
    + intros (l' & H1 & H2). apply elem_of_cons in H1 as [->|H1]; [left; done|].
      right. exists l'. done.
Qed.

Lemma slices_lt uids i :
  i < length uids →
  slices uids i = take FIREBASE_IN_LIMIT (drop i uids) :: slices uids (i + FIREBASE_IN_LIMIT).
Proof.
  intros H. rewrite slices_equation_1.
  destruct (decide (i < length uids)); [reflexivity|lia].
Qed.

Lemma slices_ge uids i : length uids ≤ i → slices uids i = [].
Proof.
  intros H. rewrite slices_equation_1.
  destruct (decide (i < length uids)); [lia|reflexivity].
Qed.

(** The slices, one after the other, are the list again. *)
Lemma concat_slices uids : ∀ n i,
  length uids - i ≤ n → concat (slices uids i) = drop i uids.
Proof.
  induction n as [|n IH]; intros i Hn.
  - rewrite slices_ge, drop_ge by lia. reflexivity.
  - destruct (decide (i < length uids)) as [Hlt|Hge].
    + rewrite slices_lt by done. simpl. rewrite IH by (unfold FIREBASE_IN_LIMIT; lia).
      rewrite <- drop_drop. apply take_drop.
    + rewrite slices_ge, drop_ge by lia. reflexivity.
Qed.

Lemma elem_of_slices uids k :
  k ∈ uids ↔ ∃ batch, batch ∈ slices uids 0 ∧ k ∈ batch.
Proof.
  rewrite <- (drop_0 uids) at 1.
  rewrite <- (concat_slices uids (length uids) 0) by lia.
  apply elem_of_concat.
Qed.

Lemma slices_sizes uids : ∀ n i batch,
  length uids - i ≤ n → batch ∈ slices uids i →
  0 < length batch ≤ FIREBASE_IN_LIMIT.
Proof.
  induction n as [|n IH]; intros i batch Hn Hin.
  - rewrite slices_ge in Hin by lia. inversion Hin.
  - destruct (decide (i < length uids)) as [Hlt|Hge].
    + rewrite slices_lt in Hin by done.
      apply elem_of_cons in Hin as [->|Hin].
      * rewrite length_take, length_drop. unfold FIREBASE_IN_LIMIT. lia.
      * apply (IH (i + FIREBASE_IN_LIMIT)); [unfold FIREBASE_IN_LIMIT; lia|done].
    + rewrite slices_ge in Hin by lia. inversion Hin.
Qed.

(** ** [getUsers]: the three phases *)

Lemma probe_run uids : ∀ acc w,
  for_fold probe_body acc uids w =
    (Resolved (probe (cache w) (ticks w) acc uids).1,
     with_ticks (probe (cache w) (ticks w) acc uids).2 w).
Proof.
  induction uids as [|id uids IH]; intros [result uncached] w; simpl.
  - destruct w; reflexivity.
  - rewrite bind_run. unfold probe_body at 1. rewrite bind_run.
    destruct (cache w !! id) as [e|] eqn:He.
    + rewrite (cache_hit_some _ _ _ He).
      destruct (is_fresh (clock (ticks w)) e); simpl; rewrite IH; reflexivity.
    + rewrite (cache_hit_none _ _ He). simpl. rewrite IH. destruct w; reflexivity.
Qed.

Lemma probe_ticks c uids : ∀ t acc,
  t ≤ (probe c t acc uids).2 ≤ t + length uids.
Proof.
  induction uids as [|id uids IH]; intros t acc; simpl; [lia|].
  destruct (c !! id) as [e|].
  - specialize (IH (S t) (if is_fresh (clock t) e
        then (JsMap.set id (user e) acc.1, acc.2) else (acc.1, acc.2 ++ [id]))). lia.
  - specialize (IH t (acc.1, acc.2 ++ [id])). lia.
Qed.

Lemma batch_loop_run batches : ∀ result w,
  answered_from (length (trace w)) →
  for_fold (λ result batch,
      roundtrip (UsersIn batch) ;;
      w ← get_world;
      ret (foldl (λ r u, JsMap.set (uid u) u r) result (users_in batch (users w))))
    result batches w =
  (Resolved (foldl (λ r u, JsMap.set (uid u) u r) result
               (concat ((λ batch, users_in batch (users w)) <$> batches))),
   with_trace (trace w ++ (UsersIn <$> batches)) w).
Proof.
  induction batches as [|b batches IH]; intros result w Hok; simpl.
  - rewrite app_nil_r. destruct w; reflexivity.
  - rewrite bind_run, bind_run, roundtrip_ok by (apply Hok; lia).
    rewrite bind_run. simpl. rewrite IH.
    + simpl. rewrite foldl_app, <- app_assoc. reflexivity.
    + intros i Hi. apply Hok. simpl in Hi. rewrite length_app in Hi. lia.
Qed.

Lemma batchGetUsers_run uids w :
  db = true → answered_from (length (trace w)) →
  batchGetUsers uids w =
    (Resolved (fetched_of uids (users w)),
     with_trace (trace w ++ (UsersIn <$> slices uids 0)) w).
Proof.
  intros Hdb Hok. unfold batchGetUsers. rewrite Hdb, bind_run. simpl.
  apply batch_loop_run. exact Hok.
Qed.

Lemma fill_run fetched : ∀ result w,
  ∃ w', setUsers fetched w = (Resolved tt, w') ∧
    for_fold fill_body result fetched w =
      (Resolved (foldl (λ r kv, JsMap.set kv.1 kv.2 r) result fetched), w').
Proof.
  induction fetched as [|[id u] fetched IH]; intros result w; simpl.
  - exists w. done.
  - destruct (IH (JsMap.set id u result) (after_setUser id u w)) as (w' & Hset & Hrun).
    exists w'. unfold setUsers in *. simpl.
    rewrite !bind_run, setUser_run. simpl. done.
Qed.

(** [getUsers] as the three phases. *)
Lemma getUsers_run uids w :
  db = true → answered_from (length (trace w)) →
  let '(hits, uncached, t1) := probe (cache w) (ticks w) ([], []) uids in
  let fetched := fetched_of uncached (users w) in
  ∃ w2,
    setUsers fetched
      (with_trace (trace w ++ (UsersIn <$> slices uncached 0)) (with_ticks t1 w))
      = (Resolved tt, w2) ∧
    getUsers uids w =
      (Resolved (foldl (λ r kv, JsMap.set kv.1 kv.2 r) hits fetched), w2).
Proof.
  intros Hdb Hok.
  destruct (probe (cache w) (ticks w) ([], []) uids) as [[hits uncached] t1] eqn:Hp.
  simpl. unfold getUsers. rewrite bind_run.
  change (for_fold _ ([], []) uids w) with (for_fold probe_body ([], []) uids w).
  rewrite probe_run, Hp. simpl.
  destruct uncached as [|id0 uncached].
  - rewrite slices_ge by (simpl; lia). simpl. rewrite app_nil_r.
    exists (with_ticks t1 w). split; [destruct w; reflexivity|reflexivity].
  - rewrite bind_run, batchGetUsers_run by done.
    apply (fill_run (fetched_of (id0 :: uncached) (users w)) hits).
Qed.

(** *** The first loop *)

Lemma probe_verdicts c served uids : ∀ t acc,
  verdicts c served t (length uids) uids →
  (probe c t acc uids).1 =
    (hits_of c served acc.1 uids, acc.2 ++ filter (λ k, served k = false) uids).
Proof.
  induction uids as [|id uids IH]; intros t [hits misses] Hv; simpl.
  - rewrite app_nil_r. reflexivity.
  - assert (Hid := Hv t id ltac:(simpl; lia) ltac:(left)).
    assert (∀ t', t ≤ t' ≤ S t → verdicts c served t' (length uids) uids) as Hrest.
    { intros t' Ht' i k Hi Hk. apply Hv; [simpl; lia|right; done]. }
    destruct (c !! id) as [e|] eqn:He.
    + rewrite IH by (apply Hrest; lia). rewrite <- Hid.
      destruct (served id) eqn:Hs; simpl.
      * rewrite filter_cons_False by (rewrite Hs; done). reflexivity.
      * rewrite filter_cons_True by done. rewrite <- app_assoc. reflexivity.
    + rewrite IH by (apply Hrest; lia). simpl.
      rewrite filter_cons_True by done. rewrite <- app_assoc. reflexivity.
Qed.

Lemma get_hits_of c served uids : ∀ acc k,
  (∀ k, k ∈ uids → c !! k = None → served k = false) →
  JsMap.get k (hits_of c served acc uids) =
    if decide (k ∈ uids ∧ served k = true) then user <$> c !! k
    else JsMap.get k acc.
Proof.
  unfold hits_of.
  induction uids as [|id uids IH]; intros acc k Hnone; simpl.
  - reflexivity.
  - rewrite IH by (intros; apply Hnone; [right|]; done).
    destruct (decide (k ∈ uids ∧ served k = true)) as [[Hin Hs]|Hno].
    + rewrite decide_True; [done|]. split; [right|]; done.
    + destruct (decide (k = id)) as [->|Hne].
      * destruct (c !! id) as [e|] eqn:He.
        -- destruct (served id) eqn:Hs.
           ++ rewrite JsMap_get_set, decide_True by done.
              rewrite decide_True by (split; [left|done]). reflexivity.
           ++ rewrite decide_False by (intros [_ ?]; done). reflexivity.
        -- rewrite decide_False; [done|]. intros [_ Hs].
           rewrite Hnone in Hs; [done|left|done].
      * rewrite decide_False.
        -- destruct (c !! id) as [e|]; [|done].
           destruct (served id); [|done].
           rewrite JsMap_get_set, decide_False by done. reflexivity.
        -- intros [Hin Hs]. apply Hno. split; [|done].
           apply elem_of_cons in Hin as [?|?]; done.
Qed.

(** An id without an entry that some reading of the loop finds fresh is
    queued for the store. *)
Lemma probe_queues c uids k : ∀ t acc,
  k ∈ uids →
  (∀ e i, c !! k = Some e → t ≤ i < t + length uids → is_fresh (clock i) e = false) →
  k ∈ (probe c t acc uids).1.2.
Proof.
  assert (∀ uids t acc, k ∈ acc.2 → k ∈ (probe c t acc uids).1.2) as Hkeep.
  { clear. induction uids as [|id uids IH]; intros t [hits misses] Hin; simpl; [done|].
    destruct (c !! id) as [e|].
    - apply IH. destruct (is_fresh (clock t) e); simpl in *; [done|].
      apply elem_of_app. left. done.
    - apply IH. simpl in *. apply elem_of_app. left. done. }
  induction uids as [|id uids IH]; intros t [hits misses] Hin Hcold; simpl.
  - inversion Hin.
  - apply elem_of_cons in Hin as [->|Hin].
    + destruct (c !! id) as [e|] eqn:He.
      * rewrite (Hcold e t) by (simpl; done || lia).
        apply Hkeep. simpl. apply elem_of_app. right. left.
      * apply Hkeep. simpl. apply elem_of_app. right. left.
    + destruct (c !! id) as [e|] eqn:He.
      * apply IH; [done|]. intros e' i He' Hi. apply Hcold; [done|simpl; lia].
      * apply IH; [done|]. intros e' i He' Hi. apply Hcold; [done|simpl; lia].
Qed.

Lemma probe_subset c uids : ∀ t acc k,
  k ∈ (probe c t acc uids).1.2 → k ∈ acc.2 ∨ k ∈ uids.
Proof.
  induction uids as [|id uids IH]; intros t [hits misses] k Hin; simpl in *; [auto|].
  destruct (c !! id) as [e|].
  - apply IH in Hin as [Hin|Hin]; [|right; right; done].
    destruct (is_fresh (clock t) e); simpl in Hin; [auto|].
    apply elem_of_app in Hin as [?|Hk]; [auto|].
    apply list_elem_of_singleton in Hk as ->. right. left.
  - apply IH in Hin as [Hin|Hin]; [|right; right; done]. simpl in Hin.
    apply elem_of_app in Hin as [?|Hk]; [auto|].
    apply list_elem_of_singleton in Hk as ->. right. left.
Qed.

Lemma probe_length c uids : ∀ t acc,
  length (probe c t acc uids).1.2 ≤ length acc.2 + length uids.
Proof.
  induction uids as [|id uids IH]; intros t [hits misses]; simpl; [lia|].
  destruct (c !! id) as [e|].
  - etransitivity; [apply IH|].
    destruct (is_fresh (clock t) e); simpl; rewrite ?length_app; simpl; lia.
  - etransitivity; [apply IH|]. simpl. rewrite length_app. simpl. lia.
Qed.

(** *** The store queries *)

Lemma fetched_docs_spec uncached us u :
  u ∈ fetched_docs uncached us ↔
    ∃ batch d, batch ∈ slices uncached 0 ∧ d ∈ us ∧ d.2 = u ∧ uid u ∈ batch.
Proof.
  unfold fetched_docs. rewrite elem_of_concat. split.
  - intros (l & Hl & Hu). apply list_elem_of_fmap in Hl as (batch & -> & Hb).
    unfold users_in in Hu. apply list_elem_of_fmap in Hu as (d & -> & Hd).
    apply list_elem_of_filter in Hd as [Hd1 Hd2]. exists batch, d. done.
  - intros (batch & d & Hb & Hd & <- & Hin).
    exists (users_in batch us). split.
    + apply list_elem_of_fmap. exists batch. done.
    + unfold users_in. apply list_elem_of_fmap. exists d. split; [done|].
      apply list_elem_of_filter. done.
Qed.

Lemma foldl_set_uid_keys (docs : list User) : ∀ (acc : JsMap.t User) k,
  k ∈ (foldl (λ r u, JsMap.set (uid u) u r) acc docs).*1 ↔
    k ∈ acc.*1 ∨ k ∈ uid <$> docs.
Proof.
  induction docs as [|d docs IH]; intros acc k; simpl.
  - rewrite elem_of_nil. tauto.
  - rewrite IH, JsMap_keys_set, elem_of_cons. tauto.
Qed.

Lemma foldl_set_uid_NoDup (docs : list User) : ∀ (acc : JsMap.t User),
  NoDup acc.*1 → NoDup (foldl (λ r u, JsMap.set (uid u) u r) acc docs).*1.
Proof.
  induction docs as [|d docs IH]; intros acc Hnd; simpl; [done|].
  apply IH. apply JsMap_NoDup_set. done.
Qed.

Lemma foldl_set_uid_elem (docs : list User) : ∀ (acc : JsMap.t User) k u,
  (k, u) ∈ foldl (λ r u, JsMap.set (uid u) u r) acc docs →
  (k, u) ∈ acc ∨ (u ∈ docs ∧ uid u = k).
Proof.
  assert (∀ (m : JsMap.t User) k' v k u,
    (k, u) ∈ JsMap.set k' v m → (k, u) ∈ m ∨ (k = k' ∧ u = v)) as Hset.
  { induction m as [|[k0 v0] m IH]; intros k' v k u; simpl.
    - intros H. apply list_elem_of_singleton in H as [= -> ->]. auto.
    - destruct (decide (k' = k0)) as [->|Hne]; intros H;
        apply elem_of_cons in H as [H|H].
      + injection H as -> ->. auto.
      + left. right. done.
      + left. rewrite H. left.
      + apply IH in H as [H|H]; [left; right; done|auto]. }
  induction docs as [|d docs IH]; intros acc k u Hin; simpl in *; [auto|].
  apply IH in Hin as [Hin|[Hin Hk]].
  - apply Hset in Hin as [Hin|[-> ->]]; [auto|]. right. split; [left|done].
  - right. split; [right|]; done.
Qed.

Lemma fetched_of_NoDup uncached us : NoDup (fetched_of uncached us).*1.
Proof. apply foldl_set_uid_NoDup. apply NoDup_nil. done. Qed.

Lemma fetched_of_elem uncached us k u :
  (k, u) ∈ fetched_of uncached us →
  uid u = k ∧ ∃ batch d, batch ∈ slices uncached 0 ∧ d ∈ us ∧ d.2 = u ∧ k ∈ batch.
Proof.
  intros Hin. apply foldl_set_uid_elem in Hin as [Hin|[Hin Hk]]; [inversion Hin|].
  split; [done|]. apply fetched_docs_spec in Hin. subst k. done.
Qed.

Lemma wf_users_get us k u :
  wf_users us → (JsMap.get k us = Some u ↔ (k, u) ∈ us).
Proof.
  intros [Hnd _]. split; [apply JsMap_get_Some_elem|apply JsMap_elem_get; done].
Qed.

(** On a well-formed collection the queries bring back, for each queued
    id, the document of that id. *)
Lemma get_fetched_of uncached us k :
  wf_users us →
  JsMap.get k (fetched_of uncached us) =
    if decide (k ∈ uncached) then JsMap.get k us else None.
Proof.
  intros Hwf. destruct (JsMap.get k (fetched_of uncached us)) as [u|] eqn:Hget.
  - apply JsMap_get_Some_elem, fetched_of_elem in Hget
      as (Hk & batch & d & Hb & Hd & <- & Hin).
    rewrite decide_True by (apply elem_of_slices; eauto).
    symmetry. apply wf_users_get; [done|].
    destruct Hwf as [_ Huid]. rewrite <- Hk, (Huid d Hd). destruct d; done.
  - destruct (decide (k ∈ uncached)) as [Hin|]; [|done].
    destruct (JsMap.get k us) as [u|] eqn:Hus; [|done]. exfalso.
    apply JsMap_get_None in Hget. apply Hget.
    apply foldl_set_uid_keys. right.
    apply (wf_users_get _ _ _ Hwf) in Hus.
    apply elem_of_slices in Hin as (batch & Hb & Hin).
    apply list_elem_of_fmap. exists u.
    destruct Hwf as [_ Huid]. specialize (Huid _ Hus). simpl in Huid.
    split; [done|]. apply fetched_docs_spec. exists batch, (k, u).
    rewrite Huid. done.
Qed.


(** *** The second loop *)

Lemma setUsers_frame ins : ∀ w w',
  setUsers ins w = (Resolved tt, w') →
  users w' = users w ∧ posts w' = posts w ∧ trace w' = trace w ∧
  detached w' = detached w ∧ ticks w ≤ ticks w' ≤ ticks w + 2 * length ins.
Proof.
  unfold setUsers.
  induction ins as [|[id u] ins IH]; intros w w' Hrun; simpl in *.
  - injection Hrun as <-. repeat split; lia.
  - rewrite bind_run, setUser_run in Hrun. apply IH in Hrun.
    destruct (after_setUser_frame id u w) as (-> & -> & -> & -> & Ht) in Hrun.
    destruct Hrun as (-> & -> & -> & -> & Ht'). repeat split; lia.
Qed.

Lemma setUsers_resolves ins : ∀ w, ∃ w', setUsers ins w = (Resolved tt, w').
Proof.
  unfold setUsers. induction ins as [|[id u] ins IH]; intros w; simpl.
  - eexists. reflexivity.
  - destruct (IH (after_setUser id u w)) as (w' & Hrun). exists w'.
    rewrite bind_run, setUser_run. exact Hrun.
Qed.

Lemma setUsers_keeps_written lo hi ins : ∀ w w',
  NoDup ins.*1 → lo ≤ ticks w → ticks w + 2 * length ins ≤ hi → calm lo hi →
  setUsers ins w = (Resolved tt, w') →
  ∀ k u, (k, u) ∈ ins ∨ ((k ∉ ins.*1) ∧ written_since lo w k u) →
         written_since lo w' k u.
Proof.
  unfold setUsers.
  induction ins as [|[id u0] ins IH]; intros w w' Hnd Hlo Hhi Hcalm Hrun k u Hk;
    simpl in *.
  - injection Hrun as <-. destruct Hk as [Hk|[_ Hk]]; [inversion Hk|done].
  - apply NoDup_cons in Hnd as [Hid Hnd].
    rewrite bind_run, setUser_run in Hrun.
    destruct (after_setUser_frame id u0 w) as (_ & _ & _ & _ & Ht).
    apply (IH (after_setUser id u0 w) w' Hnd); [lia|lia|done|done|].
    destruct Hk as [Hk|[Hk Hw]].
    + apply elem_of_cons in Hk as [[= -> ->]|Hk]; [|left; done].
      right. split; [done|].
      destruct (after_setUser_same id u0 w) as (e & He & Hu & j & Hj & Hts).
      exists e. split; [done|]. split; [done|]. exists j. split; [lia|done].
    + apply not_elem_of_cons in Hk as [Hne Hk]. right. split; [done|].
      destruct Hw as (e & He & Hu & j & Hj & Hts). exists e.
      split; [|split; [done|exists j; split; [lia|done]]].
      rewrite after_setUser_other, He by done.
      rewrite decide_False; [done|]. intros [_ Hold].
      rewrite Hts in Hold. assert (Hc := Hcalm j (ticks w)). lia.
Qed.

(** [setUser] calls add nothing but what they are given. *)
Lemma setUsers_only ins : ∀ w w' k e,
  setUsers ins w = (Resolved tt, w') → cache w' !! k = Some e →
  cache w !! k = Some e ∨ (k, user e) ∈ ins.
Proof.
  unfold setUsers.
  induction ins as [|[id u0] ins IH]; intros w w' k e Hrun Hk; simpl in *.
  - injection Hrun as <-. auto.
  - rewrite bind_run, setUser_run in Hrun.
    destruct (IH _ _ _ _ Hrun Hk) as [Hin|Hin]; [|right; right; done].
    destruct (decide (k = id)) as [->|Hne].
    + destruct (after_setUser_same id u0 w) as (e' & He' & Hu & _).
      rewrite He' in Hin. injection Hin as <-. right. rewrite Hu. left.
    + rewrite after_setUser_other in Hin by done.
      destruct (cache w !! k) as [e0|]; [|done].
      destruct (decide _); [done|]. auto.
Qed.

(** ** [getUsers] *)

Lemma filter_all {A} (P : A → Prop) `{∀ x, Decision (P x)} (l : list A) :
  (∀ x, x ∈ l → P x) → filter P l = l.
Proof.
  induction l as [|x l IH]; intros HP; [done|].
  rewrite filter_cons_True by (apply HP; left).
  rewrite IH; [done|]. intros y Hy. apply HP. right. done.
Qed.


Lemma fetched_length uncached us : length (fetched_of uncached us) ≤ length uncached.
Proof.
  rewrite <- (length_fmap fst (fetched_of uncached us)).
  apply submseteq_length, NoDup_submseteq; [apply fetched_of_NoDup|].
  intros k Hk. apply list_elem_of_fmap in Hk as ([k' u] & -> & Hin).
  apply fetched_of_elem in Hin as (_ & batch & d & Hb & _ & _ & Hin).
  apply elem_of_slices. eauto.
Qed.

(** The mapping [getUsers] returns, id by id: the cached profile for an
    id the first loop serves, the stored document for an id it queues,
    nothing for an id that was not asked for. *)
Lemma getUsers_lookup uids w served :
  db = true → answered_from (length (trace w)) → wf_users (users w) →
  verdicts (cache w) served (ticks w) (length uids) uids →
  ∃ result w', getUsers uids w = (Resolved result, w') ∧
    (∀ k, JsMap.get k result =
       if decide (k ∈ uids) then
         if served k then user <$> cache w !! k else JsMap.get k (users w)
       else None) ∧
    (calm (ticks w) (ticks w + 3 * length uids) →
     ∀ k u, k ∈ uids → served k = false → JsMap.get k (users w) = Some u →
       ∃ e, cache w' !! k = Some e ∧ user e = u).
Proof.
  intros Hdb Hok Hwf Hv.
  assert (∀ k, k ∈ uids → cache w !! k = None → served k = false) as Hnone.
  { intros k Hk Hc. destruct uids as [|k0 uids]; [inversion Hk|].
    rewrite (Hv (ticks w) k) by (simpl; done || lia). rewrite Hc. done. }
  assert (Hrun := getUsers_run uids w Hdb Hok).
  assert (Ht := probe_ticks (cache w) uids (ticks w) ([], [])).
  assert (Hp := probe_verdicts (cache w) served uids (ticks w) ([], []) Hv).
  destruct (probe (cache w) (ticks w) ([], []) uids) as [[hits uncached] t1].
  simpl in Hp, Ht. injection Hp as -> ->.
  destruct Hrun as (w2 & Hfill & Hrun).
  set (uncached := filter (λ k, served k = false) uids) in *.
  eexists _, w2. split; [exact Hrun|]. split.
  - intros k. rewrite JsMap_get_foldl_set by apply fetched_of_NoDup.
    rewrite get_fetched_of by done. rewrite get_hits_of by done. simpl.
    unfold uncached. destruct (decide (k ∈ uids)) as [Hin|Hout].
    + destruct (served k) eqn:Hs.
      * rewrite decide_False by (rewrite list_elem_of_filter, Hs; intros [? _]; done).
        rewrite decide_True by done. reflexivity.
      * rewrite decide_True by (apply list_elem_of_filter; done).
        rewrite decide_False by (intros [_ ?]; done).
        destruct (JsMap.get k (users w)); reflexivity.
    + rewrite decide_False by (rewrite list_elem_of_filter; tauto).
      rewrite decide_False by tauto. reflexivity.
  - intros Hcalm k u Hin Hs Hu.
    assert (Hlen := fetched_length uncached (users w)).
    assert (length uncached ≤ length uids) as Hlen' by apply length_filter.
    assert (Hkeep := λ H1 H2 H3 H4,
      setUsers_keeps_written t1 (ticks w + 3 * length uids) _ _ _
        H1 H2 H3 H4 Hfill k u).
    edestruct Hkeep as (e & He & Hue & _); [..|eauto].
    + apply fetched_of_NoDup.
    + simpl. lia.
    + simpl. lia.
    + intros i j Hi Hj. apply Hcalm; lia.
    + left. apply JsMap_get_Some_elem. rewrite get_fetched_of by done.
      rewrite decide_True by (apply list_elem_of_filter; done). done.
Qed.

(** C5, as amended.  [getUsers], lines 57-81 of userCache.ts, with
    [batchGetUsers], lines 84-116, on an initialised store that answers
    and whose documents carry their own id.  An id is served from the
    cache when its entry is fresh at the reading [now] of the clock (the
    first loop takes no other verdict), and is looked up in the store
    otherwise.  The mapping returned holds the cached profile for the
    former and the stored profile, if any, for the latter, so its keys are
    exactly the requested ids that are fresh in the cache or present in the
    store, and a missing profile is no error.  When every fresh entry is
    the profile the store holds, the mapping is the store restricted to
    the requested ids, whatever the cache contains.  The profiles brought
    back from the store are in the cache afterwards when the clock
    readings of the call lie less than the TTL apart. *)
Theorem getUsers_returns_resolved_ids (uids : list string) (w : World) (now : Z) :
  db = true → answered_from (length (trace w)) → wf_users (users w) →
  (∀ i k e, ticks w ≤ i < ticks w + length uids → k ∈ uids →
     cache w !! k = Some e → is_fresh (clock i) e = is_fresh now e) →
  ∃ result w', getUsers uids w = (Resolved result, w') ∧
    (∀ k, JsMap.get k result =
       if decide (k ∈ uids) then
         if fresh_in now (cache w) k then user <$> cache w !! k
         else JsMap.get k (users w)
       else None) ∧
    (∀ k, is_Some (JsMap.get k result) ↔
       k ∈ uids ∧ (fresh_in now (cache w) k = true ∨ is_Some (JsMap.get k (users w)))) ∧
    (coherent now w →
     ∀ k, JsMap.get k result =
       if decide (k ∈ uids) then JsMap.get k (users w) else None) ∧
    (calm (ticks w) (ticks w + 3 * length uids) →
     ∀ k u, k ∈ uids → fresh_in now (cache w) k = false →
       JsMap.get k (users w) = Some u →
       ∃ e, cache w' !! k = Some e ∧ user e = u).
Proof.
  intros Hdb Hok Hwf Hstable.
  destruct (getUsers_lookup uids w (fresh_in now (cache w)) Hdb Hok Hwf)
    as (result & w' & Hrun & Hget & Hfill).
  { intros i k Hi Hk. unfold fresh_in.
    destruct (cache w !! k) as [e|] eqn:He; [|done]. symmetry. eauto. }
  exists result, w'. split; [done|]. split; [done|]. split; [|split; [|done]].
  - intros k. rewrite Hget. unfold fresh_in.
    destruct (decide (k ∈ uids)) as [Hin|Hout].
    + destruct (cache w !! k) as [e0|]; simpl.
      * destruct (is_fresh now e0); simpl.
        -- split; [auto|]. intros _. eexists. done.
        -- split; [auto|]. intros [_ [?|?]]; done.
      * split; [auto|]. intros [_ [?|?]]; done.
    + split; [intros [? ?]; done|tauto].
  - intros Hco k. rewrite Hget. destruct (decide (k ∈ uids)) as [Hin|]; [|done].
    unfold fresh_in. destruct (cache w !! k) as [e|] eqn:He; [|done].
    destruct (is_fresh now e) eqn:Hf; [|done]. simpl.
    symmetry. apply Hco; done.
Qed.


(** ** Absent profiles *)

Lemma cold_cache_hit w k :
  cold w k →
  ∃ w', cache_hit k w = (Resolved None, w') ∧ cache w' = cache w ∧
        users w' = users w ∧ trace w' = trace w ∧ ticks w ≤ ticks w'.
Proof.
  intros Hcold. destruct (cache w !! k) as [e|] eqn:He.
  - exists (with_ticks (S (ticks w)) w). rewrite (cache_hit_some _ _ _ He).
    rewrite (Hcold e (ticks w) He) by done. simpl. repeat split. lia.
  - exists w. rewrite (cache_hit_none _ _ He). done.
Qed.

Lemma getUser_absent id w :
  db = true → answered_from (length (trace w)) → absent (users w) id → cold w id →
  ∃ w', getUser id w = (Resolved None, w') ∧ cache w' = cache w ∧
        users w' = users w ∧ trace w' = trace w ++ [GetDoc id] ∧
        ticks w ≤ ticks w'.
Proof.
  intros Hdb Hok [Habs _] Hcold.
  destruct (cold_cache_hit w id Hcold) as (w0 & Hhit & Hc & Hu & Ht & Hticks).
  exists (with_trace (trace w0 ++ [GetDoc id]) w0).
  unfold getUser. rewrite bind_run, Hhit, bind_run.
  rewrite getUserProfile_ok by (done || (rewrite Ht; apply Hok; done)).
  rewrite Hu, Habs. simpl. rewrite Ht. done.
Qed.

Lemma getUser_absent_again id n : ∀ w,
  db = true → answered_from (length (trace w)) → absent (users w) id → cold w id →
  ∃ w', again n (getUser id) w = (Resolved (replicate n None), w') ∧
        cache w' = cache w ∧ trace w' = trace w ++ replicate n (GetDoc id).
Proof.
  induction n as [|n IH]; intros w Hdb Hok Habs Hcold; simpl.
  - exists w. rewrite app_nil_r. done.
  - destruct (getUser_absent id w Hdb Hok Habs Hcold)
      as (w1 & Hrun & Hc & Hu & Ht & Hticks).
    destruct (IH w1) as (w' & Hrun' & Hc' & Ht').
    + done.
    + intros i Hi. apply Hok. rewrite Ht, length_app in Hi. lia.
    + rewrite Hu. done.
    + intros e i He Hi. rewrite Hc in He. apply (Hcold e i He). lia.
    + exists w'. rewrite bind_run, Hrun, bind_run, Hrun'. simpl.
      rewrite Hc', Hc, Ht', Ht, <- app_assoc. done.
Qed.

(** What the first loop serves was fresh at one of its readings. *)
Lemma probe_hits_sound c uids : ∀ t acc k u,
  JsMap.get k (probe c t acc uids).1.1 = Some u →
  JsMap.get k acc.1 = Some u ∨
  ∃ e i, c !! k = Some e ∧ t ≤ i ∧ is_fresh (clock i) e = true.
Proof.
  induction uids as [|id uids IH]; intros t [hits misses] k u Hget; simpl in *; [auto|].
  destruct (c !! id) as [e|] eqn:He.
  - apply IH in Hget as [Hget|(e' & i & He' & Hi & Hf)].
    + destruct (is_fresh (clock t) e) eqn:Hf; simpl in Hget; [|auto].
      rewrite JsMap_get_set in Hget. destruct (decide (k = id)) as [->|]; [|auto].
      right. exists e, t. done.
    + right. exists e', i. split; [done|]. split; [lia|done].
  - apply IH in Hget as [Hget|(e' & i & He' & Hi & Hf)]; [auto|].
    right. exists e', i. done.
Qed.

(** C10, as amended.  Absence is never cached (lines 20-26 and 72-78 of
    userCache.ts).  For an id with no profile in the store and no fresh
    entry in the cache, [getUser] sends a point lookup, returns [null]
    (here [None]) and leaves the cache map as it was, so the next call
    finds the same situation: [n] calls in a row send [n] lookups.  A [getUsers] call
    that lists the id queries the store for it again, returns no entry for
    it and does not put one in the cache.  And whatever [getUsers] leaves
    in the cache was there before or is a document that one of its queries
    brought back. *)
Theorem absence_is_never_cached (id : string) (w : World) :
  db = true → answered_from (length (trace w)) →
  absent (users w) id → cold w id →
  (∃ w', getUser id w = (Resolved None, w') ∧ cache w' = cache w ∧
         trace w' = trace w ++ [GetDoc id] ∧
         users w' = users w ∧ cold w' id ∧ answered_from (length (trace w')))
  ∧
  (∀ n, ∃ w', again n (getUser id) w = (Resolved (replicate n None), w') ∧
         cache w' = cache w ∧ trace w' = trace w ++ replicate n (GetDoc id))
  ∧
  (∀ uids, id ∈ uids →
     ∃ result w' queries,
       getUsers uids w = (Resolved result, w') ∧
       trace w' = trace w ++ (UsersIn <$> queries) ∧
       (∃ batch, batch ∈ queries ∧ id ∈ batch) ∧
       JsMap.get id result = None ∧
       (∀ e, cache w' !! id = Some e → cache w !! id = Some e))
  ∧
  (∀ uids, ∃ result w' queries,
     getUsers uids w = (Resolved result, w') ∧
     trace w' = trace w ++ (UsersIn <$> queries) ∧
     ∀ k e, cache w' !! k = Some e →
       cache w !! k = Some e ∨
       ∃ batch d, batch ∈ queries ∧ k ∈ batch ∧ d ∈ users w ∧
                  d.2 = user e ∧ uid (user e) = k).
Proof.
  intros Hdb Hok Habs Hcold. split; [|split; [|split]].
  - destruct (getUser_absent id w Hdb Hok Habs Hcold)
      as (w' & Hrun & Hc & Hu & Ht & Hticks).
    exists w'. repeat split; try done.
    + intros e i He Hi. rewrite Hc in He. apply (Hcold e i He). lia.
    + intros i Hi. apply Hok. rewrite Ht, length_app in Hi. lia.
  - intros n. apply getUser_absent_again; done.
  - intros uids Hin.
    assert (Hrun := getUsers_run uids w Hdb Hok).
    assert (Hq := probe_queues (cache w) uids id (ticks w) ([], []) Hin).
    assert (Hs := probe_hits_sound (cache w) uids (ticks w) ([], []) id).
    destruct (probe (cache w) (ticks w) ([], []) uids) as [[hits uncached] t1].
    simpl in *. destruct Hrun as (w2 & Hfill & Hrun).
    assert (JsMap.get id (fetched_of uncached (users w)) = None) as Hnone.
    { destruct (JsMap.get id (fetched_of uncached (users w))) as [u|] eqn:Hget; [|done].
      apply JsMap_get_Some_elem, fetched_of_elem in Hget as (Hu & _ & d & _ & Hd & <- & _).
      destruct Habs as [_ Habs]. destruct (Habs d Hd Hu). }
    eexists _, w2, (slices uncached 0). split; [exact Hrun|].
    destruct (setUsers_frame _ _ _ Hfill) as (_ & _ & Ht & _). simpl in Ht.
    split; [done|]. split; [|split].
    + apply elem_of_slices. apply Hq. intros e i He Hi. apply (Hcold e i He). lia.
    + rewrite JsMap_get_foldl_set by apply fetched_of_NoDup. rewrite Hnone.
      destruct (JsMap.get id hits) as [u|] eqn:Hget; [|done].
      destruct (Hs u eq_refl) as [Hacc|(e & i & He & Hi & Hf)]; [done|].
      rewrite (Hcold e i He Hi) in Hf. done.
    + intros e He. destruct (setUsers_only _ _ _ _ _ Hfill He) as [Hold|Hnew]; [done|].
      apply JsMap_elem_get in Hnew; [|apply fetched_of_NoDup].
      rewrite Hnone in Hnew. done.
  - intros uids. assert (Hrun := getUsers_run uids w Hdb Hok).
    destruct (probe (cache w) (ticks w) ([], []) uids) as [[hits uncached] t1].
    simpl in *. destruct Hrun as (w2 & Hfill & Hrun).
    eexists _, w2, (slices uncached 0). split; [exact Hrun|].
    destruct (setUsers_frame _ _ _ Hfill) as (_ & _ & Ht & _). simpl in Ht.
    split; [done|]. intros k e He.
    destruct (setUsers_only _ _ _ _ _ Hfill He) as [Hold|Hnew]; [left; done|].
    right. apply fetched_of_elem in Hnew as (Hu & batch & d & Hb & Hd & Hdu & Hk).
    exists batch, d. done.
Qed.

(** ** Enrichment *)

Lemma reads_only_same {A} (m : M A) :
  (∀ w, users (m w).2 = users w ∧ posts (m w).2 = posts w ∧
        detached (m w).2 = detached w ∧ trace (m w).2 = trace w) →
  reads_only m.
Proof.
  intros H w. destruct (H w) as (-> & -> & -> & ->). repeat split.
  exists []. rewrite app_nil_r. split; [done|constructor].
Qed.

Lemma reads_only_ret {A} (a : A) : reads_only (ret a).
Proof. apply reads_only_same. done. Qed.

Lemma reads_only_throw {A} e : reads_only (@throw A e).
Proof. apply reads_only_same. done. Qed.

Lemma reads_only_bind {A B} (m : M A) (k : A → M B) :
  reads_only m → (∀ a, reads_only (k a)) → reads_only (m ≫= k).
Proof.
  intros Hm Hk w. rewrite bind_run. specialize (Hm w).
  destruct (m w) as [[a|e] w1]; simpl in *; [|done].
  destruct Hm as (<- & <- & <- & evs & Ht & Hq).
  destruct (Hk a w1) as (-> & -> & -> & evs' & -> & Hq'). repeat split.
  exists (evs ++ evs'). rewrite Ht, app_assoc. split; [done|].
  apply Forall_app. done.
Qed.

Lemma reads_only_for_fold {A S} (body : S → A → M S) (xs : list A) :
  (∀ s x, reads_only (body s x)) → ∀ s, reads_only (for_fold body s xs).
Proof.
  intros Hbody. induction xs as [|x xs IH]; intros s; simpl.
  - apply reads_only_ret.
  - apply reads_only_bind; [apply Hbody|apply IH].
Qed.

Lemma reads_only_cache_hit id : reads_only (cache_hit id).
Proof.
  apply reads_only_same. intros w. unfold cache_hit. rewrite bind_run. simpl.
  destruct (cache w !! id); done.
Qed.

Lemma reads_only_setUser id u : reads_only (setUser id u).
Proof.
  apply reads_only_same. intros w. rewrite setUser_run. simpl.
  destruct (after_setUser_frame id u w) as (-> & -> & -> & -> & _). done.
Qed.

Lemma reads_only_query batch : reads_only (roundtrip (UsersIn batch)).
Proof.
  intros w. unfold roundtrip. rewrite bind_run. simpl. rewrite bind_run. simpl.
  assert (Forall is_query [UsersIn batch]) by (repeat constructor; eexists; done).
  destruct (fault (length (trace w))); simpl; repeat split; eauto.
Qed.

Lemma reads_only_get_world : reads_only get_world.
Proof. apply reads_only_same. done. Qed.

Lemma reads_only_batchGetUsers uids : reads_only (batchGetUsers uids).
Proof.
  unfold batchGetUsers. apply reads_only_bind.
  - destruct db; [apply reads_only_ret|apply reads_only_throw].
  - intros _. apply reads_only_for_fold. intros result batch.
    apply reads_only_bind; [apply reads_only_query|]. intros _.
    apply reads_only_bind; [apply reads_only_get_world|]. intros w.
    apply reads_only_ret.
Qed.

Lemma reads_only_getUsers uids : reads_only (getUsers uids).
Proof.
  unfold getUsers. apply reads_only_bind.
  - apply reads_only_for_fold. intros [result uncached] id.
    apply reads_only_bind; [apply reads_only_cache_hit|].
    intros [u|]; apply reads_only_ret.
  - intros [result [|id0 uncached]]; [apply reads_only_ret|].
    apply reads_only_bind; [apply reads_only_batchGetUsers|]. intros fetched.
    apply reads_only_for_fold. intros r [id u].
    apply reads_only_bind; [apply reads_only_setUser|]. intros _.
    apply reads_only_ret.
Qed.

Lemma getUsers_resolves uids w :
  db = true → answered_from (length (trace w)) →
  ∃ result w', getUsers uids w = (Resolved result, w').
Proof.
  intros Hdb Hok. assert (Hrun := getUsers_run uids w Hdb Hok).
  destruct (probe (cache w) (ticks w) ([], []) uids) as [[hits uncached] t1].
  destruct Hrun as (w2 & _ & Hrun). eauto.
Qed.

Lemma enrich_comment_spec us c :
  same_comment_data c (enrich_comment us c) ∧
  author_fields us (comment_authorId c)
    (comment_authorName c) (comment_authorPhotoURL c)
    (comment_authorName (enrich_comment us c))
    (comment_authorPhotoURL (enrich_comment us c)).
Proof.
  unfold enrich_comment, author_fields, same_comment_data.
  destruct (JsMap.get (comment_authorId c) us); simpl; done.
Qed.

Lemma enrich_post_spec us p :
  same_post_data p (enrich_post us p) ∧
  author_fields us (post_authorId p)
    (post_authorName p) (post_authorPhotoURL p)
    (post_authorName (enrich_post us p))
    (post_authorPhotoURL (enrich_post us p)) ∧
  post_comments (enrich_post us p) =
    (λ cs : list Comment, enrich_comment us <$> cs) <$> post_comments p.
Proof.
  unfold enrich_post, author_fields, same_post_data.
  destruct (JsMap.get (post_authorId p) us); simpl; done.
Qed.

Lemma elem_of_set_add x y s : x ∈ set_add y s ↔ x = y ∨ x ∈ s.
Proof.
  unfold set_add. destruct (decide (y ∈ s)) as [Hin|Hout].
  - split; [auto|]. intros [->|]; done.
  - rewrite elem_of_app, list_elem_of_singleton. tauto.
Qed.

Lemma authorIds_comments_acc cs : ∀ ids x,
  x ∈ foldl (λ ids c, set_add (comment_authorId c) ids) ids cs ↔
    x ∈ ids ∨ x ∈ comment_authorId <$> cs.
Proof.
  induction cs as [|c cs IH]; intros ids x; simpl.
  - rewrite elem_of_nil. tauto.
  - rewrite IH, elem_of_set_add, elem_of_cons. tauto.
Qed.

Lemma authorIds_acc ps : ∀ ids x,
  x ∈ foldl (λ ids post,
        foldl (λ ids c, set_add (comment_authorId c) ids)
          (set_add (post_authorId post) ids)
          (default [] (post_comments post))) ids ps ↔
    x ∈ ids ∨ ∃ p, p ∈ ps ∧
      (x = post_authorId p ∨ x ∈ comment_authorId <$> default [] (post_comments p)).
Proof.
  induction ps as [|q ps IH]; intros ids x; simpl.
  - split; [auto|]. intros [?|(p & Hp & _)]; [done|inversion Hp].
  - rewrite IH, authorIds_comments_acc, elem_of_set_add. split.
    + intros [[[->|?]|?]|(p & Hp & Hx)]; [right|auto|right|right].
      * exists q. split; [left|auto].
      * exists q. split; [left|auto].
      * exists p. split; [right|]; done.
    + intros [?|(p & Hp & Hx)]; [auto|].
      apply elem_of_cons in Hp as [->|Hp]; [|right; eauto].
      left. destruct Hx; auto.
Qed.

Lemma elem_of_authorIds ps x :
  x ∈ authorIds ps ↔
    ∃ p, p ∈ ps ∧
      (x = post_authorId p ∨ x ∈ comment_authorId <$> default [] (post_comments p)).
Proof.
  unfold authorIds. rewrite authorIds_acc, elem_of_nil. tauto.
Qed.

(** C8.  [enrichPostsWithUserData] (firebaseUtils.ts), whatever its
    outcome, leaves both collections as they were and sends nothing but
    the "uid in" queries of [getUsers].  On an initialised store that
    answers it resolves.  When it resolves, with [us] the mapping that
    [getUsers] returned for the author ids, the result has one post per
    input post, in the same order, with every field other than
    [authorName] and [authorPhotoURL] as in the input; these two are the
    profile's [displayName] and [photoURL] when [us] holds the author id
    and the input's otherwise.  The same is true, comment by comment and
    in the same order, of the comments of each post.  The ids it asks
    [getUsers] for are the authors of the posts and of their comments,
    all of them and no others.  So, on an initialised store that answers
    and whose documents carry their id, every post and every comment
    shows the name and photo of the profile its author resolves to -- the
    cached profile when the entry of the author is fresh, the stored one
    otherwise -- and the persisted name and photo when there is neither.
    The input is a value of the model and the result is built anew, as
    the source builds new objects with spread syntax and [map]. *)
Theorem enrich_overwrites_resolved_author_fields_only (ps : list Post) (w : World) :
  (users (enrichPostsWithUserData ps w).2 = users w ∧
   posts (enrichPostsWithUserData ps w).2 = posts w ∧
   ∃ evs, trace (enrichPostsWithUserData ps w).2 = trace w ++ evs ∧
          Forall is_query evs)
  ∧
  (db = true → answered_from (length (trace w)) →
   ∃ ps' w', enrichPostsWithUserData ps w = (Resolved ps', w'))
  ∧
  (∀ ps' w', enrichPostsWithUserData ps w = (Resolved ps', w') →
   ∃ us, getUsers (authorIds ps) w = (Resolved us, w') ∧
     length ps' = length ps ∧
     ∀ i p, ps !! i = Some p →
       ∃ p', ps' !! i = Some p' ∧
         same_post_data p p' ∧
         author_fields us (post_authorId p)
           (post_authorName p) (post_authorPhotoURL p)
           (post_authorName p') (post_authorPhotoURL p') ∧
         match post_comments p with
         | None => post_comments p' = None
         | Some cs =>
             ∃ cs', post_comments p' = Some cs' ∧ length cs' = length cs ∧
               ∀ j c, cs !! j = Some c →
                 ∃ c', cs' !! j = Some c' ∧
                   same_comment_data c c' ∧
                   author_fields us (comment_authorId c)
                     (comment_authorName c) (comment_authorPhotoURL c)
                     (comment_authorName c') (comment_authorPhotoURL c')
         end)
  ∧
  (∀ x, x ∈ authorIds ps ↔
     ∃ p, p ∈ ps ∧
       (x = post_authorId p ∨
        ∃ c, c ∈ default [] (post_comments p) ∧ x = comment_authorId c))
  ∧
  (∀ now, db = true → answered_from (length (trace w)) → wf_users (users w) →
   (∀ i k e, ticks w ≤ i < ticks w + length (authorIds ps) → k ∈ authorIds ps →
      cache w !! k = Some e → is_fresh (clock i) e = is_fresh now e) →
   ∃ ps' w', enrichPostsWithUserData ps w = (Resolved ps', w') ∧
     ∀ i p, ps !! i = Some p →
       ∃ p', ps' !! i = Some p' ∧
         shown (resolved now w (post_authorId p))
           (post_authorName p) (post_authorPhotoURL p)
           (post_authorName p') (post_authorPhotoURL p') ∧
         ∀ j c, default [] (post_comments p) !! j = Some c →
           ∃ c', default [] (post_comments p') !! j = Some c' ∧
             shown (resolved now w (comment_authorId c))
               (comment_authorName c) (comment_authorPhotoURL c)
               (comment_authorName c') (comment_authorPhotoURL c')).
Proof.
  split; [|split; [|split; [|split]]].
  - assert (reads_only (enrichPostsWithUserData ps)) as Hro.
    { unfold enrichPostsWithUserData. apply reads_only_bind.
      - apply reads_only_getUsers.
      - intros us. apply reads_only_ret. }
    destruct (Hro w) as (Hu & Hp & _ & Ht). done.
  - intros Hdb Hok. destruct (getUsers_resolves (authorIds ps) w Hdb Hok)
      as (us & w' & Hrun).
    exists (enrich_post us <$> ps), w'. unfold enrichPostsWithUserData.
    rewrite bind_run, Hrun. reflexivity.
  - intros ps' w'. unfold enrichPostsWithUserData. rewrite bind_run.
    destruct (getUsers (authorIds ps) w) as [[us|e] w1]; [|done].
    intros [= <- <-]. exists us. split; [done|]. split; [apply length_fmap|].
    intros i p Hi. exists (enrich_post us p).
    split; [rewrite list_lookup_fmap, Hi; done|].
    destruct (enrich_post_spec us p) as (Hsame & Hauth & Hcs).
    split; [done|]. split; [done|]. rewrite Hcs.
    destruct (post_comments p) as [cs|]; simpl; [|done].
    exists (enrich_comment us <$> cs). split; [done|]. split; [apply length_fmap|].
    intros j c Hj. exists (enrich_comment us c).
    split; [rewrite list_lookup_fmap, Hj; done|]. apply enrich_comment_spec.
  - intros x. rewrite elem_of_authorIds. split.
    + intros (p & Hp & [Hx|Hx]); exists p; (split; [done|]); [left; done|right].
      apply list_elem_of_fmap in Hx as (c & -> & Hc). eauto.
    + intros (p & Hp & [Hx|(c & Hc & Hx)]); exists p; (split; [done|]);
        [left; done|right].
      apply list_elem_of_fmap. eauto.
  - intros now Hdb Hok Hwf Hstable.
    destruct (getUsers_lookup (authorIds ps) w (fresh_in now (cache w)) Hdb Hok Hwf)
      as (us & w' & Hrun & Hget & _).
    { intros i k Hi Hk. unfold fresh_in.
      destruct (cache w !! k) as [e|] eqn:He; [|done]. symmetry. eauto. }
    assert (∀ a, a ∈ authorIds ps → JsMap.get a us = resolved now w a) as Hus.
    { intros a Ha. rewrite Hget, decide_True by done. reflexivity. }
    exists (enrich_post us <$> ps), w'.
    split; [unfold enrichPostsWithUserData; rewrite bind_run, Hrun; reflexivity|].
    intros i p Hi. exists (enrich_post us p).
    split; [rewrite list_lookup_fmap, Hi; done|].
    assert (p ∈ ps) as Hp by (apply list_elem_of_lookup; eauto). split.
    + rewrite <- Hus by (apply elem_of_authorIds; exists p; auto).
      unfold enrich_post, shown.
      destruct (JsMap.get (post_authorId p) us); simpl; done.
    + intros j c Hj. destruct (enrich_post_spec us p) as (_ & _ & ->).
      destruct (post_comments p) as [cs|] eqn:Hcs; simpl in *; [|done].
      exists (enrich_comment us c). split; [rewrite list_lookup_fmap, Hj; done|].
      rewrite <- Hus.
      * unfold enrich_comment, shown.
        destruct (JsMap.get (comment_authorId c) us); simpl; done.
      * apply elem_of_authorIds. exists p. split; [done|]. right. rewrite Hcs. simpl.
        apply list_elem_of_fmap. exists c. split; [done|].
        apply list_elem_of_lookup. eauto.
Qed.

(** ** Profile update and the detached repair *)

Ltac mred :=
  cbv beta iota zeta delta
    [mbind M_bind bind ret throw get_world modify emit roundtrip Date_now
     checkFirestore getUserProfile invalidateUser detach catch].

Lemma preserves_ret {A B} (f : World → B) (a : A) : preserves f (ret a).
Proof. done. Qed.

Lemma preserves_throw {A B} (f : World → B) e : preserves f (@throw A e).
Proof. done. Qed.

Lemma preserves_bind {A B C} (f : World → C) (m : M A) (k : A → M B) :
  preserves f m → (∀ a, preserves f (k a)) → preserves f (m ≫= k).
Proof.
  intros Hm Hk w. rewrite bind_run. specialize (Hm w).
  destruct (m w) as [[a|e] w1]; simpl in *; [|done].
  rewrite Hk. done.
Qed.

Lemma preserves_for_fold {A S C} (f : World → C) (body : S → A → M S) xs :
  (∀ s x, preserves f (body s x)) → ∀ s, preserves f (for_fold body s xs).
Proof.
  intros Hbody. induction xs as [|x xs IH]; intros s; simpl.
  - apply preserves_ret.
  - apply preserves_bind; [apply Hbody|apply IH].
Qed.

Lemma preserves_roundtrip {C} (f : World → C) e :
  (∀ t w, f (with_trace t w) = f w) → preserves f (roundtrip e).
Proof.
  intros Hf w. unfold roundtrip. rewrite bind_run. simpl. rewrite bind_run. simpl.
  destruct (fault (length (trace w))); simpl; apply Hf.
Qed.

Lemma preserves_batch_update {C} (f : World → C) op b :
  preserves f (batch_update op b).
Proof. unfold batch_update. destruct (committed b); done. Qed.

Lemma preserves_batch_commit {C} (f : World → C) b :
  (∀ t w, f (with_trace t w) = f w) → (∀ p w, f (with_posts p w) = f w) →
  preserves f (batch_commit b).
Proof.
  intros Ht Hp. unfold batch_commit. destruct (committed b); [done|].
  destruct (mutations b) as [|op ops]; [done|].
  apply preserves_bind; [apply preserves_roundtrip; done|]. intros _.
  apply preserves_bind; [|done]. intros w. simpl. apply Hp.
Qed.

(** The repair leaves alone whatever neither the trace, the posts, the
    clock nor the cache feeds. *)
Lemma preserves_repair {C} (f : World → C) id name photo :
  (∀ t w, f (with_trace t w) = f w) → (∀ p w, f (with_posts p w) = f w) →
  (∀ n w, f (with_ticks n w) = f w) → (∀ c w, f (with_cache c w) = f w) →
  preserves f (updateUserContentReferences id name photo).
Proof.
  intros Ht Hp Hn Hc. unfold updateUserContentReferences.
  apply preserves_bind; [destruct db; done|]. intros _.
  apply preserves_bind; [apply preserves_roundtrip; done|]. intros _.
  apply preserves_bind; [done|]. intros w0.
  apply preserves_bind.
  - apply preserves_for_fold. intros [batch n] postDoc.
    apply preserves_bind; [intros w; apply Hn|]. intros now.
    apply preserves_bind; [apply preserves_batch_update|]. intros b1.
    apply preserves_bind.
    + destruct (post_comments postDoc); [apply preserves_batch_update|done].
    + intros b2. destruct (decide _); [|done].
      apply preserves_bind; [apply preserves_batch_commit; done|]. done.
  - intros [batch n]. apply preserves_bind.
    + destruct (decide _); [|done].
      apply preserves_bind; [apply preserves_batch_commit; done|]. done.
    + intros _ w. apply Hc.
Qed.

Lemma ends_invalidating_bind {A B} id (m : M A) (k : A → M B) :
  preserves cache m → (∀ a, ends_invalidating id (k a)) →
  ends_invalidating id (m ≫= k).
Proof.
  intros Hm Hk w. rewrite bind_run. specialize (Hm w).
  destruct (m w) as [[a|e] w1]; simpl in *; [|done].
  specialize (Hk a w1). rewrite Hm in Hk. exact Hk.
Qed.

Lemma repair_ends_invalidating id name photo :
  ends_invalidating id (updateUserContentReferences id name photo).
Proof.
  unfold updateUserContentReferences.
  apply ends_invalidating_bind; [destruct db; done|]. intros _.
  apply ends_invalidating_bind; [apply preserves_roundtrip; done|]. intros _.
  apply ends_invalidating_bind; [done|]. intros w0.
  apply ends_invalidating_bind.
  - apply preserves_for_fold. intros [batch n] postDoc.
    apply preserves_bind; [done|]. intros now.
    apply preserves_bind; [apply preserves_batch_update|]. intros b1.
    apply preserves_bind.
    + destruct (post_comments postDoc); [apply preserves_batch_update|done].
    + intros b2. destruct (decide _); [|done].
      apply preserves_bind; [apply preserves_batch_commit; done|]. done.
  - intros [batch n]. apply ends_invalidating_bind.
    + destruct (decide _); [|done].
      apply preserves_bind; [apply preserves_batch_commit; done|]. done.
    + intros _ w. reflexivity.
Qed.

Lemma get_update_doc id f us k :
  JsMap.get k (update_doc id f us) =
    if decide (k = id) then f <$> JsMap.get k us else JsMap.get k us.
Proof.
  induction us as [|[k0 u0] us IH]; simpl.
  - destruct (decide (k = id)); done.
  - destruct (decide (id = k0)) as [->|Hne]; simpl.
    + destruct (decide (k = k0)); done.
    + destruct (decide (k = k0)) as [->|]; [|done].
      rewrite decide_False by done. done.
Qed.

(** [updateUserProfile] on an initialised store that answers, for a
    profile that exists. *)
Lemma updateUserProfile_ok id data w old :
  db = true → answered_from (length (trace w)) →
  JsMap.get id (users w) = Some old →
  let now := clock (ticks w) in
  let new := apply_data data now old in
  let reread := if truthy (data_displayName data) || truthy (data_photoURL data)
                then [GetDoc id] else [] in
  updateUserProfile id data w =
    (Resolved tt,
     mkWorld (delete id (cache w)) (update_doc id (apply_data data now) (users w))
       (posts w) (S (ticks w)) (trace w ++ UpdateDoc id data now :: reread)
       (detached w ++ started id data new)).
Proof.
  intros Hdb Hok Hold. simpl. unfold updateUserProfile, checkFirestore, started.
  rewrite Hdb. rewrite bind_run. simpl. rewrite bind_run. simpl.
  rewrite bind_run, roundtrip_ok by (apply Hok; simpl; lia).
  rewrite bind_run. simpl. rewrite Hold. rewrite bind_run. simpl.
  destruct (truthy (data_displayName data) || truthy (data_photoURL data)).
  - rewrite bind_run, bind_run.
    rewrite getUserProfile_ok by (done || (apply Hok; simpl; rewrite length_app; lia)).
    simpl. rewrite get_update_doc, decide_True, Hold by done. simpl.
    rewrite <- app_assoc. reflexivity.
  - simpl. rewrite app_nil_r. reflexivity.
Qed.

(** A call that resolves ends with [invalidateUserCache]; a call that
    starts a repair resolves. *)
Lemma updateUserProfile_outcome id data w :
  match updateUserProfile id data w with
  | (Resolved _, w') =>
      cache w' = delete id (cache w) ∧
      ∃ tasks, detached w' = detached w ++ tasks ∧
        (tasks = [] ∨ ∃ name photo, tasks = [Repair id name photo])
  | (Rejected _, w') => cache w' = cache w ∧ detached w' = detached w
  end.
Proof.
  unfold updateUserProfile. mred. destruct db; mred; [|done].
  simpl. destruct (fault (length (trace w))); mred; [done|]. simpl.
  destruct (JsMap.get id (users w)) as [old|]; mred; [|done].
  destruct (truthy (data_displayName data) || truthy (data_photoURL data)); mred.
  - simpl. destruct (fault _); mred; [done|]. simpl.
    destruct (JsMap.get id _) as [u|]; mred; simpl.
    + split; [done|]. eexists. split; [done|]. right. eauto.
    + split; [done|]. exists []. rewrite app_nil_r. auto.
  - simpl. split; [done|]. exists []. rewrite app_nil_r. auto.
Qed.

(** C3, as amended.  [updateUserProfile] (firebaseUtils.ts) invalidates
    the cache entry before it returns, without waiting for the repair;
    the repair invalidates it once more when it completes (line 183 of
    userCache.ts).  In every world in which [updateUserProfile] resolves,
    the cache has no entry for the user.  On an initialised store that
    answers, for a profile that exists, the call resolves; the repair it
    started, if any, is then still among the detached promises and no
    post has been rewritten; and a [getUser] made at that moment goes to
    the store and returns the profile with the new values.  Whenever the
    repair resolves, it has deleted the entry of the user from the cache
    it found, and changed no other entry. *)
Theorem updateUserProfile_invalidates_before_repair
    (id : string) (data : PartialUser) (w : World) :
  (∀ w', updateUserProfile id data w = (Resolved tt, w') →
         cache w' !! id = None)
  ∧
  (∀ old, db = true → answered_from (length (trace w)) →
     JsMap.get id (users w) = Some old →
     let new := apply_data data (clock (ticks w)) old in
     ∃ w', updateUserProfile id data w = (Resolved tt, w') ∧
       cache w' !! id = None ∧
       JsMap.get id (users w') = Some new ∧
       posts w' = posts w ∧
       detached w' = detached w ++ started id data new ∧
       (∀ s, data_displayName data = Some s → displayName new = s) ∧
       (∀ s, data_photoURL data = Some s → photoURL new = s) ∧
       ∃ w'', getUser id w' = (Resolved (Some new), w'') ∧
              trace w'' = trace w' ++ [GetDoc id])
  ∧
  (∀ name photo w0 w', updateUserContentReferences id name photo w0 = (Resolved tt, w') →
     cache w' = delete id (cache w0)).
Proof.
  split; [|split].
  - intros w' Hrun. assert (Hout := updateUserProfile_outcome id data w).
    rewrite Hrun in Hout. destruct Hout as [-> _]. apply lookup_delete_eq.
  - intros old Hdb Hok Hold new.
    eexists. split; [apply updateUserProfile_ok; done|]. simpl.
    split; [apply lookup_delete_eq|].
    assert (JsMap.get id (update_doc id (apply_data data (clock (ticks w))) (users w))
            = Some new) as Hnew.
    { rewrite get_update_doc, decide_True, Hold by done. done. }
    split; [done|]. split; [done|]. split; [done|].
    split; [intros s Hs; unfold new, apply_data; simpl; rewrite Hs; done|].
    split; [intros s Hs; unfold new, apply_data; simpl; rewrite Hs; done|].
    set (w' := mkWorld _ _ _ _ _ _).
    destruct (getUser_miss id w') as (w1 & Ht1 & Hc1 & Hu1 & Hget).
    + done.
    + apply Hok. unfold w'. simpl. rewrite length_app. lia.
    + left. unfold w'. simpl. apply lookup_delete_eq.
    + replace (JsMap.get id (users w')) with (Some new) in Hget by done.
      destruct Hget as (w2 & _ & Hrun & Ht2 & _). exists w2. done.
  - intros name photo w0 w' Hrun.
    assert (Hend := repair_ends_invalidating id name photo w0).
    rewrite Hrun in Hend. exact Hend.
Qed.

(** C9.  A rejection of the detached repair stays at the repair.  A call
    of [updateUserProfile] that started a repair has resolved, with the
    cache entry invalidated, whatever the repair does later.  When the
    event loop runs a detached repair and the repair rejects with [e],
    for instance because a batch write fails or Firestore is not
    initialised, the step itself resolves: the error is written to the
    console, which is the last thing that happens; the repair is gone
    from the detached promises, so nothing runs it again. *)
Theorem repair_failure_is_logged_and_swallowed :
  (∀ id data w out w1 t,
     updateUserProfile id data w = (out, w1) →
     detached w1 = detached w ++ [t] →
     out = Resolved tt ∧ cache w1 !! id = None)
  ∧
  (∀ w id name photo rest e w',
     detached w = Repair id name photo :: rest →
     updateUserContentReferences id name photo (with_detached rest w)
       = (Rejected e, w') →
     run_detached w =
       (Resolved tt,
        with_trace
          (trace w' ++
           [ConsoleError ("Error updating user content references: " +:+ e)]) w')
     ∧ detached w' = rest ∧ users w' = users w)
  ∧
  (∀ w id name photo,
     db = false →
     updateUserContentReferences id name photo w
       = (Rejected "Firestore is not initialized", w)).
Proof.
  split; [|split].
  - intros id data w out w1 t Hrun Hdet.
    assert (Hout := updateUserProfile_outcome id data w). rewrite Hrun in Hout.
    destruct out as [[]|e].
    + destruct Hout as [-> _]. split; [done|]. apply lookup_delete_eq.
    + destruct Hout as [_ Hsame]. rewrite Hsame in Hdet.
      apply (f_equal length) in Hdet. rewrite length_app in Hdet. simpl in Hdet. lia.
  - intros w id name photo rest e w' Hdet Hrun.
    assert (Hd := preserves_repair detached id name photo
      ltac:(done) ltac:(done) ltac:(done) ltac:(done) (with_detached rest w)).
    assert (Hu := preserves_repair users id name photo
      ltac:(done) ltac:(done) ltac:(done) ltac:(done) (with_detached rest w)).
    rewrite Hrun in Hd, Hu. simpl in Hd, Hu. split; [|done].
    unfold run_detached. rewrite bind_run. simpl. rewrite Hdet.
    rewrite bind_run. simpl. unfold catch.
    change (with_detached rest w) with (with_detached rest w) in Hrun.
    rewrite Hrun. reflexivity.
  - intros w id name photo Hdb. unfold updateUserContentReferences.
    rewrite Hdb. reflexivity.
Qed.

(** ** The repair writes to posts of its user only *)

(** A loop keeps an invariant [I] of its variables and the world as long
    as it resolves and leaves the world in [J] when it rejects. *)
Lemma for_fold_invariant {A S} (I : S → World → Prop) (J : World → Prop)
    (body : S → A → M S) (xs : list A) :
  (∀ s x w, x ∈ xs → I s w →
     match body s x w with
     | (Resolved s', w') => I s' w'
     | (Rejected _, w') => J w'
     end) →
  ∀ s w, I s w →
    match for_fold body s xs w with
    | (Resolved s', w') => I s' w'
    | (Rejected _, w') => J w'
    end.
Proof.
  induction xs as [|x xs IH]; intros Hbody s w HI; simpl; [done|].
  rewrite bind_run. assert (Hx := Hbody s x w ltac:(left) HI).
  destruct (body s x w) as [[s'|e] w']; [|done].
  apply IH; [|done]. intros s0 x0 w0 Hin. apply Hbody. right. done.
Qed.

Lemma untouched_apply_ops own ps0 ops : ∀ ps,
  (∀ op, op ∈ ops → op_target op ∈ own) →
  untouched own ps0 ps → untouched own ps0 (apply_ops ops ps).
Proof.
  unfold apply_ops. induction ops as [|op ops IH]; intros ps Hops Hps; simpl; [done|].
  apply IH; [intros op' Hin; apply Hops; right; done|].
  intros i p Hi Hown. rewrite list_lookup_fmap, (Hps i p Hi Hown). simpl. f_equal.
  assert (op_target op ∈ own) as Ht by (apply Hops; left).
  destruct op as [id' n' ph' t'|id' cs']; simpl in *;
    (rewrite decide_False; [done|]); intros Heq; rewrite Heq in Hown; done.
Qed.

Lemma repair_untouched id name photo w :
  untouched (post_id <$> posts_by id (posts w)) (posts w)
    (posts (updateUserContentReferences id name photo w).2).
Proof.
  set (own := post_id <$> posts_by id (posts w)).
  set (J := λ w' : World, untouched own (posts w) (posts w')).
  set (I := λ (s : WriteBatch * nat) (w' : World),
              (∀ op, op ∈ mutations s.1 → op_target op ∈ own) ∧ J w').
  assert (J w) as HJ by (intros i p Hi _; done).
  assert (∀ b n (w' : World), I (b, n) w' →
            match batch_commit b w' with
            | (Resolved b', w'') => I (b', n) w''
            | (Rejected _, w'') => J w''
            end) as Hcommit.
  { intros b n w' [Hb Hw']. unfold batch_commit. simpl in Hb.
    destruct (committed b); [done|].
    destruct (mutations b) as [|op ops] eqn:Hm.
    { split; [simpl; intros op Hin; inversion Hin|done]. }
    rewrite bind_run. unfold roundtrip. mred.
    destruct (fault (length (trace w'))); mred; [done|]. simpl.
    split; [exact Hb|].
    apply (untouched_apply_ops own (posts w) (op :: ops)); done. }
  assert (∀ op b n (w' : World), op_target op ∈ own → I (b, n) w' →
            match batch_update op b w' with
            | (Resolved b', w'') => I (b', n) w''
            | (Rejected _, w'') => J w''
            end) as Hupdate.
  { intros op b n w' Hop [Hb Hw']. unfold batch_update. simpl in Hb.
    destruct (committed b); [done|].
    simpl. split; [|done]. simpl. intros op' Hin.
    apply elem_of_app in Hin as [Hin|Hin]; [auto|].
    apply list_elem_of_singleton in Hin as ->. done. }
  assert (∀ s postDoc (w0 : World), postDoc ∈ posts_by id (posts w) → I s w0 →
    match
      (let '(batch, batchOperations) := s in
       now ← Date_now;
       batch ← batch_update (SetAuthor (post_id postDoc) name photo now) batch;
       let batchOperations := S batchOperations in
       batch ← match post_comments postDoc with
               | Some cs =>
                   batch_update (SetComments (post_id postDoc)
                     (updatedComments id name photo cs)) batch
               | None => ret batch
               end;
       if decide (MAX_BATCH_SIZE ≤ batchOperations) then
         batch ← batch_commit batch;
         ret (batch, 0)
       else ret (batch, batchOperations)) w0
    with
    | (Resolved s', w') => I s' w'
    | (Rejected _, w') => J w'
    end) as Hbody.
  { intros [b k] postDoc w0 Hin HI.
    assert (post_id postDoc ∈ own) as Hown
      by (apply list_elem_of_fmap; exists postDoc; done).
    rewrite bind_run. unfold Date_now at 1. rewrite bind_run.
    assert (H1 := Hupdate (SetAuthor (post_id postDoc) name photo (clock (ticks w0)))
                    b k (with_ticks (S (ticks w0)) w0) Hown HI).
    destruct (batch_update _ b _) as [[b1|e1] w1]; [|exact H1].
    rewrite bind_run.
    assert (∃ r, r = match post_comments postDoc with
                     | Some cs => batch_update (SetComments (post_id postDoc)
                                    (updatedComments id name photo cs)) b1
                     | None => ret b1
                     end w1 ∧
                 match r with
                 | (Resolved b2, w2) => I (b2, k) w2
                 | (Rejected _, w2) => J w2
                 end) as (r & <- & H2).
    { eexists. split; [reflexivity|].
      destruct (post_comments postDoc) as [cs|]; [|exact H1].
      apply Hupdate; done. }
    destruct r as [[b2|e2] w2]; [|exact H2].
    destruct (decide (MAX_BATCH_SIZE ≤ S k)); [|exact H2].
    rewrite bind_run. assert (H3 := Hcommit b2 0 w2 H2).
    destruct (batch_commit b2 w2) as [[b3|e3] w3]; exact H3. }
  unfold updateUserContentReferences.
  rewrite bind_run. destruct db; simpl; [|done].
  rewrite bind_run. unfold roundtrip at 1. rewrite bind_run. simpl.
  rewrite bind_run. simpl.
  destruct (fault (length (trace w))); simpl; [done|].
  rewrite bind_run. simpl. rewrite bind_run.
  match goal with
  | |- context [for_fold ?body ?s ?xs ?w0] =>
      assert (Hloop := for_fold_invariant I J body xs
                ltac:(intros [b k] x0 w0' Hin HI; exact (Hbody (b, k) x0 w0' Hin HI))
                s w0);
      destruct (for_fold body s xs w0) as [[[batch n]|e] w1]
  end.
  - destruct Hloop as [Hb Hw1].
    { split; [intros op Hin; inversion Hin|exact HJ]. }
    rewrite bind_run. destruct (decide (0 < n)).
    + rewrite bind_run. assert (H3 := Hcommit batch n w1 (conj Hb Hw1)).
      destruct (batch_commit batch w1) as [[b3|e3] w3]; simpl; [|exact H3].
      destruct H3 as [_ H3]. exact H3.
    + simpl. exact Hw1.
  - apply Hloop. split; [intros op Hin; inversion Hin|exact HJ].
Qed.

(** Whatever the repair of [id] does, and whether it resolves or not, it
    writes to posts of [id] only: with one document per post id, every
    post of another author is, after it, the document it was before,
    nested comments included. *)
Lemma repair_leaves_posts_of_others id name photo w :
  NoDup (post_id <$> posts w) →
  ∀ i p, posts w !! i = Some p → post_authorId p ≠ id →
    posts (updateUserContentReferences id name photo w).2 !! i = Some p.
Proof.
  intros Hnd i p Hi Hauthor. apply repair_untouched; [done|].
  intros Hin. apply list_elem_of_fmap in Hin as (q & Hid & Hq).
  apply list_elem_of_filter in Hq as [Hq Hqin].
  apply list_elem_of_lookup in Hqin as (j & Hj).
  assert (i = j) as ->.
  { apply (NoDup_lookup _ _ _ (post_id p) Hnd); rewrite list_lookup_fmap.
    - rewrite Hi. done.
    - rewrite Hj, Hid. done. }
  rewrite Hi in Hj. injection Hj as ->. done.
Qed.

(** ** The repair of a user with fewer than 500 posts *)

Lemma staged_length id name photo ps : ∀ t,
  length (staged id name photo t ps) =
    length ps + length (filter (λ p, is_Some (post_comments p)) ps).
Proof.
  induction ps as [|p ps IH]; intros t; simpl; [done|].
  rewrite length_app, IH. destruct (post_comments p) as [cs|] eqn:Hp; simpl.
  - rewrite filter_cons_True by (simpl; rewrite Hp; eauto). simpl. lia.
  - rewrite filter_cons_False by (simpl; rewrite Hp; intros [? ?]; done). lia.
Qed.

(** Below the limit the counter never triggers a commit inside the loop:
    the batch only grows, by one or two updates per post, while the
    counter grows by one. *)
Lemma repair_loop_below_limit id name photo ps : ∀ ops k w,
  k + length ps < MAX_BATCH_SIZE →
  for_fold (λ '(batch, batchOperations) postDoc,
      now ← Date_now;
      batch ← batch_update
        (SetAuthor (post_id postDoc) name photo now) batch;
      let batchOperations := S batchOperations in
      batch ← match post_comments postDoc with
              | Some cs =>
                  batch_update (SetComments (post_id postDoc)
                    (updatedComments id name photo cs)) batch
              | None => ret batch
              end;
      if decide (MAX_BATCH_SIZE ≤ batchOperations) then
        batch ← batch_commit batch;
        ret (batch, 0)
      else ret (batch, batchOperations))
    (mkWriteBatch ops false, k) ps w =
  (Resolved (mkWriteBatch (ops ++ staged id name photo (ticks w) ps) false,
             k + length ps),
   with_ticks (ticks w + length ps) w).
Proof.
  induction ps as [|p ps IH]; intros ops k w Hk; simpl in *.
  - rewrite app_nil_r, !Nat.add_0_r. destruct w; reflexivity.
  - rewrite bind_run, bind_run. unfold Date_now at 1. rewrite bind_run. simpl.
    rewrite bind_run.
    destruct (post_comments p) as [cs|]; simpl;
      (rewrite decide_False by lia); simpl; rewrite IH by lia; simpl;
      rewrite <- ?app_assoc; simpl;
      replace (S (k + length ps)) with (k + S (length ps)) by lia;
      replace (S (ticks w + length ps)) with (ticks w + S (length ps)) by lia;
      reflexivity.
Qed.

(** On an initialised store that answers, for a user with at least one
    and fewer than 500 posts, the repair sends the query and one commit
    that carries all the staged updates. *)
Lemma repair_below_limit id name photo w :
  db = true → answered_from (length (trace w)) →
  0 < length (posts_by id (posts w)) < MAX_BATCH_SIZE →
  let ops := staged id name photo (ticks w) (posts_by id (posts w)) in
  ∃ w', updateUserContentReferences id name photo w = (Resolved tt, w') ∧
        trace w' = trace w ++ [PostsBy id; Commit ops] ∧
        posts w' = apply_ops ops (posts w) ∧
        length ops = length (posts_by id (posts w)) +
          length (filter (λ p, is_Some (post_comments p)) (posts_by id (posts w))).
Proof.
  intros Hdb Hok Hlen ops.
  exists (mkWorld (delete id (cache w)) (users w) (apply_ops ops (posts w))
            (ticks w + length (posts_by id (posts w)))
            (trace w ++ [PostsBy id; Commit ops]) (detached w)).
  split; [|split; [done|split; [done|apply staged_length]]].
  unfold updateUserContentReferences. rewrite Hdb, bind_run. simpl.
  rewrite bind_run, roundtrip_ok by (apply Hok; lia).
  rewrite bind_run. simpl. rewrite bind_run.
  unfold writeBatch. rewrite repair_loop_below_limit by (simpl; lia). simpl.
  rewrite bind_run. rewrite decide_True by lia. rewrite bind_run.
  unfold batch_commit. simpl. fold ops.
  assert (ops ≠ []) as Hne.
  { unfold ops. destruct (posts_by id (posts w)); simpl in *; [lia|done]. }
  destruct ops as [|op ops'] eqn:Hops; [done|].
  rewrite bind_run, roundtrip_ok by (apply Hok; simpl; rewrite length_app; lia).
  simpl. unfold invalidateUser, modify. simpl. rewrite <- app_assoc. reflexivity.
Qed.

(** ** More on the cache: repeated reads, invalidation, clearing *)

Lemma getUser_miss_written id w u :
  db = true → fault (length (trace w)) = false →
  (cache w !! id = None ∨
   ∃ e, cache w !! id = Some e ∧ (CACHE_TTL ≤ clock (ticks w) - timestamp e)%Z) →
  JsMap.get id (users w) = Some u →
  ∃ w', getUser id w = (Resolved (Some u), w') ∧
        trace w' = trace w ++ [GetDoc id] ∧ users w' = users w ∧
        ticks w' ≤ ticks w + 3 ∧ written_since (ticks w) w' id u.
Proof.
  intros Hdb Hfault Hmiss Hu.
  assert (∃ w0, cache_hit id w = (Resolved None, w0) ∧ trace w0 = trace w ∧
                users w0 = users w ∧ ticks w ≤ ticks w0 ≤ ticks w + 1)
    as (w0 & Hhit & Ht & Hus & Hticks).
  { destruct Hmiss as [Hnone|(e & He & Hold)].
    - exists w. rewrite cache_hit_none by done. repeat split; lia.
    - exists (with_ticks (S (ticks w)) w). rewrite (cache_hit_some _ _ _ He).
      unfold is_fresh. rewrite bool_decide_eq_false_2 by lia. simpl.
      repeat split; lia. }
  set (w1 := with_trace (trace w0 ++ [GetDoc id]) w0).
  assert (ticks w1 = ticks w0) as Hw1 by reflexivity.
  exists (after_setUser id u w1).
  destruct (after_setUser_frame id u w1) as (Hu' & _ & Ht' & _ & Hticks').
  destruct (after_setUser_same id u w1) as (e & He & Hue & j & Hj & Hts).
  split; [|split; [|split; [|split]]].
  - unfold getUser. rewrite bind_run, Hhit, bind_run.
    rewrite getUserProfile_ok by (rewrite ?Ht; done).
    rewrite Hus, Hu, bind_run, setUser_run. reflexivity.
  - rewrite Ht'. unfold w1. simpl. rewrite Ht. done.
  - rewrite Hu'. done.
  - lia.
  - exists e. split; [done|]. split; [done|]. exists j. split; [lia|done].
Qed.

Lemma getUser_hit_written lo hi id u w :
  written_since lo w id u → calm lo hi → ticks w < hi →
  getUser id w = (Resolved (Some u), with_ticks (S (ticks w)) w).
Proof.
  intros (e & He & Hu & j & Hj & Hts) Hcalm Hhi.
  unfold getUser. rewrite bind_run, (cache_hit_some _ _ _ He).
  unfold is_fresh. rewrite bool_decide_eq_true_2; [rewrite Hu; reflexivity|].
  rewrite Hts. apply Hcalm; lia.
Qed.

Lemma getUser_hits_again lo hi id u n : ∀ w,
  written_since lo w id u → calm lo hi → ticks w + n ≤ hi →
  again n (getUser id) w =
    (Resolved (replicate n (Some u)), with_ticks (ticks w + n) w).
Proof.
  induction n as [|n IH]; intros w Hw Hcalm Hhi; simpl.
  - rewrite Nat.add_0_r. destruct w; reflexivity.
  - rewrite bind_run, (getUser_hit_written lo hi id u) by (done || lia).
    rewrite bind_run, IH.
    + simpl. replace (S (ticks w + n)) with (ticks w + S n) by lia. reflexivity.
    + destruct Hw as (e & He & Hu & j & Hj & Hts).
      exists e. simpl. repeat split; [done..|]. exists j. split; [lia|done].
    + done.
    + simpl. lia.
Qed.

(** X1.  The cache caches ([getUser], lines 13-26 of userCache.ts, with
    [setUser]).  On a miss for a profile the store has, [n + 1] calls of
    [getUser] in a row all return that profile and the store sees one
    point lookup, provided the clock readings of the calls lie less than
    the TTL apart. *)
Theorem getUser_repeated_reads_send_one_lookup (id : string) (u : User) (n : nat) (w : World) :
  db = true → fault (length (trace w)) = false →
  (cache w !! id = None ∨
   ∃ e, cache w !! id = Some e ∧ (CACHE_TTL ≤ clock (ticks w) - timestamp e)%Z) →
  JsMap.get id (users w) = Some u →
  calm (ticks w) (ticks w + n + 3) →
  ∃ w', again (S n) (getUser id) w = (Resolved (replicate (S n) (Some u)), w') ∧
        trace w' = trace w ++ [GetDoc id].
Proof.
  intros Hdb Hfault Hmiss Hu Hcalm.
  destruct (getUser_miss_written id w u Hdb Hfault Hmiss Hu)
    as (w1 & Hrun & Ht & _ & Hticks & Hw).
  exists (with_ticks (ticks w1 + n) w1). split; [|done].
  simpl. rewrite bind_run, Hrun, bind_run.
  rewrite (getUser_hits_again (ticks w) (ticks w + n + 3) id u); [done..|lia].
Qed.

(** X2.  [invalidateUser], lines 42-44 of userCache.ts, and its wrapper
    [invalidateUserCache]: the entry of the id is gone, however fresh it
    was, and no other entry changes; a second call changes nothing; and
    the next [getUser] for the id, on an initialised store that answers,
    sends a point lookup and returns what the store holds. *)
Theorem invalidateUser_forces_a_lookup (id : string) (w : World) :
  ∃ w1, invalidateUser id w = (Resolved tt, w1) ∧
    cache w1 !! id = None ∧
    (∀ k, k ≠ id → cache w1 !! k = cache w !! k) ∧
    invalidateUser id w1 = (Resolved tt, w1) ∧
    (db = true → fault (length (trace w)) = false →
     ∃ w2, getUser id w1 = (Resolved (JsMap.get id (users w)), w2) ∧
           trace w2 = trace w ++ [GetDoc id]).
Proof.
  exists (with_cache (delete id (cache w)) w).
  split; [reflexivity|]. split; [apply lookup_delete_eq|].
  split; [intros k Hk; apply lookup_delete_ne; done|]. split.
  - unfold invalidateUser, modify. simpl. rewrite delete_delete_eq. reflexivity.
  - intros Hdb Hfault.
    destruct (getUser_miss id (with_cache (delete id (cache w)) w) Hdb Hfault)
      as (w1 & Ht1 & _ & _ & Hget).
    { left. apply lookup_delete_eq. }
    simpl in Hget. destruct (JsMap.get id (users w)) as [u|].
    + destruct Hget as (w2 & _ & Hrun & Ht2 & _). exists w2. done.
    + exists w1. done.
Qed.

(** ** More on [getUsers]: what it needs the store for *)

Lemma slices_length uids : ∀ n i,
  length uids - i ≤ n →
  length (slices uids i) = (length uids - i + 9) / 10.
Proof.
  induction n as [|n IH]; intros i Hn.
  - rewrite slices_ge by lia. replace (length uids - i) with 0 by lia. reflexivity.
  - destruct (decide (i < length uids)) as [Hlt|Hge].
    + rewrite slices_lt by done. cbn [length].
      rewrite IH by (unfold FIREBASE_IN_LIMIT; lia).
      unfold FIREBASE_IN_LIMIT.
      destruct (decide (length uids - i < 10)) as [Hsmall|Hbig].
      * replace (length uids - (i + 10)) with 0 by lia.
        change ((0 + 9) / 10) with 0.
        apply Nat.div_unique with (length uids - i - 1); lia.
      * replace (length uids - i + 9) with ((length uids - (i + 10) + 9) + 1 * 10) by lia.
        rewrite Nat.div_add by lia. lia.
    + rewrite slices_ge by lia. replace (length uids - i) with 0 by lia. reflexivity.
Qed.

Lemma slices_lookup uids j : ∀ i,
  slices uids i !! j =
    if decide (i + 10 * j < length uids)
    then Some (take 10 (drop (i + 10 * j) uids)) else None.
Proof.
  induction j as [|j IH]; intros i.
  - rewrite Nat.mul_0_r, Nat.add_0_r.
    destruct (decide (i < length uids)) as [Hlt|Hge].
    + rewrite slices_lt by done. reflexivity.
    + rewrite slices_ge by lia. reflexivity.
  - destruct (decide (i < length uids)) as [Hlt|Hge].
    + rewrite slices_lt by done. simpl. rewrite IH. unfold FIREBASE_IN_LIMIT.
      replace (i + 10 + 10 * j) with (i + 10 * S j) by lia. reflexivity.
    + rewrite slices_ge by lia. rewrite decide_False by lia. reflexivity.
Qed.

(** With no entry for any of the ids, the first loop queues them all. *)
Lemma probe_no_entries c uids : ∀ t acc,
  (∀ k, k ∈ uids → c !! k = None) →
  probe c t acc uids = (acc.1, acc.2 ++ uids, t).
Proof.
  induction uids as [|id uids IH]; intros t [hits misses] Hnone; simpl.
  - rewrite app_nil_r. reflexivity.
  - rewrite (Hnone id) by left. rewrite IH by (intros; apply Hnone; right; done).
    simpl. rewrite <- app_assoc. reflexivity.
Qed.

(** With a fresh entry for each of the ids, it serves them all. *)
Lemma probe_all_fresh c uids : ∀ t acc,
  (∀ k, k ∈ uids → ∃ e, c !! k = Some e ∧
     ∀ i, t ≤ i < t + length uids → is_fresh (clock i) e = true) →
  probe c t acc uids =
    (hits_of c (λ _, true) acc.1 uids, acc.2, t + length uids).
Proof.
  induction uids as [|id uids IH]; intros t [hits misses] Hall; simpl.
  - rewrite Nat.add_0_r. reflexivity.
  - destruct (Hall id) as (e & He & Hf); [left|]. rewrite He.
    rewrite Hf by (simpl; lia). rewrite IH.
    + simpl. f_equal. lia.
    + intros k Hk. destruct (Hall k) as (e' & He' & Hf'); [right; done|].
      exists e'. split; [done|]. intros i Hi. apply Hf'. simpl. lia.
Qed.

Lemma getUsers_no_entries uids w :
  db = true → answered_from (length (trace w)) →
  (∀ k, k ∈ uids → cache w !! k = None) →
  ∃ w', getUsers uids w =
          (Resolved (foldl (λ r kv, JsMap.set kv.1 kv.2 r) []
                       (fetched_of uids (users w))), w') ∧
        trace w' = trace w ++ (UsersIn <$> slices uids 0) ∧
        users w' = users w ∧ posts w' = posts w.
Proof.
  intros Hdb Hok Hnone.
  assert (Hrun := getUsers_run uids w Hdb Hok).
  rewrite probe_no_entries in Hrun by done. simpl in Hrun.
  destruct Hrun as (w2 & Hset & Hrun). exists w2. split; [done|].
  apply setUsers_frame in Hset as (Hu & Hp & Ht & _). simpl in *. done.
Qed.

(** X3.  [clearCache], lines 187-189 of userCache.ts, called by
    [logoutUser]: it leaves an empty cache and touches nothing else, so
    the next [getUsers], on an initialised store that answers and whose
    documents carry their id, asks the store for every id of the list, ten
    to a query, and returns for each the stored profile if there is one. *)
Theorem clearCache_forgets_every_profile (w : World) (uids : list string) :
  db = true → answered_from (length (trace w)) → wf_users (users w) →
  ∃ w1, clearCache w = (Resolved tt, w1) ∧ cache w1 = ∅ ∧
    users w1 = users w ∧ posts w1 = posts w ∧ trace w1 = trace w ∧
    ∃ result w2, getUsers uids w1 = (Resolved result, w2) ∧
      trace w2 = trace w ++ (UsersIn <$> slices uids 0) ∧
      ∀ k, JsMap.get k result =
             if decide (k ∈ uids) then JsMap.get k (users w) else None.
Proof.
  intros Hdb Hok Hwf. exists (with_cache ∅ w).
  split; [reflexivity|]. repeat (split; [reflexivity|]).
  destruct (getUsers_no_entries uids (with_cache ∅ w) Hdb Hok)
    as (w2 & Hrun & Ht & _).
  { intros k _. apply lookup_empty. }
  eexists _, w2. split; [exact Hrun|]. split; [exact Ht|].
  intros k. simpl. rewrite JsMap_get_foldl_set by apply fetched_of_NoDup.
  rewrite get_fetched_of by done. simpl.
  destruct (decide (k ∈ uids)); [|done]. destruct (JsMap.get k (users w)); done.
Qed.

(** X4.  [getUsers], lines 57-81 of userCache.ts, needs the store for
    misses only: when every id of the list has an entry that is fresh at
    the readings of the first loop (in particular for the empty list) it
    returns the cached profiles, reads the clock once per id and does
    nothing else -- no query, no write to the cache -- whether Firestore
    is initialised or not. *)
Theorem getUsers_served_from_cache_sends_nothing (uids : list string) (w : World) :
  (∀ k, k ∈ uids → ∃ e, cache w !! k = Some e ∧
     ∀ i, ticks w ≤ i < ticks w + length uids → is_fresh (clock i) e = true) →
  ∃ result,
    getUsers uids w = (Resolved result, with_ticks (ticks w + length uids) w) ∧
    ∀ k, JsMap.get k result =
           if decide (k ∈ uids) then user <$> cache w !! k else None.
Proof.
  intros Hall. exists (hits_of (cache w) (λ _, true) [] uids). split.
  - unfold getUsers. rewrite bind_run.
    change (for_fold _ ([], []) uids w) with (for_fold probe_body ([], []) uids w).
    rewrite probe_run, probe_all_fresh by done. reflexivity.
  - intros k. rewrite get_hits_of.
    + destruct (decide (k ∈ uids)) as [Hin|Hout].
      * rewrite decide_True by done. reflexivity.
      * rewrite decide_False by tauto. reflexivity.
    + intros k' Hk' Hnone. destruct (Hall k' Hk') as (e & He & _). congruence.
Qed.

(** X5.  [batchGetUsers], lines 84-116 of userCache.ts, throws when
    Firestore is not initialised, and [getUsers] has no handler: with an
    id in the list that has no entry, [getUsers] rejects, although other
    ids of the list may be cached; nothing is sent, logged or cached. *)
Theorem getUsers_without_store_rejects_on_a_miss (uids : list string) (k : string) (w : World) :
  db = false → k ∈ uids → cache w !! k = None →
  ∃ w', getUsers uids w = (Rejected "Firestore is not initialized", w') ∧
        trace w' = trace w ∧ cache w' = cache w ∧ users w' = users w.
Proof.
  intros Hdb Hin Hnone.
  exists (with_ticks (probe (cache w) (ticks w) ([], []) uids).2 w).
  split; [|done].
  unfold getUsers. rewrite bind_run.
  change (for_fold _ ([], []) uids w) with (for_fold probe_body ([], []) uids w).
  rewrite probe_run.
  assert (k ∈ (probe (cache w) (ticks w) ([], []) uids).1.2) as Hq.
  { apply probe_queues; [done|]. intros e i He. congruence. }
  destruct (probe (cache w) (ticks w) ([], []) uids) as [[hits uncached] t1].
  simpl in *. destruct uncached as [|k0 uncached]; [inversion Hq|].
  rewrite bind_run. unfold batchGetUsers. rewrite Hdb, bind_run. reflexivity.
Qed.

(** X6.  [getUsers], lines 57-81 of userCache.ts, fills the cache only
    after every query has come back: when it rejects -- Firestore is not
    initialised, or one of the queries fails, perhaps after others were
    answered -- the cache holds exactly the entries it held before. *)
Theorem getUsers_rejected_caches_nothing (uids : list string) (w w' : World) (error : string) :
  getUsers uids w = (Rejected error, w') →
  cache w' = cache w ∧ users w' = users w ∧ posts w' = posts w ∧
  (error = "Firestore is not initialized" ∨ error = "unavailable").
Proof.
  unfold getUsers. rewrite bind_run.
  change (for_fold _ ([], []) uids w) with (for_fold probe_body ([], []) uids w).
  rewrite probe_run.
  destruct (probe (cache w) (ticks w) ([], []) uids) as [[hits uncached] t1].
  simpl. destruct uncached as [|k0 uncached]; [discriminate|].
  rewrite bind_run. set (w1 := with_ticks t1 w).
  destruct (batchGetUsers (k0 :: uncached) w1) as [[fetched|e] w2] eqn:Hb.
  - destruct (fill_run fetched hits w2) as (w3 & _ & Hfill).
    change (for_fold _ hits fetched w2) with (for_fold fill_body hits fetched w2).
    rewrite Hfill. discriminate.
  - intros [= <- <-].
    assert (cache w2 = cache w1 ∧ users w2 = users w1 ∧ posts w2 = posts w1 ∧
            (e = "Firestore is not initialized" ∨ e = "unavailable")) as Hgoal; [|exact Hgoal].
    unfold batchGetUsers in Hb. rewrite bind_run in Hb.
    destruct db; simpl in Hb; [|injection Hb as <- <-; auto].
    revert Hb. generalize (slices (k0 :: uncached) 0) ([] : JsMap.t User) w1.
    clear. induction l as [|b batches IH]; intros result w; simpl; [discriminate|].
    rewrite bind_run, bind_run. unfold roundtrip. rewrite bind_run. simpl.
    rewrite bind_run. simpl.
    destruct (fault (length (trace w))); simpl.
    + intros [= <- <-]. auto.
    + intros Hb. apply IH in Hb. simpl in Hb. exact Hb.
Qed.

(** X7.  The slicing of [batchGetUsers], lines 84-116 of userCache.ts: on
    an initialised store that answers, a list of [n] ids goes out as
    [ceil(n / 10)] queries, the [j]-th of them for the ids at positions
    [10 j] to [10 j + 9] of the list; the function itself writes nothing
    to the cache. *)
Theorem batchGetUsers_sends_one_query_per_ten_ids (uids : list string) (w : World) :
  db = true → answered_from (length (trace w)) →
  ∃ batches result w',
    batchGetUsers uids w = (Resolved result, w') ∧
    trace w' = trace w ++ (UsersIn <$> batches) ∧
    length batches = (length uids + 9) / 10 ∧
    (∀ j, j < length batches → batches !! j = Some (take 10 (drop (10 * j) uids))) ∧
    concat batches = uids ∧
    cache w' = cache w.
Proof.
  intros Hdb Hok. exists (slices uids 0). eexists _, _.
  split; [apply batchGetUsers_run; done|]. simpl.
  assert (Hlen := slices_length uids (length uids) 0 ltac:(lia)).
  rewrite Nat.sub_0_r in Hlen.
  split; [done|]. split; [done|]. split; [|split; [|done]].
  - intros j Hj. assert (Hj' := slices_lookup uids j 0).
    rewrite Nat.add_0_l in Hj'. rewrite Hj'.
    destruct (decide (10 * j < length uids)) as [|Hge]; [done|].
    exfalso. apply lookup_ge_None in Hj'. lia.
  - rewrite (concat_slices uids (length uids) 0) by lia. apply drop_0.
Qed.

(** ** The repair of a user with fewer than 500 posts: what it writes *)

Lemma apply_ops_fmap ops : ∀ ps,
  apply_ops ops ps = (λ p, foldl (λ p op, apply_op op p) p ops) <$> ps.
Proof.
  unfold apply_ops. induction ops as [|op ops IH]; intros ps; simpl.
  - rewrite list_fmap_id. reflexivity.
  - rewrite IH, <- list_fmap_compose. reflexivity.
Qed.

Lemma apply_op_other op p : op_target op ≠ post_id p → apply_op op p = p.
Proof.
  destruct op as [id' n' ph' t'|id' cs']; simpl; intros Hne;
    rewrite decide_False by congruence; reflexivity.
Qed.

Lemma foldl_staged_other id name photo own p : ∀ t,
  post_id p ∉ post_id <$> own →
  foldl (λ p op, apply_op op p) p (staged id name photo t own) = p.
Proof.
  induction own as [|q own IH]; intros t Hp; simpl; [done|].
  rewrite fmap_cons in Hp. apply not_elem_of_cons in Hp as [Hne Hp].
  rewrite decide_False by congruence. rewrite foldl_app.
  destruct (post_comments q) as [cs|]; simpl;
    rewrite ?decide_False by congruence; apply IH; done.
Qed.

Lemma foldl_staged_own id name photo own p : ∀ t j,
  NoDup (post_id <$> own) → own !! j = Some p →
  foldl (λ p op, apply_op op p) p (staged id name photo t own) =
    repaired id name photo (clock (t + j)) p.
Proof.
  induction own as [|q own IH]; intros t j Hnd Hj; [done|].
  rewrite fmap_cons in Hnd. apply NoDup_cons in Hnd as [Hq Hnd].
  destruct j as [|j]; simpl in Hj.
  - injection Hj as ->. cbn [staged foldl]. rewrite foldl_app, Nat.add_0_r.
    assert (foldl (λ p op, apply_op op p)
              (apply_op (SetAuthor (post_id p) name photo (clock t)) p)
              match post_comments p with
              | Some cs => [SetComments (post_id p) (updatedComments id name photo cs)]
              | None => []
              end = repaired id name photo (clock t) p) as ->.
    { unfold repaired. simpl. rewrite decide_True by done.
      destruct (post_comments p) as [cs|] eqn:Hcs; simpl.
      - rewrite decide_True by done. reflexivity.
      - reflexivity. }
    apply foldl_staged_other. exact Hq.
  - assert (post_id p ≠ post_id q) as Hne.
    { intros Heq. apply Hq. rewrite <- Heq. apply list_elem_of_fmap.
      exists p. split; [done|]. apply list_elem_of_lookup. eauto. }
    cbn [staged foldl]. rewrite foldl_app.
    rewrite (apply_op_other (SetAuthor _ _ _ _)) by (simpl; congruence).
    assert (foldl (λ p op, apply_op op p) p
              match post_comments q with
              | Some cs => [SetComments (post_id q) (updatedComments id name photo cs)]
              | None => []
              end = p) as ->.
    { destruct (post_comments q); simpl; [|done].
      rewrite decide_False by congruence. reflexivity. }
    rewrite (IH (S t) j) by done. f_equal. f_equal. lia.
Qed.

Lemma NoDup_fmap_filter {A B} (f : A → B) (P : A → Prop) `{∀ x, Decision (P x)}
    (l : list A) :
  NoDup (f <$> l) → NoDup (f <$> filter P l).
Proof.
  induction l as [|x l IH]; [done|].
  rewrite fmap_cons. intros [Hx Hnd]%NoDup_cons.
  destruct (decide (P x)).
  - rewrite filter_cons_True by done. rewrite fmap_cons. apply NoDup_cons.
    split; [|auto]. intros Hin. apply Hx.
    apply list_elem_of_fmap in Hin as (y & -> & Hy).
    apply list_elem_of_filter in Hy as [_ Hy].
    apply list_elem_of_fmap. eauto.
  - rewrite filter_cons_False by done. auto.
Qed.

Lemma repair_no_posts id name photo w :
  db = true → fault (length (trace w)) = false →
  posts_by id (posts w) = [] →
  updateUserContentReferences id name photo w =
    (Resolved tt,
     with_cache (delete id (cache w)) (with_trace (trace w ++ [PostsBy id]) w)).
Proof.
  intros Hdb Hok Hnone. unfold updateUserContentReferences.
  rewrite Hdb, bind_run. simpl.
  rewrite bind_run, roundtrip_ok by done.
  rewrite bind_run. simpl. rewrite Hnone. reflexivity.
Qed.

(** X8.  What the repair achieves ([updateUserContentReferences], lines
    119-184 of userCache.ts): on an initialised store that answers, with
    one document per post id, for a user with fewer than 500 posts whose
    updates -- one per post and one more per post with a [comments]
    array -- are at most 500, it resolves after the query and at most
    one commit, of at most 500 operations.  It leaves every post of the
    user with the new author name and photo and a new [updatedAt], and
    with every other field as before.  In the [comments] array of such a
    post, which keeps its length and order, the comments the user wrote
    carry the new name and photo and are otherwise as before, and the
    comments of others are as before.  Every post of another author and
    every profile is as before, and the cache entry of the user is
    gone. *)
Theorem repair_rewrites_the_posts_of_its_user (id name photo : string) (w : World) :
  db = true → answered_from (length (trace w)) →
  NoDup (post_id <$> posts w) →
  length (posts_by id (posts w)) < MAX_BATCH_SIZE →
  length (posts_by id (posts w)) +
    length (filter (λ p, is_Some (post_comments p)) (posts_by id (posts w)))
    ≤ MAX_BATCH_SIZE →
  ∃ w' commits,
    updateUserContentReferences id name photo w = (Resolved tt, w') ∧
    trace w' = trace w ++ PostsBy id :: commits ∧
    length commits ≤ 1 ∧
    (∀ e, e ∈ commits → ∃ ops, e = Commit ops ∧ length ops ≤ MAX_BATCH_SIZE) ∧
    cache w' = delete id (cache w) ∧ users w' = users w ∧
    length (posts w') = length (posts w) ∧
    ∀ i p, posts w !! i = Some p →
      ∃ p', posts w' !! i = Some p' ∧
        if decide (post_authorId p = id) then
          post_authorName p' = name ∧ post_authorPhotoURL p' = photo ∧
          post_id p' = post_id p ∧ post_authorId p' = post_authorId p ∧
          post_content p' = post_content p ∧ post_imageURL p' = post_imageURL p ∧
          post_likes p' = post_likes p ∧ post_createdAt p' = post_createdAt p ∧
          (∃ j, j < length (posts_by id (posts w)) ∧
                post_updatedAt p' = clock (ticks w + j)) ∧
          match post_comments p with
          | None => post_comments p' = None
          | Some cs =>
              ∃ cs', post_comments p' = Some cs' ∧ length cs' = length cs ∧
                ∀ k c, cs !! k = Some c →
                  ∃ c', cs' !! k = Some c' ∧
                    if decide (comment_authorId c = id) then
                      same_comment_data c c' ∧
                      comment_authorName c' = name ∧
                      comment_authorPhotoURL c' = photo
                    else c' = c
          end
        else p' = p.
Proof.
  intros Hdb Hok Hnd Hlen Hops.
  assert (∃ w' commits,
            updateUserContentReferences id name photo w = (Resolved tt, w') ∧
            trace w' = trace w ++ PostsBy id :: commits ∧
            length commits ≤ 1 ∧
            (∀ e, e ∈ commits → ∃ ops, e = Commit ops ∧ length ops ≤ MAX_BATCH_SIZE) ∧
            posts w' = apply_ops
              (staged id name photo (ticks w) (posts_by id (posts w))) (posts w))
    as (w' & commits & Hrun & Ht & Hone & Hcap & Hposts).
  { destruct (posts_by id (posts w)) as [|q own] eqn:Hown.
    - rewrite repair_no_posts by (done || (apply Hok; lia)).
      eexists _, []. split; [reflexivity|]. simpl.
      split; [done|]. split; [lia|]. split; [|done].
      intros e He. inversion He.
    - destruct (repair_below_limit id name photo w Hdb Hok)
        as (w' & Hrun & Ht & Hp & Hn).
      + rewrite Hown. simpl in *. lia.
      + rewrite Hown in Hp, Ht, Hn.
        exists w', [Commit (staged id name photo (ticks w) (q :: own))].
        split; [exact Hrun|]. split; [exact Ht|]. split; [simpl; lia|].
        split; [|exact Hp].
        intros e He. apply list_elem_of_singleton in He as ->.
        eexists. split; [reflexivity|]. rewrite Hn. exact Hops. }
  exists w', commits. split; [exact Hrun|]. split; [exact Ht|].
  split; [exact Hone|]. split; [exact Hcap|].
  assert (Hc := repair_ends_invalidating id name photo w). rewrite Hrun in Hc.
  assert (Hu := preserves_repair users id name photo
                  ltac:(done) ltac:(done) ltac:(done) ltac:(done) w).
  rewrite Hrun in Hu. simpl in Hu.
  split; [exact Hc|]. split; [exact Hu|].
  rewrite Hposts, apply_ops_fmap. split; [apply length_fmap|].
  intros i p Hi. rewrite list_lookup_fmap, Hi. simpl. eexists. split; [reflexivity|].
  destruct (decide (post_authorId p = id)) as [Hauthor|Hauthor].
  - assert (p ∈ posts_by id (posts w)) as Hin.
    { apply list_elem_of_filter. split; [done|]. apply list_elem_of_lookup. eauto. }
    apply list_elem_of_lookup in Hin as (j & Hj).
    rewrite (foldl_staged_own id name photo (posts_by id (posts w)) p (ticks w) j
               (NoDup_fmap_filter post_id _ _ Hnd) Hj).
    unfold repaired. simpl. repeat (split; [done|]). split.
    + exists j. split; [apply lookup_lt_Some in Hj; done|done].
    + destruct (post_comments p) as [cs|]; simpl; [|done].
      eexists. split; [reflexivity|]. unfold updatedComments.
      split; [apply length_fmap|]. intros k c Hk.
      rewrite list_lookup_fmap, Hk. simpl. eexists. split; [reflexivity|].
      destruct (decide (comment_authorId c = id)); [|done].
      unfold same_comment_data, comment_with_author. simpl. done.
  - apply foldl_staged_other. intros Hin.
    apply list_elem_of_fmap in Hin as (q & Hid & Hq).
    apply list_elem_of_filter in Hq as [Hq Hqin].
    apply list_elem_of_lookup in Hqin as (k & Hk).
    assert (i = k) as ->.
    { apply (NoDup_lookup _ _ _ (post_id p) Hnd); rewrite list_lookup_fmap.
      - rewrite Hi. done.
      - rewrite Hk, Hid. done. }
    rewrite Hi in Hk. injection Hk as ->. done.
Qed.

(** X9.  Below 500 posts the repair is all or nothing
    ([updateUserContentReferences], lines 119-184 of userCache.ts): its
    updates go out in one commit after the loop, so that a repair that
    rejects -- Firestore not initialised, the query or the commit
    refused -- has changed no post and no profile, and has left the cache
    entry of the user alone. *)
Theorem rejected_repair_below_limit_writes_nothing
    (id name photo : string) (w w' : World) (error : string) :
  length (posts_by id (posts w)) < MAX_BATCH_SIZE →
  updateUserContentReferences id name photo w = (Rejected error, w') →
  posts w' = posts w ∧ users w' = users w ∧ cache w' = cache w.
Proof.
  intros Hlen Hrun.
  assert (Hc := repair_ends_invalidating id name photo w). rewrite Hrun in Hc.
  assert (Hu := preserves_repair users id name photo
                  ltac:(done) ltac:(done) ltac:(done) ltac:(done) w).
  rewrite Hrun in Hu. simpl in Hu.
  split; [|done]. revert Hrun. unfold updateUserContentReferences.
  rewrite bind_run. destruct db; simpl; [|intros [= <- <-]; done].
  rewrite bind_run. unfold roundtrip at 1. rewrite bind_run. simpl.
  rewrite bind_run. simpl.
  destruct (fault (length (trace w))); simpl; [intros [= <- <-]; done|].
  rewrite bind_run. simpl. rewrite bind_run.
  unfold writeBatch. rewrite repair_loop_below_limit by (simpl; lia). simpl.
  rewrite bind_run. destruct (decide (0 < length (posts_by id (posts w)))); [|discriminate].
  rewrite bind_run. unfold batch_commit. simpl.
  destruct (staged id name photo (ticks w) (posts_by id (posts w))) as [|op ops];
    [discriminate|].
  rewrite bind_run. unfold roundtrip. mred. simpl.
  destruct (fault _); simpl; [intros [= <- <-]; done|discriminate].
Qed.

(** ** More on [updateUserProfile] *)

(** For an id of the list that has no entry, [getUsers] returns what the
    store holds, whatever the cache says about the other ids. *)
Lemma getUsers_lookup_no_entry uids w k result w' :
  db = true → answered_from (length (trace w)) → wf_users (users w) →
  getUsers uids w = (Resolved result, w') →
  k ∈ uids → cache w !! k = None →
  JsMap.get k result = JsMap.get k (users w).
Proof.
  intros Hdb Hok Hwf Hrun Hin Hnone.
  assert (Hphases := getUsers_run uids w Hdb Hok).
  assert (Hq := probe_queues (cache w) uids k (ticks w) ([], []) Hin
                  ltac:(intros e i He; congruence)).
  assert (Hs := probe_hits_sound (cache w) uids (ticks w) ([], []) k).
  destruct (probe (cache w) (ticks w) ([], []) uids) as [[hits uncached] t1].
  destruct Hphases as (w2 & _ & Hrun'). rewrite Hrun in Hrun'.
  injection Hrun' as -> _. simpl in *.
  rewrite JsMap_get_foldl_set by apply fetched_of_NoDup.
  rewrite get_fetched_of, decide_True by done.
  destruct (JsMap.get k (users w)) as [u|]; [done|].
  destruct (JsMap.get k hits) as [u|]; [|done].
  destruct (Hs u eq_refl) as [?|(e & _ & He & _)]; congruence.
Qed.

Lemma update_doc_keys id f us : (update_doc id f us).*1 = us.*1.
Proof.
  induction us as [|[k u] us IH]; simpl; [done|].
  destruct (decide (id = k)); simpl; [done|]. f_equal. exact IH.
Qed.

Lemma elem_of_update_doc id f us d :
  d ∈ update_doc id f us → d ∈ us ∨ ∃ u, (id, u) ∈ us ∧ d = (id, f u).
Proof.
  induction us as [|[k u] us IH]; simpl; [auto|].
  destruct (decide (id = k)) as [->|Hne]; intros [->|Hin]%elem_of_cons.
  - right. exists u. split; [left|done].
  - left. right. done.
  - left. left.
  - destruct (IH Hin) as [?|(u' & Hu' & ->)]; [left; right; done|].
    right. exists u'. split; [right|]; done.
Qed.

Lemma wf_users_update_doc id data t us :
  data_uid data = None ∨ data_uid data = Some id →
  wf_users us → wf_users (update_doc id (apply_data data t) us).
Proof.
  intros Huid [Hnd Hwf]. split; [rewrite update_doc_keys; done|].
  intros d Hd. apply elem_of_update_doc in Hd as [Hd|(u & Hu & ->)]; [auto|].
  simpl. destruct Huid as [->| ->]; simpl; [|done]. apply (Hwf _ Hu).
Qed.

(** X10.  Reads show the new name at once ([updateUserProfile] and
    [enrichPostsWithUserData] of firebaseUtils.ts).  After an update that
    resolved, while the stored posts still carry the old author fields,
    enriching any list of posts puts the display name and photo URL of the
    updated profile on every post and on every comment written by the
    user.  The store is initialised and answers, its documents carry
    their id, and the update does not change the [uid] field. *)
Theorem enrich_after_update_shows_the_new_profile
    (id : string) (data : PartialUser) (old : User) (w : World) (ps : list Post) :
  db = true → answered_from (length (trace w)) → wf_users (users w) →
  JsMap.get id (users w) = Some old → data_uid data = None →
  let new := apply_data data (clock (ticks w)) old in
  ∃ w1, updateUserProfile id data w = (Resolved tt, w1) ∧ posts w1 = posts w ∧
    ∃ ps' w2, enrichPostsWithUserData ps w1 = (Resolved ps', w2) ∧
      posts w2 = posts w ∧ length ps' = length ps ∧
      ∀ i p, ps !! i = Some p →
        ∃ p', ps' !! i = Some p' ∧
          (post_authorId p = id →
             post_authorName p' = displayName new ∧
             post_authorPhotoURL p' = photoURL new) ∧
          ∀ j c, default [] (post_comments p) !! j = Some c →
            ∃ c', default [] (post_comments p') !! j = Some c' ∧
              (comment_authorId c = id →
                 comment_authorName c' = displayName new ∧
                 comment_authorPhotoURL c' = photoURL new).
Proof.
  intros Hdb Hok Hwf Hold Huid new.
  eexists. split; [apply updateUserProfile_ok; done|]. split; [done|].
  set (w1 := mkWorld _ _ _ _ _ _).
  assert (answered_from (length (trace w1))) as Hok1.
  { intros i Hi. apply Hok. unfold w1 in Hi. simpl in Hi.
    rewrite length_app in Hi. lia. }
  assert (wf_users (users w1)) as Hwf1.
  { unfold w1. simpl. apply wf_users_update_doc; auto. }
  assert (JsMap.get id (users w1) = Some new) as Hnew.
  { unfold w1. simpl. rewrite get_update_doc, decide_True, Hold by done. done. }
  destruct (getUsers_resolves (authorIds ps) w1 Hdb Hok1) as (us & w2 & Hrun).
  assert (Hro := reads_only_getUsers (authorIds ps) w1). rewrite Hrun in Hro.
  destruct Hro as (_ & Hp2 & _).
  assert (id ∈ authorIds ps → JsMap.get id us = Some new) as Hus.
  { intros Hin. rewrite <- Hnew.
    apply (getUsers_lookup_no_entry (authorIds ps) w1 id us w2); try done.
    unfold w1. simpl. apply lookup_delete_eq. }
  exists (enrich_post us <$> ps), w2.
  split; [unfold enrichPostsWithUserData; rewrite bind_run, Hrun; reflexivity|].
  split; [exact Hp2|]. split; [apply length_fmap|].
  intros i p Hi. exists (enrich_post us p).
  split; [rewrite list_lookup_fmap, Hi; done|].
  assert (p ∈ ps) as Hp by (apply list_elem_of_lookup; eauto). split.
  - intros Hauthor. unfold enrich_post. rewrite Hauthor, Hus; [done|].
    apply elem_of_authorIds. exists p. auto.
  - intros j c Hj. destruct (enrich_post_spec us p) as (_ & _ & ->).
    destruct (post_comments p) as [cs|] eqn:Hcs; simpl in *; [|done].
    exists (enrich_comment us c). split; [rewrite list_lookup_fmap, Hj; done|].
    intros Hauthor. unfold enrich_comment. rewrite Hauthor, Hus; [done|].
    apply elem_of_authorIds. exists p. split; [done|]. right. rewrite Hcs. simpl.
    apply list_elem_of_fmap. exists c. split; [done|].
    apply list_elem_of_lookup. eauto.
Qed.

(** X11.  [updateUserProfile], lines 297-325 of firebaseUtils.ts, writes
    to one document only.  Whatever its outcome, the collection "users"
    has the same document ids in the same order, every profile other than
    that of [id] is as before, no post is changed, and the documents
    still carry their id when the update does not change the [uid]
    field. *)
Theorem updateUserProfile_writes_one_document (id : string) (data : PartialUser) (w : World) :
  let w' := (updateUserProfile id data w).2 in
  (users w').*1 = (users w).*1 ∧
  (∀ k, k ≠ id → JsMap.get k (users w') = JsMap.get k (users w)) ∧
  posts w' = posts w ∧
  (data_uid data = None ∨ data_uid data = Some id →
   wf_users (users w) → wf_users (users w')).
Proof.
  assert (∀ w0 : World,
            users w0 = users w ∨
            users w0 = update_doc id (apply_data data (clock (ticks w))) (users w) →
            (users w0).*1 = (users w).*1 ∧
            (∀ k, k ≠ id → JsMap.get k (users w0) = JsMap.get k (users w)) ∧
            (data_uid data = None ∨ data_uid data = Some id →
             wf_users (users w) → wf_users (users w0))) as Hframe.
  { intros w0 [-> | ->]; [done|]. split; [apply update_doc_keys|]. split.
    - intros k Hk. rewrite get_update_doc, decide_False by done. done.
    - apply wf_users_update_doc. }
  assert ((users (updateUserProfile id data w).2 = users w ∨
           users (updateUserProfile id data w).2 =
             update_doc id (apply_data data (clock (ticks w))) (users w)) ∧
          posts (updateUserProfile id data w).2 = posts w) as [Hu Hp].
  { unfold updateUserProfile. mred. destruct db; mred; [|auto].
    simpl. destruct (fault (length (trace w))); mred; [auto|]. simpl.
    destruct (JsMap.get id (users w)) as [old|]; mred; [|auto].
    destruct (truthy (data_displayName data) || truthy (data_photoURL data)); mred.
    - simpl. destruct (fault _); mred; [auto|]. simpl.
      destruct (JsMap.get id _) as [u|]; mred; simpl; auto.
    - simpl. auto. }
  simpl. destruct (Hframe _ Hu) as (H1 & H2 & H3). done.
Qed.

(** X12.  A lost re-read leaves the cache stale ([updateUserProfile],
    lines 297-325 of firebaseUtils.ts).  A call that rejects has not
    reached [invalidateUserCache]: the cache and the detached promises
    are as before.  When the update itself is written and the re-read of
    the profile is refused, the call rejects with the new profile in the
    store, no repair started, and a cached entry of the old profile still
    in place, which [getUser] goes on serving while it is fresh. *)
Theorem updateUserProfile_lost_reread_leaves_cache_stale
    (id : string) (data : PartialUser) (old : User) (w : World) :
  db = true →
  fault (length (trace w)) = false → fault (S (length (trace w))) = true →
  JsMap.get id (users w) = Some old →
  truthy (data_displayName data) || truthy (data_photoURL data) = true →
  ∃ w', updateUserProfile id data w = (Rejected "unavailable", w') ∧
    JsMap.get id (users w') = Some (apply_data data (clock (ticks w)) old) ∧
    cache w' = cache w ∧ detached w' = detached w ∧ posts w' = posts w ∧
    ∀ e, cache w !! id = Some e → is_fresh (clock (ticks w')) e = true →
      getUser id w' = (Resolved (Some (user e)), with_ticks (S (ticks w')) w').
Proof.
  intros Hdb Hok Hfail Hold Htruthy.
  eexists. split; [|split; [|split; [|split; [|split]]]].
  - unfold updateUserProfile, checkFirestore. rewrite Hdb.
    rewrite bind_run. simpl. rewrite bind_run. simpl.
    rewrite bind_run, roundtrip_ok by done.
    rewrite bind_run. simpl. rewrite Hold. rewrite bind_run. simpl.
    rewrite Htruthy. rewrite bind_run, bind_run.
    unfold getUserProfile, checkFirestore. rewrite Hdb.
    rewrite bind_run. simpl. rewrite bind_run. unfold roundtrip. mred. simpl.
    rewrite length_app. simpl. rewrite Nat.add_1_r, Hfail. reflexivity.
  - simpl. rewrite get_update_doc, decide_True, Hold by done. done.
  - done.
  - done.
  - done.
  - intros e He Hf. simpl in *. unfold getUser. rewrite bind_run.
    rewrite (cache_hit_some _ _ e) by done. simpl in *. rewrite Hf. reflexivity.
Qed.

(** X13.  When [updateUserProfile] starts a repair (lines 306-320 of
    firebaseUtils.ts).  On an initialised store that answers, for a
    profile that exists, the call starts a repair exactly when the data
    carry a display name or a photo URL that is not the empty string; the
    repair is given the name and photo of the updated profile, which for
    a field the data do not carry is the stored one, and the requests of
    the call begin with the write and the re-read of the profile (which
    of its own requests the repair has sent by then is left open).
    Otherwise -- a change of the bio, or of the display name to the
    empty string -- the profile is written, nothing is read back, no
    repair is started and the write is the only request. *)
Theorem updateUserProfile_repairs_on_nonempty_name_or_photo
    (id : string) (data : PartialUser) (old : User) (w : World) :
  db = true → answered_from (length (trace w)) →
  JsMap.get id (users w) = Some old →
  let now := clock (ticks w) in
  ∃ w', updateUserProfile id data w = (Resolved tt, w') ∧
    JsMap.get id (users w') = Some (apply_data data now old) ∧
    ((∃ s, data_displayName data = Some s ∧ s ≠ "") ∨
     (∃ s, data_photoURL data = Some s ∧ s ≠ "") →
     detached w' = detached w ++
       [Repair id (default (displayName old) (data_displayName data))
                  (default (photoURL old) (data_photoURL data))] ∧
     ∃ rest, trace w' = trace w ++ UpdateDoc id data now :: GetDoc id :: rest) ∧
    (data_displayName data = None ∨ data_displayName data = Some "" →
     data_photoURL data = None ∨ data_photoURL data = Some "" →
     detached w' = detached w ∧
     trace w' = trace w ++ [UpdateDoc id data now]).
Proof.
  intros Hdb Hok Hold now.
  eexists. split; [apply updateUserProfile_ok; done|]. simpl.
  split; [rewrite get_update_doc, decide_True, Hold by done; done|].
  unfold started. split.
  - intros Hyes.
    assert (truthy (data_displayName data) || truthy (data_photoURL data) = true) as ->.
    { apply orb_true_iff. destruct Hyes as [(s & -> & Hs)|(s & -> & Hs)]; [left|right];
        simpl; apply bool_decide_eq_true_2; done. }
    split; [done|]. exists []. done.
  - intros Hname Hphoto.
    assert (truthy (data_displayName data) || truthy (data_photoURL data) = false) as ->.
    { apply orb_false_iff.
      split; [destruct Hname as [-> | ->]|destruct Hphoto as [-> | ->]]; done. }
    rewrite app_nil_r. done.
Qed.

(** ** [getUserPosts] *)

Lemma insert_newest_first_perm a l : insert_newest_first a l ≡ₚ a :: l.
Proof.
  induction l as [|b l IH]; simpl; [done|].
  destruct (decide _); [done|]. rewrite IH. apply Permutation_swap.
Qed.

Lemma sort_newest_first_perm l : sort_newest_first l ≡ₚ l.
Proof.
  induction l as [|a l IH]; simpl; [done|].
  rewrite insert_newest_first_perm, IH. done.
Qed.

Lemma insert_newest_first_sorted a l :
  newest_first l → newest_first (insert_newest_first a l).
Proof.
  induction l as [|b l IH]; simpl; [done|]. intros [Hb Hl].
  destruct (decide (post_createdAt b ≤ post_createdAt a)%Z) as [Hle|Hgt]; simpl.
  - split; [|done]. constructor; [done|].
    eapply Forall_impl; [exact Hb|]. simpl. intros c Hc. lia.
  - split; [|auto]. rewrite insert_newest_first_perm. constructor; [lia|done].
Qed.

Lemma sort_newest_first_sorted l : newest_first (sort_newest_first l).
Proof.
  induction l as [|a l IH]; simpl; [done|]. apply insert_newest_first_sorted, IH.
Qed.

Lemma newest_first_fmap (f : Post → Post) l :
  (∀ p, post_createdAt (f p) = post_createdAt p) →
  newest_first l → newest_first (f <$> l).
Proof.
  intros Hf. induction l as [|a l IH]; simpl; [done|]. intros [Ha Hl].
  split; [|auto]. apply Forall_fmap. eapply Forall_impl; [exact Ha|].
  simpl. intros b Hb. rewrite !Hf. done.
Qed.

Lemma newest_first_lookup l : ∀ i j a b,
  newest_first l → i < j → l !! i = Some a → l !! j = Some b →
  (post_createdAt b ≤ post_createdAt a)%Z.
Proof.
  induction l as [|x l IH]; intros i j a b Hs Hij Hi Hj; [done|].
  destruct Hs as [Hx Hl]. destruct j as [|j]; [lia|]. simpl in Hj.
  destruct i as [|i]; simpl in Hi.
  - injection Hi as ->. rewrite Forall_forall in Hx. apply Hx.
    apply list_elem_of_lookup. eauto.
  - apply (IH i j); [done|lia|done..].
Qed.

(** X14.  [getUserPosts], lines 418-444 of firebaseUtils.ts: on an
    initialised store that answers it sends the query for the posts of
    the user, then the queries of the enrichment, and changes nothing in
    the store; it returns the posts of the user, each once, the newer
    before the older, each with a [comments] array. *)
Theorem getUserPosts_returns_the_posts_newest_first (userId : string) (w : World) :
  db = true → answered_from (length (trace w)) →
  ∃ result w', getUserPosts userId w = (Resolved result, w') ∧
    users w' = users w ∧ posts w' = posts w ∧
    (∃ evs, trace w' = trace w ++ PostsBy userId :: evs ∧ Forall is_query evs) ∧
    post_id <$> result ≡ₚ post_id <$> posts_by userId (posts w) ∧
    (∀ i j a b, i < j → result !! i = Some a → result !! j = Some b →
       (post_createdAt b ≤ post_createdAt a)%Z) ∧
    ∀ p, p ∈ result → post_authorId p = userId ∧ is_Some (post_comments p).
Proof.
  intros Hdb Hok.
  set (own := with_comments_array <$> posts_by userId (posts w)).
  set (w1 := with_trace (trace w ++ [PostsBy userId]) w).
  assert (answered_from (length (trace w1))) as Hok1.
  { intros i Hi. apply Hok. unfold w1 in Hi. simpl in Hi.
    rewrite length_app in Hi. lia. }
  destruct (getUsers_resolves (authorIds (sort_newest_first own)) w1 Hdb Hok1)
    as (us & w2 & Hrun).
  assert (Hro := reads_only_getUsers (authorIds (sort_newest_first own)) w1).
  rewrite Hrun in Hro. cbn [snd] in Hro.
  destruct Hro as (Hu2 & Hp2 & _ & evs & Ht2 & Hq).
  exists (enrich_post us <$> sort_newest_first own), w2.
  split; [|split; [done|split; [done|split; [|split; [|split]]]]].
  - unfold getUserPosts, checkFirestore. rewrite Hdb, bind_run. simpl.
    rewrite bind_run, roundtrip_ok by (apply Hok; lia).
    rewrite bind_run. simpl. fold own. fold w1.
    unfold enrichPostsWithUserData. rewrite bind_run, Hrun. reflexivity.
  - exists evs. split; [|done]. rewrite Ht2. unfold w1. simpl.
    rewrite <- app_assoc. done.
  - rewrite <- list_fmap_compose.
    rewrite (list_fmap_ext (post_id ∘ enrich_post us) post_id (sort_newest_first own))
      by (intros; unfold enrich_post; simpl; destruct (JsMap.get _ us); done).
    rewrite sort_newest_first_perm. unfold own. rewrite <- list_fmap_compose.
    apply Permutation_refl'. apply list_fmap_ext. done.
  - intros i j a b Hij Hi Hj.
    apply (newest_first_lookup (enrich_post us <$> sort_newest_first own) i j);
      [|done..].
    apply newest_first_fmap; [|apply sort_newest_first_sorted].
    intros p. unfold enrich_post. destruct (JsMap.get _ us); done.
  - intros p Hp. apply list_elem_of_fmap in Hp as (q & -> & Hq').
    rewrite sort_newest_first_perm in Hq'. unfold own in Hq'.
    apply list_elem_of_fmap in Hq' as (r & -> & Hr).
    apply list_elem_of_filter in Hr as [Hr _].
    unfold enrich_post. destruct (JsMap.get _ us); simpl; eauto.
Qed.

(** ** [formatTimeAgo] *)

Lemma Zdiv_lt_iff (x k n : Z) : (0 < k)%Z → (x / k < n ↔ x < n * k)%Z.
Proof.
  intros Hk. split; intros H.
  - apply Z.nle_gt. intros Hle. apply Z.nle_gt in H. apply H.
    apply Z.div_le_lower_bound; lia.
  - apply Z.div_lt_upper_bound; lia.
Qed.

(** The text is a function of the age of the date: the nested quotients
    of the source are quotients of the age itself. *)
Lemma formatTimeAgo_age parse now d t :
  denotes parse d t →
  formatTimeAgo parse now d = (text_of_age (now - t), []).
Proof.
  intros Hd.
  assert (formatTimeAgo parse now d = formatTimeAgo parse now (JsDate (Some t))) as ->.
  { destruct d as [time|time|s|n|]; simpl in Hd.
    - subst. done.
    - subst. done.
    - destruct Hd as [Hs Hp]. unfold formatTimeAgo.
      rewrite decide_False by done. rewrite Hp. done.
    - destruct Hd as [Hn Hd]. unfold formatTimeAgo.
      rewrite decide_False by done. rewrite Hd. done.
    - done. }
  unfold formatTimeAgo, text_of_age, minute_ms, hour_ms, day_ms.
  generalize (now - t)%Z. intros x.
  rewrite !Z.div_div by lia.
  assert (∀ k n, (0 < k)%Z → (x / k < n)%Z → (x < n * k)%Z) as Hlt
    by (intros k n Hk; apply Zdiv_lt_iff; done).
  assert (∀ k n, (0 < k)%Z → ¬ (x / k < n)%Z → ¬ (x < n * k)%Z) as Hge
    by (intros k n Hk H1 H2; apply H1, Zdiv_lt_iff; done).
  destruct (decide (x / 1000 < 60)%Z) as [H1|H1];
    [apply Hlt in H1; [|lia]|apply Hge in H1; [|lia]].
  { rewrite (decide_True (P := (x < 60 * 1000)%Z)) by lia. done. }
  rewrite (decide_False (P := (x < 60 * 1000)%Z)) by lia.
  destruct (decide (x / (1000 * 60) < 60)%Z) as [H2|H2];
    [apply Hlt in H2; [|lia]|apply Hge in H2; [|lia]].
  { rewrite (decide_True (P := (x < 60 * (60 * 1000))%Z)) by lia. done. }
  rewrite (decide_False (P := (x < 60 * (60 * 1000))%Z)) by lia.
  destruct (decide (x / (1000 * 60 * 60) < 24)%Z) as [H3|H3];
    [apply Hlt in H3; [|lia]|apply Hge in H3; [|lia]].
  { rewrite (decide_True (P := (x < 24 * (60 * (60 * 1000)))%Z)) by lia. done. }
  rewrite (decide_False (P := (x < 24 * (60 * (60 * 1000)))%Z)) by lia.
  destruct (decide (x / (1000 * 60 * 60 * 24) < 7)%Z) as [H4|H4];
    [apply Hlt in H4; [|lia]|apply Hge in H4; [|lia]].
  { rewrite (decide_True (P := (x < 7 * (24 * (60 * (60 * 1000))))%Z)) by lia. done. }
  rewrite (decide_False (P := (x < 7 * (24 * (60 * (60 * 1000))))%Z)) by lia.
  destruct (decide (x / (1000 * 60 * 60 * 24 * 7) < 4)%Z) as [H5|H5];
    [apply Hlt in H5; [|lia]|apply Hge in H5; [|lia]].
  { rewrite (decide_True (P := (x < 28 * (24 * (60 * (60 * 1000))))%Z)) by lia.
    rewrite (Z.mul_comm 7). done. }
  rewrite (decide_False (P := (x < 28 * (24 * (60 * (60 * 1000))))%Z)) by lia.
  destruct (decide (x / (1000 * 60 * 60 * 24 * 30) < 12)%Z) as [H6|H6];
    [apply Hlt in H6; [|lia]|apply Hge in H6; [|lia]].
  { rewrite (decide_True (P := (x < 360 * (24 * (60 * (60 * 1000))))%Z)) by lia.
    rewrite (Z.mul_comm 30). done. }
  rewrite (decide_False (P := (x < 360 * (24 * (60 * (60 * 1000))))%Z)) by lia.
  rewrite (Z.mul_comm 365). done.
Qed.

(** X15.  [formatTimeAgo], lines 3-64 of utils.ts, as a function of the
    age of the date, in milliseconds: "just now" below a minute, then
    whole minutes below an hour, whole hours below a day, whole days
    below 7 days, whole weeks below 28 days, the age in units of 30 days
    below 360 days, and the age in units of 365 days from there on; the
    "s" of the plural is there when the count is above 1.  Nothing is
    written to the console.  The date is given as a [Date], a Firestore
    timestamp, a number or a string, and both it and the current time are
    time values at or after the epoch. *)
Theorem formatTimeAgo_is_a_function_of_the_age
    (parse : string → option Z) (now t : Z) (d : DateInput) :
  time_value now → time_value t → denotes parse d t →
  formatTimeAgo parse now d = (text_of_age (now - t), []).
Proof. intros _ _ Hd. apply formatTimeAgo_age. exact Hd. Qed.

(** X16.  The counts [formatTimeAgo] (lines 52-63 of utils.ts) can show:
    the switch from weeks to months is made at 4 weeks but months are
    counted in units of 30 days, and the switch to years is made at 12
    such months but years are counted in units of 365 days.  So a date
    28 or 29 days old reads "0 month ago", and a date 360 to 364 days old
    reads "0 year ago". *)
Theorem formatTimeAgo_shows_zero_months_and_zero_years
    (parse : string → option Z) (now t : Z) (d : DateInput) :
  time_value now → time_value t → denotes parse d t →
  ((28 * day_ms ≤ now - t < 30 * day_ms)%Z →
     formatTimeAgo parse now d = ("0 month ago", [])) ∧
  ((360 * day_ms ≤ now - t < 365 * day_ms)%Z →
     formatTimeAgo parse now d = ("0 year ago", [])).
Proof.
  intros _ _ Hd. rewrite (formatTimeAgo_age parse now d t Hd).
  unfold text_of_age, day_ms, hour_ms, minute_ms. split; intros Hage.
  - rewrite decide_False by lia. rewrite decide_False by lia.
    rewrite decide_False by lia. rewrite decide_False by lia.
    rewrite decide_False by lia. rewrite decide_True by lia.
    rewrite (Z.div_small (now - t)) by lia. reflexivity.
  - rewrite decide_False by lia. rewrite decide_False by lia.
    rewrite decide_False by lia. rewrite decide_False by lia.
    rewrite decide_False by lia. rewrite decide_False by lia.
    rewrite (Z.div_small (now - t)) by lia. reflexivity.
Qed.

(** X17.  When [formatTimeAgo] (lines 3-35 of utils.ts) says "just now":
    for a date less than a minute old, which includes every date in the
    future, silently; and, with one warning on the console, for every
    value that is not a way to write a time -- an invalid [Date], a
    string that does not parse, the empty string, [null] -- among them
    the number 0, which as a time value is the epoch and which the test
    [date && typeof date === 'number'] turns down. *)
Theorem formatTimeAgo_says_just_now
    (parse : string → option Z) (now : Z) (d : DateInput) :
  time_value now →
  (∀ t, time_value t → denotes parse d t → (now - t < minute_ms)%Z →
     formatTimeAgo parse now d = ("just now", [])) ∧
  ((∀ t, ¬ denotes parse d t) →
     ∃ warning, formatTimeAgo parse now d = ("just now", [warning])) ∧
  formatTimeAgo parse now (DateNumber 0) =
    ("just now", ["Invalid date format passed to formatTimeAgo:"]).
Proof.
  intros _. split; [|split; [|reflexivity]].
  - intros t _ Hd Hage. rewrite (formatTimeAgo_age parse now d t Hd).
    unfold text_of_age. rewrite decide_True by done. reflexivity.
  - intros Hno. destruct d as [[t|]|[t|]|s|n|]; simpl in Hno.
    + destruct (Hno t eq_refl).
    + eexists. reflexivity.
    + destruct (Hno t eq_refl).
    + eexists. reflexivity.
    + unfold formatTimeAgo. destruct (decide (s = "")) as [|Hs]; [eexists; done|].
      destruct (parse s) as [t|]; [|eexists; done]. destruct (Hno t). done.
    + unfold formatTimeAgo. destruct (decide (n = 0%Z)) as [|Hn]; [eexists; done|].
      destruct (new_Date n) as [t|]; [|eexists; done]. destruct (Hno t). done.
    + eexists. reflexivity.
Qed.

(** ** A detached repair, whenever it runs *)

Lemma later_refl w : later w w.
Proof. repeat split; done. Qed.

Lemma later_trans w1 w2 w3 : later w1 w2 → later w2 w3 → later w1 w3.
Proof.
  intros (Hu & Hi & Ha & Ht & Hc) (Hu' & Hi' & Ha' & Ht' & Hc').
  repeat split; [congruence..|lia|auto].
Qed.

Lemma keeps_same {A} (m : M A) :
  (∀ w, users (m w).2 = users w ∧ posts (m w).2 = posts w ∧
        length (trace w) ≤ length (trace (m w).2) ∧ cache (m w).2 = cache w) →
  keeps m.
Proof.
  intros H w. destruct (H w) as (Hu & Hp & Ht & Hc).
  repeat split; [congruence..|done|]. intros k Hk. rewrite Hc. done.
Qed.

Lemma keeps_bind {A B} (m : M A) (k : A → M B) :
  keeps m → (∀ a, keeps (k a)) → keeps (m ≫= k).
Proof.
  intros Hm Hk w. rewrite bind_run. specialize (Hm w).
  destruct (m w) as [[a|e] w1]; simpl in *; [|done].
  eapply later_trans; [exact Hm|apply Hk].
Qed.

Lemma keeps_for_fold {A S} (body : S → A → M S) xs :
  (∀ s x, keeps (body s x)) → ∀ s, keeps (for_fold body s xs).
Proof.
  intros Hbody. induction xs as [|x xs IH]; intros s; simpl.
  - intros w. apply later_refl.
  - apply keeps_bind; [apply Hbody|apply IH].
Qed.

Lemma keeps_catch {A} (m : M A) (handler : string → M A) :
  keeps m → (∀ e, keeps (handler e)) → keeps (catch m handler).
Proof.
  intros Hm Hh w. unfold catch. specialize (Hm w).
  destruct (m w) as [[a|e] w1]; simpl in *; [done|].
  eapply later_trans; [exact Hm|apply Hh].
Qed.

Lemma keeps_roundtrip e : keeps (roundtrip e).
Proof.
  apply keeps_same. intros w. unfold roundtrip. rewrite bind_run. simpl.
  rewrite bind_run. simpl.
  destruct (fault (length (trace w))); simpl; rewrite length_app; simpl;
    repeat split; lia.
Qed.

Lemma apply_ops_keys ops ps :
  post_id <$> apply_ops ops ps = post_id <$> ps ∧
  post_authorId <$> apply_ops ops ps = post_authorId <$> ps.
Proof.
  rewrite apply_ops_fmap, <- !list_fmap_compose.
  assert (∀ p, post_id (foldl (λ p op, apply_op op p) p ops) = post_id p ∧
               post_authorId (foldl (λ p op, apply_op op p) p ops) = post_authorId p)
    as Hkeys.
  { induction ops as [|op ops IH]; intros p; simpl; [done|].
    destruct (IH (apply_op op p)) as [-> ->].
    destruct op as [i n ph t|i cs]; simpl; destruct (decide (post_id p = i)); done. }
  split; apply list_fmap_ext; intros i p _; simpl; apply Hkeys.
Qed.

Lemma keeps_batch_update op b : keeps (batch_update op b).
Proof.
  intros w. unfold batch_update. destruct (committed b); apply later_refl.
Qed.

Lemma keeps_batch_commit b : keeps (batch_commit b).
Proof.
  unfold batch_commit. destruct (committed b); [intros w; apply later_refl|].
  destruct (mutations b) as [|op ops]; [intros w; apply later_refl|].
  apply keeps_bind; [apply keeps_roundtrip|]. intros _.
  apply keeps_bind; [|intros _ w; apply later_refl].
  intros w. simpl. destruct (apply_ops_keys (op :: ops) (posts w)) as [Hi Ha].
  repeat split; done.
Qed.

Lemma keeps_repair id name photo :
  keeps (updateUserContentReferences id name photo).
Proof.
  unfold updateUserContentReferences.
  apply keeps_bind; [destruct db; intros w; apply later_refl|]. intros _.
  apply keeps_bind; [apply keeps_roundtrip|]. intros _.
  apply keeps_bind; [intros w; apply later_refl|]. intros w0.
  apply keeps_bind.
  - apply keeps_for_fold. intros [batch n] postDoc.
    apply keeps_bind; [apply keeps_same; intros w; simpl; done|]. intros now.
    apply keeps_bind; [apply keeps_batch_update|]. intros b1.
    apply keeps_bind.
    + destruct (post_comments postDoc);
        [apply keeps_batch_update|intros w; apply later_refl].
    + intros b2. destruct (decide _); [|intros w; apply later_refl].
      apply keeps_bind; [apply keeps_batch_commit|]. intros b3 w. apply later_refl.
  - intros [batch n]. apply keeps_bind.
    + destruct (decide _); [|intros w; apply later_refl].
      apply keeps_bind; [apply keeps_batch_commit|]. intros _ w. apply later_refl.
    + intros _ w. simpl. repeat split; [done|].
      intros k Hk. destruct (decide (k = id)) as [->|Hne].
      * apply lookup_delete_eq.
      * simpl. rewrite lookup_delete_ne by done. done.
Qed.

(** A step of the event loop on a detached repair resolves, whatever
    the repair does, and leaves a [later] world. *)
Lemma run_detached_background : background run_detached.
Proof.
  intros w. unfold run_detached. rewrite bind_run. simpl.
  destruct (detached w) as [|[id name photo] rest].
  - exists w. split; [done|apply later_refl].
  - rewrite bind_run. simpl. unfold catch.
    assert (Hk := keeps_repair id name photo (with_detached rest w)).
    destruct (updateUserContentReferences id name photo (with_detached rest w))
      as [[[]|e] w1]; simpl in *.
    + exists w1. done.
    + eexists. split; [reflexivity|].
      destruct Hk as (Hu & Hi & Ha & Ht & Hc). simpl.
      repeat split; [done..|simpl; rewrite ?length_app; simpl in *; lia|done].
Qed.

Lemma posts_by_keys a : ∀ l l' : list Post,
  post_id <$> l' = post_id <$> l →
  post_authorId <$> l' = post_authorId <$> l →
  post_id <$> posts_by a l' = post_id <$> posts_by a l.
Proof.
  unfold posts_by.
  induction l as [|p l IH]; intros [|p' l'] Hi Ha; try discriminate; [done|].
  rewrite !fmap_cons in Hi, Ha. injection Hi as Hi Hil. injection Ha as Ha Hal.
  destruct (decide (post_authorId p = a)) as [Hp|Hp].
  - rewrite !filter_cons_True by congruence. rewrite !fmap_cons.
    f_equal; [done|auto].
  - rewrite !filter_cons_False by congruence. auto.
Qed.

Lemma idle_background : background (ret tt).
Proof. intros w. exists w. split; [done|apply later_refl]. Qed.


(** ** Posts, likes, comments and profiles *)

Section CloudFacts.

Variable storage : bool.
Variable refused : nat → bool.
Variable auto_id : nat → string.
Variable download_url : string → string.

Ltac nred :=
  cbv beta iota zeta delta
    [mbind mret N_bind N_ret bindN retN throwN lift get_cloud modifyN request
     checkFirestoreN new_Date_now checkStorage try_catch
     M_bind M_ret bind ret throw get_world modify emit Date_now checkFirestore
     getUserProfile roundtrip].

Ltac nstep :=
  cbv beta iota zeta delta
    [mbind mret N_bind N_ret bindN retN throwN lift get_cloud modifyN try_catch].

Lemma get_post_update_post id f ps :
  (∀ p, post_id (f p) = post_id p) →
  get_post id (update_post id f ps) = f <$> get_post id ps.
Proof.
  intros Hf. unfold get_post, update_post.
  induction ps as [|p ps IH]; simpl; [done|].
  destruct (decide (post_id p = id)) as [Hp|Hp].
  - rewrite !filter_cons_True by (rewrite ?Hf; done). done.
  - rewrite !filter_cons_False by done. exact IH.
Qed.

Lemma update_post_other id f ps i p :
  ps !! i = Some p → post_id p ≠ id → update_post id f ps !! i = Some p.
Proof.
  intros Hi Hp. unfold update_post. rewrite list_lookup_fmap, Hi. simpl.
  rewrite decide_False by done. done.
Qed.

(** One call of [toggleLike] on a post that exists, when both requests
    are granted. *)
Lemma toggleLike_run postId userId c post :
  db = true →
  refused (length (requests c)) = false →
  refused (S (length (requests c))) = false →
  get_post postId (posts (world c)) = Some post →
  let likes' := if decide (userId ∈ post_likes post)
                then filter (λ id, id ≠ userId) (post_likes post)
                else post_likes post ++ [userId] in
  toggleLike refused postId userId c =
    (Resolved tt,
     mkCloud (with_posts (update_post postId (with_likes likes') (posts (world c)))
                (world c))
       (comment_docs c) (uploads c)
       (requests c ++ [GetPost postId; UpdateLikes postId likes'])).
Proof.
  intros Hdb H1 H2 Hpost. destruct c as [w docs ups reqs]. simpl in *.
  unfold toggleLike. nred. rewrite Hdb. nred. simpl. rewrite H1. nred. simpl.
  rewrite Hpost. nred. simpl. rewrite length_app. simpl.
  rewrite Nat.add_1_r, H2. nred. simpl. rewrite <- app_assoc. destruct w; reflexivity.
Qed.

(** X18.  [toggleLike], lines 451-472 of firebaseUtils.ts, on a post
    that exists, with Firestore initialised and both requests granted:
    the user is among the likes of the post afterwards exactly when they
    were not before; nobody else's like changes, nor the order of the
    likes that stay; a list of likes without repetition stays one; no
    other field of the post and no other post changes.  A second call
    by a user who had not liked the post brings back the likes it had. *)
Theorem toggleLike_flips_the_like_of_the_user
    (postId userId : string) (c : Cloud) (post : Post) :
  db = true → granted_from refused (length (requests c)) →
  get_post postId (posts (world c)) = Some post →
  ∃ c' likes',
    toggleLike refused postId userId c = (Resolved tt, c') ∧
    get_post postId (posts (world c')) = Some (with_likes likes' post) ∧
    (userId ∈ likes' ↔ userId ∉ post_likes post) ∧
    filter (λ id, id ≠ userId) likes' = filter (λ id, id ≠ userId) (post_likes post) ∧
    (NoDup (post_likes post) → NoDup likes') ∧
    (∀ i p, posts (world c) !! i = Some p → post_id p ≠ postId →
       posts (world c') !! i = Some p) ∧
    users (world c') = users (world c) ∧ comment_docs c' = comment_docs c ∧
    (userId ∉ post_likes post →
     ∃ c'', toggleLike refused postId userId c' = (Resolved tt, c'') ∧
       get_post postId (posts (world c'')) = Some post).
Proof.
  clear storage auto_id download_url.
  intros Hdb Hok Hpost.
  set (likes' := if decide (userId ∈ post_likes post)
                 then filter (λ id, id ≠ userId) (post_likes post)
                 else post_likes post ++ [userId]).
  assert (Hrun := toggleLike_run postId userId c post Hdb
                    (Hok _ (Nat.le_refl _)) (Hok _ (Nat.le_succ_diag_r _)) Hpost).
  simpl in Hrun. fold likes' in Hrun.
  eexists _, likes'. split; [exact Hrun|]. simpl.
  assert (get_post postId (update_post postId (with_likes likes') (posts (world c)))
          = Some (with_likes likes' post)) as Hpost'.
  { rewrite get_post_update_post by done. rewrite Hpost. done. }
  split; [exact Hpost'|]. split; [|split; [|split; [|split; [|split; [done|split; [done|]]]]]].
  - unfold likes'. destruct (decide (userId ∈ post_likes post)) as [Hin|Hout].
    + rewrite list_elem_of_filter. tauto.
    + rewrite elem_of_app, list_elem_of_singleton. tauto.
  - unfold likes'. destruct (decide (userId ∈ post_likes post)) as [Hin|Hout].
    + rewrite list_filter_filter. apply list_filter_iff. tauto.
    + rewrite filter_app, filter_cons_False by (intros H; apply H; done).
      rewrite filter_nil, app_nil_r. done.
  - intros Hnd. unfold likes'. destruct (decide (userId ∈ post_likes post)) as [Hin|Hout].
    + apply NoDup_filter. done.
    + apply NoDup_app. split; [done|]. split; [|apply NoDup_singleton].
      intros x Hx Hx'. apply list_elem_of_singleton in Hx' as ->. done.
  - intros i p Hi Hp. apply update_post_other; done.
  - intros Hout.
    assert (likes' = post_likes post ++ [userId]) as Hl
      by (unfold likes'; rewrite decide_False by done; done).
    eexists. split.
    + apply (toggleLike_run postId userId _ (with_likes likes' post)); simpl.
      * done.
      * apply Hok. rewrite length_app. lia.
      * apply Hok. rewrite length_app. lia.
      * exact Hpost'.
    + simpl. rewrite get_post_update_post by done. rewrite Hpost'. simpl.
      rewrite decide_True by (rewrite Hl, elem_of_app, list_elem_of_singleton; auto).
      rewrite Hl, filter_app, filter_cons_False by (intros H; apply H; done).
      rewrite filter_nil, app_nil_r.
      rewrite filter_all by (intros x Hx ->; done).
      destruct post; reflexivity.
Qed.

(** X19.  [toggleLike] on a post that does not exist (lines 451-472 of
    firebaseUtils.ts): the call resolves after the one read and writes
    nothing; when Firestore is not initialised it rejects before any
    request. *)
Theorem toggleLike_of_a_missing_post_writes_nothing
    (postId userId : string) (c : Cloud) :
  get_post postId (posts (world c)) = None →
  (db = true → refused (length (requests c)) = false →
   ∃ c', toggleLike refused postId userId c = (Resolved tt, c') ∧
     world c' = world c ∧ comment_docs c' = comment_docs c ∧
     requests c' = requests c ++ [GetPost postId]) ∧
  (db = false →
   ∃ c', toggleLike refused postId userId c =
           (Rejected "Firestore is not initialized. Please check your environment variables.",
            c') ∧
     requests c' = requests c ∧ posts (world c') = posts (world c)).
Proof.
  intros Hpost. destruct c as [w docs ups reqs]. simpl in *. split.
  - intros Hdb H1. exists (mkCloud w docs ups (reqs ++ [GetPost postId])). split.
    + unfold toggleLike. nred. rewrite Hdb. nred. simpl. rewrite H1. nred. simpl.
      rewrite Hpost. destruct w; reflexivity.
    + done.
  - intros Hdb.
    exists (mkCloud
      (with_trace (trace w ++ [ConsoleError "Firestore is null. Firebase config:"]) w)
      docs ups reqs).
    split.
    + unfold toggleLike. nred. rewrite Hdb. nred. simpl. reflexivity.
    + done.
Qed.

(** *** Comments *)

Lemma addComment_run postId text user c :
  db = true →
  refused (length (requests c)) = false →
  refused (S (length (requests c))) = false →
  refused (S (S (length (requests c)))) = false →
  let w := world c in
  let newComment := mkComment (auto_id (length (requests c))) postId (uid user)
                      (displayName user) (photoURL user) text (clock (ticks w)) in
  addComment refused auto_id postId text user c =
    (Resolved newComment,
     match get_post postId (posts w) with
     | Some post =>
         let comments := default [] (post_comments post) ++ [newComment] in
         let updatedAt := clock (S (ticks w)) in
         mkCloud
           (mkWorld (cache w) (users w)
              (update_post postId (with_comments comments updatedAt) (posts w))
              (S (S (ticks w))) (trace w) (detached w))
           (comment_docs c ++ [newComment]) (uploads c)
           (requests c ++ [AddComment newComment; GetPost postId;
                           UpdateComments postId comments updatedAt])
     | None =>
         mkCloud
           (mkWorld (cache w) (users w) (posts w) (S (ticks w)) (trace w) (detached w))
           (comment_docs c ++ [newComment]) (uploads c)
           (requests c ++ [AddComment newComment; GetPost postId])
     end).
Proof.
  intros Hdb H1 H2 H3. destruct c as [w docs ups reqs]. simpl in *.
  unfold addComment. nred. rewrite Hdb. nred. simpl. rewrite H1. nred. simpl.
  rewrite length_app. simpl. rewrite Nat.add_1_r, H2. nred. simpl.
  destruct (get_post postId (posts w)) as [post|]; nred; simpl.
  - rewrite !length_app. simpl. rewrite <- Nat.add_assoc. simpl.
    replace (length reqs + 2) with (S (S (length reqs))) by lia.
    rewrite H3. nred. simpl. rewrite <- !app_assoc. reflexivity.
  - rewrite <- !app_assoc. reflexivity.
Qed.

Lemma deleteComment_run postId commentId c :
  db = true →
  refused (length (requests c)) = false →
  refused (S (length (requests c))) = false →
  refused (S (S (length (requests c)))) = false →
  let w := world c in
  deleteComment refused postId commentId c =
    match get_post postId (posts w) with
    | Some post =>
        match post_comments post with
        | Some cs =>
            let comments := filter (λ comment, comment_id comment ≠ commentId) cs in
            let updatedAt := clock (ticks w) in
            (Resolved tt,
             mkCloud
               (mkWorld (cache w) (users w)
                  (update_post postId (with_comments comments updatedAt) (posts w))
                  (S (ticks w)) (trace w) (detached w))
               (delete_comment_doc commentId (comment_docs c)) (uploads c)
               (requests c ++ [GetPost postId;
                               UpdateComments postId comments updatedAt;
                               DeleteDoc "comments" commentId]))
        | None =>
            (Rejected "TypeError: Cannot read properties of undefined (reading 'filter')",
             mkCloud w (comment_docs c) (uploads c) (requests c ++ [GetPost postId]))
        end
    | None =>
        (Resolved tt,
         mkCloud w (delete_comment_doc commentId (comment_docs c)) (uploads c)
           (requests c ++ [GetPost postId; DeleteDoc "comments" commentId]))
    end.
Proof.
  intros Hdb H1 H2 H3. destruct c as [w docs ups reqs]. simpl in *.
  unfold deleteComment, deleteDocument_comments. nred. rewrite Hdb. nred. simpl.
  rewrite H1. nred. simpl.
  destruct (get_post postId (posts w)) as [post|]; nred; simpl.
  - destruct (post_comments post) as [cs|]; nred; simpl.
    + rewrite length_app. simpl. rewrite Nat.add_1_r, H2. nred. simpl.
      rewrite !length_app. simpl.
      replace (length reqs + 1 + 1) with (S (S (length reqs))) by lia.
      rewrite H3. nred. simpl. rewrite <- !app_assoc. reflexivity.
    + destruct w; reflexivity.
  - rewrite length_app. simpl.
    rewrite Nat.add_1_r, H2. nred. simpl. rewrite <- !app_assoc.
    destruct w; reflexivity.
Qed.

(** X20.  [addComment], lines 475-505 of firebaseUtils.ts, with
    Firestore initialised and its requests granted: the comment carries
    the id [addDoc] gave, the post id and the id, display name and photo
    URL of the profile passed in; it is returned, added to the collection
    "comments" and put at the end of the [comments] array of the post,
    which starts an array if the post had none; no other post changes.
    When the post does not exist the comment is still created in the
    collection and returned, and no post is written. *)
Theorem addComment_appends_the_comment
    (postId text : string) (user : User) (c : Cloud) :
  db = true → granted_from refused (length (requests c)) →
  let newComment := mkComment (auto_id (length (requests c))) postId (uid user)
                      (displayName user) (photoURL user) text
                      (clock (ticks (world c))) in
  ∃ c', addComment refused auto_id postId text user c = (Resolved newComment, c') ∧
    comment_docs c' = comment_docs c ++ [newComment] ∧
    users (world c') = users (world c) ∧
    (∀ i p, posts (world c) !! i = Some p → post_id p ≠ postId →
       posts (world c') !! i = Some p) ∧
    match get_post postId (posts (world c)) with
    | Some post =>
        get_post postId (posts (world c')) =
          Some (with_comments (default [] (post_comments post) ++ [newComment])
                  (clock (S (ticks (world c)))) post)
    | None => posts (world c') = posts (world c)
    end.
Proof.
  intros Hdb Hok newComment.
  eexists. split.
  { apply addComment_run; [done|apply Hok; lia..]. }
  destruct (get_post postId (posts (world c))) as [post|] eqn:Hpost; simpl.
  - split; [done|]. split; [done|]. split.
    + intros i p Hi Hp. apply update_post_other; done.
    + rewrite get_post_update_post by done. rewrite Hpost. done.
  - done.
Qed.

(** X21.  [deleteComment], lines 507-525 of firebaseUtils.ts, with
    Firestore initialised and its requests granted.  On a post with a
    [comments] array it takes every entry with the comment id out of the
    array, keeps the others in their order, and deletes the document of
    the collection "comments".  On a post that does not exist it deletes
    the document all the same.  On a post without a [comments] array it
    rejects with the TypeError of [post.comments.filter] and the document
    of the collection "comments" stays. *)
Theorem deleteComment_removes_the_comment (postId commentId : string) (c : Cloud) :
  db = true → granted_from refused (length (requests c)) →
  match get_post postId (posts (world c)) with
  | Some post =>
      match post_comments post with
      | Some cs =>
          ∃ c', deleteComment refused postId commentId c = (Resolved tt, c') ∧
            get_post postId (posts (world c')) =
              Some (with_comments (filter (λ x, comment_id x ≠ commentId) cs)
                      (clock (ticks (world c))) post) ∧
            comment_docs c' = delete_comment_doc commentId (comment_docs c) ∧
            (∀ i p, posts (world c) !! i = Some p → post_id p ≠ postId →
               posts (world c') !! i = Some p)
      | None =>
          ∃ error c', deleteComment refused postId commentId c = (Rejected error, c') ∧
            posts (world c') = posts (world c) ∧ comment_docs c' = comment_docs c
      end
  | None =>
      ∃ c', deleteComment refused postId commentId c = (Resolved tt, c') ∧
        posts (world c') = posts (world c) ∧
        comment_docs c' = delete_comment_doc commentId (comment_docs c)
  end.
Proof.
  intros Hdb Hok.
  assert (Hrun := deleteComment_run postId commentId c Hdb
                    (Hok _ (Nat.le_refl _)) (Hok _ (Nat.le_succ_diag_r _))
                    (Hok (S (S (length (requests c)))) ltac:(lia))).
  simpl in Hrun.
  destruct (get_post postId (posts (world c))) as [post|] eqn:Hpost.
  - destruct (post_comments post) as [cs|] eqn:Hcs.
    + eexists. split; [exact Hrun|]. simpl.
      split; [rewrite get_post_update_post by done; rewrite Hpost; done|].
      split; [done|]. intros i p Hi Hp. apply update_post_other; done.
    + eexists _, _. split; [exact Hrun|]. done.
  - eexists. split; [exact Hrun|]. done.
Qed.

(** X22.  [addComment] and then [deleteComment] of the comment it
    returned (lines 475-525 of firebaseUtils.ts): when the id [addDoc]
    gave is new among the comments of the post and in the collection
    "comments", the array of the post and the collection are what they
    were before the two calls; a post that had no [comments] array has an
    empty one. *)
Theorem deleteComment_undoes_addComment
    (postId text : string) (user : User) (c : Cloud) (post : Post) :
  db = true → granted_from refused (length (requests c)) →
  get_post postId (posts (world c)) = Some post →
  auto_id (length (requests c)) ∉ comment_id <$> default [] (post_comments post) →
  auto_id (length (requests c)) ∉ comment_id <$> comment_docs c →
  ∃ newComment c1 c2,
    addComment refused auto_id postId text user c = (Resolved newComment, c1) ∧
    deleteComment refused postId (comment_id newComment) c1 = (Resolved tt, c2) ∧
    (∃ post', get_post postId (posts (world c2)) = Some post' ∧
       post_comments post' = Some (default [] (post_comments post)) ∧
       post_likes post' = post_likes post ∧ post_content post' = post_content post ∧
       post_authorId post' = post_authorId post) ∧
    comment_docs c2 = comment_docs c.
Proof.
  intros Hdb Hok Hpost Hnew Hnew'.
  assert (Hadd := addComment_run postId text user c Hdb
                    (Hok _ (Nat.le_refl _)) (Hok _ (Nat.le_succ_diag_r _))
                    (Hok (S (S (length (requests c)))) ltac:(lia))).
  simpl in Hadd. rewrite Hpost in Hadd.
  set (newComment := mkComment _ _ _ _ _ _ _) in *.
  remember (mkCloud _ _ _ _) as c1 eqn:Hc1 in Hadd.
  assert (get_post postId (posts (world c1)) =
            Some (with_comments (default [] (post_comments post) ++ [newComment])
                    (clock (S (ticks (world c)))) post)) as Hpost1.
  { rewrite Hc1. simpl. rewrite get_post_update_post by done. rewrite Hpost. done. }
  assert (length (requests c1) = length (requests c) + 3) as Hlen.
  { rewrite Hc1. simpl. rewrite length_app. done. }
  assert (comment_docs c1 = comment_docs c ++ [newComment]) as Hdocs.
  { rewrite Hc1. done. }
  assert (Hdel := deleteComment_run postId (comment_id newComment) c1 Hdb).
  cbv zeta in Hdel. rewrite Hpost1 in Hdel.
  cbn [post_comments with_comments] in Hdel.
  exists newComment, c1. eexists. split; [exact Hadd|]. split.
  { apply Hdel; apply Hok; lia. }
  cbn [world comment_docs posts]. split.
  - eexists. split.
    + rewrite get_post_update_post by done. rewrite Hpost1. reflexivity.
    + simpl. split; [|done]. f_equal.
      rewrite filter_app, filter_cons_False by (intros H; apply H; done).
      rewrite filter_nil, app_nil_r. apply filter_all.
      intros x Hx Heq. apply Hnew. apply list_elem_of_fmap.
      exists x. split; [symmetry; exact Heq|exact Hx].
  - rewrite Hdocs. unfold delete_comment_doc.
    rewrite filter_app, filter_cons_False by (intros H; apply H; done).
    rewrite filter_nil, app_nil_r. apply filter_all.
    intros x Hx Heq. apply Hnew'. apply list_elem_of_fmap.
    exists x. split; [symmetry; exact Heq|exact Hx].
Qed.

(** *** Posts *)

Lemma createPost_image_run text name user c :
  db = true → storage = true →
  refused (length (requests c)) = false →
  refused (length (requests c) + 1) = false →
  let w := world c in
  let path := "posts/" +:+ pretty (clock (ticks w)) +:+ "_" +:+ name in
  let url := download_url path in
  let post := mkPost (auto_id (length (requests c) + 2)) (uid user) (displayName user)
                (photoURL user) text (if decide (url = "") then None else Some url)
                [] (Some []) (clock (S (ticks w))) (clock (S (S (ticks w)))) in
  createPost storage refused auto_id download_url
      (mkCreatePostData text (Some name)) user c =
    if refused (length (requests c) + 2) then
      (Rejected "unavailable",
       mkCloud (with_ticks (S (S (S (ticks w)))) w) (comment_docs c)
         (uploads c ++ [(path, name)])
         (requests c ++ [UploadBytes path name; GetDownloadURL path; AddPost post]))
    else
      (Resolved post,
       mkCloud (mkWorld (cache w) (users w) (posts w ++ [post]) (S (S (S (ticks w))))
                  (trace w) (detached w))
         (comment_docs c) (uploads c ++ [(path, name)])
         (requests c ++ [UploadBytes path name; GetDownloadURL path; AddPost post])).
Proof.
  intros Hdb Hst H1 H2. destruct c as [w docs ups reqs]. simpl in *.
  assert (∀ u : string, (if bool_decide (u ≠ "") then Some u else None) =
                        (if decide (u = "") then None else Some u)) as Hurl.
  { intros u. destruct (decide (u = "")) as [Hu|Hu].
    - rewrite bool_decide_eq_false_2 by (intros H; apply H; done). done.
    - rewrite bool_decide_eq_true_2 by done. done. }
  unfold createPost, uploadFile. nred. rewrite Hdb, Hst. nred. simpl.
  rewrite H1. nred. simpl.
  rewrite length_app. simpl. rewrite H2. nred. simpl.
  rewrite !length_app. simpl. rewrite <- Nat.add_assoc. simpl.
  rewrite Hurl.
  destruct (refused (length reqs + 2)); nred; simpl; rewrite <- !app_assoc; reflexivity.
Qed.

(** X23.  [createPost], lines 328-352 of firebaseUtils.ts, with
    Firestore initialised and its requests granted.  Without an image it
    sends one request and adds one document to the collection "posts":
    the post it returns, with the id [addDoc] gave, the id, display name
    and photo URL of the profile passed in, no image URL, no likes and an
    empty [comments] array.  With an image, and Storage initialised, the
    file is uploaded first, under a path made of the clock reading and
    its name, and the post carries the download URL unless that is the
    empty string. *)
Theorem createPost_stores_the_post_it_returns
    (text : string) (user : User) (c : Cloud) :
  db = true → granted_from refused (length (requests c)) →
  let w := world c in
  let n := length (requests c) in
  (∃ c',
     let post := mkPost (auto_id n) (uid user) (displayName user) (photoURL user)
                   text None [] (Some []) (clock (ticks w)) (clock (S (ticks w))) in
     createPost storage refused auto_id download_url (mkCreatePostData text None) user c
       = (Resolved post, c') ∧
     posts (world c') = posts w ++ [post] ∧
     requests c' = requests c ++ [AddPost post] ∧
     uploads c' = uploads c ∧ users (world c') = users w)
  ∧
  (∀ name, storage = true →
   ∃ c',
     let path := "posts/" +:+ pretty (clock (ticks w)) +:+ "_" +:+ name in
     let url := download_url path in
     let post := mkPost (auto_id (n + 2)) (uid user) (displayName user) (photoURL user)
                   text (if decide (url = "") then None else Some url)
                   [] (Some []) (clock (S (ticks w))) (clock (S (S (ticks w)))) in
     createPost storage refused auto_id download_url
       (mkCreatePostData text (Some name)) user c = (Resolved post, c') ∧
     posts (world c') = posts w ++ [post] ∧
     uploads c' = uploads c ++ [(path, name)] ∧
     requests c' = requests c ++ [UploadBytes path name; GetDownloadURL path; AddPost post]).
Proof.
  intros Hdb Hok w n. subst w n. destruct c as [w docs ups reqs]. simpl in *. split.
  - exists (mkCloud
      (mkWorld (cache w) (users w)
         (posts w ++ [mkPost (auto_id (length reqs)) (uid user) (displayName user)
                        (photoURL user) text None [] (Some [])
                        (clock (ticks w)) (clock (S (ticks w)))])
         (S (S (ticks w))) (trace w) (detached w))
      docs ups
      (reqs ++ [AddPost (mkPost (auto_id (length reqs)) (uid user) (displayName user)
                           (photoURL user) text None [] (Some [])
                           (clock (ticks w)) (clock (S (ticks w))))])).
    split.
    + unfold createPost. nred. rewrite Hdb. nred. simpl.
      rewrite (Hok (length reqs)) by lia. reflexivity.
    + simpl. done.
  - intros name Hst.
    assert (Hrun := createPost_image_run text name user (mkCloud w docs ups reqs)
                      Hdb Hst (Hok _ (Nat.le_refl _))
                      (Hok (length reqs + 1) (Nat.le_add_r _ _))).
    simpl in Hrun. rewrite (Hok (length reqs + 2)) in Hrun by lia.
    eexists. split; [exact Hrun|]. done.
Qed.

(** X24.  What [createPost] (lines 328-352 of firebaseUtils.ts) leaves
    behind when it fails.  With an image and without Storage it rejects
    before any request and before reading the clock.  When the upload
    went through and [addDoc] is refused, it rejects with no post
    created, and the uploaded file stays in Storage. *)
Theorem createPost_failure_can_leave_the_upload
    (text name : string) (user : User) (c : Cloud) :
  db = true →
  (storage = false →
   createPost storage refused auto_id download_url
     (mkCreatePostData text (Some name)) user c
     = (Rejected "Firebase Storage is not initialized. Please check your environment variables.",
        c))
  ∧
  (storage = true →
   refused (length (requests c)) = false →
   refused (length (requests c) + 1) = false →
   refused (length (requests c) + 2) = true →
   ∃ c', createPost storage refused auto_id download_url
           (mkCreatePostData text (Some name)) user c = (Rejected "unavailable", c') ∧
     posts (world c') = posts (world c) ∧
     uploads c' = uploads c ++
       [("posts/" +:+ pretty (clock (ticks (world c))) +:+ "_" +:+ name, name)]).
Proof.
  intros Hdb. destruct c as [w docs ups reqs]. simpl in *. split.
  - intros Hst. unfold createPost. nred. rewrite Hdb, Hst. nred. simpl.
    destruct w; reflexivity.
  - intros Hst H1 H2 H3.
    assert (Hrun := createPost_image_run text name user (mkCloud w docs ups reqs)
                      Hdb Hst H1 H2).
    simpl in Hrun. rewrite H3 in Hrun.
    eexists. split; [exact Hrun|]. done.
Qed.

(** X25.  [deletePost], lines 446-448 of firebaseUtils.ts, with
    Firestore initialised and the request granted: the post is gone, the
    other posts stay, in their order, and so do the documents of the
    collection "comments", those of the comments on the deleted post
    included.  For a post that does not exist the request is sent all the
    same and changes nothing. *)
Theorem deletePost_removes_the_post_and_keeps_its_comments (postId : string) (c : Cloud) :
  db = true → refused (length (requests c)) = false →
  ∃ c', deletePost refused postId c = (Resolved tt, c') ∧
    get_post postId (posts (world c')) = None ∧
    (∀ p, p ∈ posts (world c') ↔ p ∈ posts (world c) ∧ post_id p ≠ postId) ∧
    sublist (posts (world c')) (posts (world c)) ∧
    (get_post postId (posts (world c)) = None → posts (world c') = posts (world c)) ∧
    comment_docs c' = comment_docs c ∧
    requests c' = requests c ++ [DeleteDoc "posts" postId].
Proof.
  clear storage auto_id download_url.
  intros Hdb H1. destruct c as [w docs ups reqs]. simpl in *.
  exists (mkCloud (with_posts (delete_post postId (posts w)) w) docs ups
            (reqs ++ [DeleteDoc "posts" postId])).
  split.
  - unfold deletePost, deleteDocument_posts. nred. rewrite Hdb. nred. simpl.
    rewrite H1. destruct w; reflexivity.
  - simpl. unfold delete_post, get_post. split; [|split; [|split; [|split]]].
    + rewrite list_filter_filter.
      destruct (filter _ (posts w)) as [|p l] eqn:Hf; [done|].
      assert (p ∈ filter (λ x, post_id x = postId ∧ post_id x ≠ postId) (posts w)) as Hp
        by (rewrite Hf; left).
      apply list_elem_of_filter in Hp. tauto.
    + intros p. rewrite list_elem_of_filter. tauto.
    + apply sublist_filter.
    + intros Hnone. apply filter_all. intros p Hp Heq.
      assert (p ∈ filter (λ p, post_id p = postId) (posts w)) as Hin
        by (apply list_elem_of_filter; done).
      destruct (filter (λ p, post_id p = postId) (posts w)); [inversion Hin|done].
    + done.
Qed.

(** *** Profiles and the state of [AuthProvider] *)

Lemma lift_run {A} (m : M A) c o w' :
  m (world c) = (o, w') → lift m c = (o, with_world w' c).
Proof. intros H. unfold lift. rewrite H. reflexivity. Qed.

Lemma createUserProfile_run user c :
  db = true →
  let w := world c in
  let userData := mkUser (auth_uid user) (auth_email user) (auth_displayName user)
                    (auth_photoURL user) (Some "") (clock (ticks w))
                    (clock (S (ticks w))) in
  createUserProfile refused user c =
    if refused (length (requests c)) then
      (Rejected "unavailable",
       mkCloud (with_ticks (S (S (ticks w))) w) (comment_docs c) (uploads c)
         (requests c ++ [SetDoc (auth_uid user) userData]))
    else
      (Resolved userData,
       mkCloud (mkWorld (cache w) (JsMap.set (auth_uid user) userData (users w))
                  (posts w) (S (S (ticks w))) (trace w) (detached w))
         (comment_docs c) (uploads c)
         (requests c ++ [SetDoc (auth_uid user) userData])).
Proof.
  intros Hdb. destruct c as [w docs ups reqs]. simpl.
  unfold createUserProfile. nred. rewrite Hdb. nred. simpl.
  destruct (refused (length reqs)); reflexivity.
Qed.

(** X26.  Signing in gets the profile or creates it (the callback of
    [onAuthStateChanged], lines 41-62 of AuthContext.tsx, with
    [getUserProfile] and [createUserProfile] of firebaseUtils.ts).  With
    Firestore initialised, the lookup answered and the write granted: a
    user who has a profile gets it as it is stored, and nothing is
    written; a user who has none gets a new one, made of the uid, email,
    display name and photo URL of the account and an empty bio, which is
    the document then stored under the uid, next to the other profiles.
    In both cases loading is over. *)
Theorem sign_in_gets_or_creates_the_profile (u : AuthUser) (s : AuthState) (c : Cloud) :
  db = true → fault (length (trace (world c))) = false →
  refused (length (requests c)) = false →
  ∃ s' c', authStateChanged refused (Some u) s c = (Resolved s', c') ∧
    user_state s' = Some u ∧ loading s' = false ∧
    posts (world c') = posts (world c) ∧
    match JsMap.get (auth_uid u) (users (world c)) with
    | Some p =>
        userProfile s' = Some p ∧ users (world c') = users (world c) ∧
        requests c' = requests c
    | None =>
        let p := mkUser (auth_uid u) (auth_email u) (auth_displayName u)
                   (auth_photoURL u) (Some "") (clock (ticks (world c)))
                   (clock (S (ticks (world c)))) in
        userProfile s' = Some p ∧
        JsMap.get (auth_uid u) (users (world c')) = Some p ∧
        (∀ k, k ≠ auth_uid u →
           JsMap.get k (users (world c')) = JsMap.get k (users (world c))) ∧
        requests c' = requests c ++ [SetDoc (auth_uid u) p]
    end.
Proof.
  intros Hdb Hfault Hok. destruct c as [w docs ups reqs]. simpl in *.
  assert (getUserProfile (auth_uid u) w =
            (Resolved (JsMap.get (auth_uid u) (users w)),
             with_trace (trace w ++ [GetDoc (auth_uid u)]) w)) as Hget
    by (apply getUserProfile_ok; done).
  unfold authStateChanged. nstep. simpl. rewrite Hget.
  destruct (JsMap.get (auth_uid u) (users w)) as [p|] eqn:Hp.
  - eexists _, _. split; [reflexivity|]. done.
  - nstep. rewrite createUserProfile_run by done. simpl. rewrite Hok.
    eexists _, _. split; [reflexivity|]. simpl.
    split; [done|]. split; [done|]. split; [done|]. split; [done|].
    split; [rewrite JsMap_get_set, decide_True by done; done|].
    split; [|done]. intros k Hk. rewrite JsMap_get_set, decide_False by done. done.
Qed.

Lemma getUserProfile_outcome id w :
  match getUserProfile id w with
  | (Resolved r, w') =>
      db = true ∧ r = JsMap.get id (users w) ∧
      users w' = users w ∧ posts w' = posts w ∧ cache w' = cache w
  | (Rejected e, w') =>
      users w' = users w ∧ posts w' = posts w ∧ cache w' = cache w ∧
      (db = true → trace w' = trace w ++ [GetDoc id])
  end.
Proof.
  unfold getUserProfile, checkFirestore. nred. destruct db; nred; simpl.
  - destruct (fault (length (trace w))); nred; simpl; done.
  - done.
Qed.

(** X27.  The callback of [onAuthStateChanged], lines 41-62 of
    AuthContext.tsx, never rejects and always ends the loading state,
    whatever Firestore does.  On sign-out it clears the profile and
    touches nothing.  On sign-in it either sets the profile to the
    document stored under the uid of the user, or -- when the lookup or
    the creation failed -- logs the error and leaves the profile of the
    state as it was, which may be the profile of the user signed in
    before. *)
Theorem authStateChanged_never_rejects (user : option AuthUser) (s : AuthState) (c : Cloud) :
  ∃ s' c', authStateChanged refused user s c = (Resolved s', c') ∧
    user_state s' = user ∧ loading s' = false ∧
    match user with
    | None => userProfile s' = None ∧ c' = c
    | Some u =>
        (∃ p, userProfile s' = Some p ∧
              JsMap.get (auth_uid u) (users (world c')) = Some p) ∨
        (userProfile s' = userProfile s ∧ users (world c') = users (world c) ∧
         ∃ evs msg, trace (world c') = evs ++ [ConsoleError msg])
    end.
Proof.
  destruct c as [w docs ups reqs]. destruct user as [u|]; [|eexists _, _; done].
  unfold authStateChanged. nstep. simpl.
  assert (Hget := getUserProfile_outcome (auth_uid u) w).
  destruct (getUserProfile (auth_uid u) w) as [[[p|]|e] w1].
  - destruct Hget as (_ & Hp & Hu & _). eexists _, _. split; [reflexivity|]. simpl.
    split; [done|]. split; [done|]. left. exists p. rewrite Hu. done.
  - destruct Hget as (Hdb & _ & Hu & _). nstep.
    rewrite createUserProfile_run by done. simpl.
    destruct (refused (length reqs)).
    + eexists _, _. split; [reflexivity|]. simpl.
      split; [done|]. split; [done|]. right. split; [done|]. split; [done|]. eauto.
    + eexists _, _. split; [reflexivity|]. simpl.
      split; [done|]. split; [done|]. left. eexists. split; [done|].
      rewrite JsMap_get_set, decide_True by done. done.
  - destruct Hget as (Hu & _). eexists _, _. split; [reflexivity|]. simpl.
    split; [done|]. split; [done|]. right. split; [done|]. split; [done|]. eauto.
Qed.

(** X28.  [refreshUserProfile], lines 94-105 of AuthContext.tsx, never
    rejects and never clears the profile: the profile of the state
    afterwards is the one it had, or the document stored under the uid of
    the user.  It reads the store directly: it writes nothing, and the
    cache is neither asked nor told.  Signed out, it does nothing. *)
Theorem refreshUserProfile_never_clears_the_profile (s : AuthState) (c : Cloud) :
  ∃ s' c', refreshUserProfile s c = (Resolved s', c') ∧
    user_state s' = user_state s ∧ loading s' = loading s ∧
    users (world c') = users (world c) ∧ posts (world c') = posts (world c) ∧
    cache (world c') = cache (world c) ∧ requests c' = requests c ∧
    (userProfile s' = userProfile s ∨
     ∃ u p, user_state s = Some u ∧ userProfile s' = Some p ∧
            JsMap.get (auth_uid u) (users (world c)) = Some p) ∧
    (user_state s = None → c' = c).
Proof.
  destruct c as [w docs ups reqs]. unfold refreshUserProfile.
  destruct (user_state s) as [u|] eqn:Hus.
  2: { exists s, (mkCloud w docs ups reqs). split; [reflexivity|].
       rewrite Hus. repeat (split; [done|]). split; [left|]; done. }
  nstep. simpl.
  assert (Hget := getUserProfile_outcome (auth_uid u) w).
  destruct (getUserProfile (auth_uid u) w) as [[[p|]|e] w1].
  - destruct Hget as (_ & Hp & Hu & Hps & Hc). eexists _, _. split; [reflexivity|].
    simpl. repeat (split; [done|]). split; [|done]. right. exists u, p. done.
  - destruct Hget as (_ & Hp & Hu & Hps & Hc). eexists _, _. split; [reflexivity|].
    simpl. repeat (split; [done|]). split; [|done]. left. done.
  - destruct Hget as (Hu & Hps & Hc & _). eexists _, _. split; [reflexivity|].
    simpl. repeat (split; [done|]). split; [|done]. left. done.
Qed.

(** *** Saving the profile *)

Lemma getUserPosts_with_new_profile id new w :
  db = true → answered_from (length (trace w)) → wf_users (users w) →
  cache w !! id = None → JsMap.get id (users w) = Some new →
  ∃ result w2, getUserPosts id w = (Resolved result, w2) ∧
    posts w2 = posts w ∧ users w2 = users w ∧
    post_id <$> result ≡ₚ post_id <$> posts_by id (posts w) ∧
    ∀ p, p ∈ result →
      post_authorId p = id ∧ post_authorName p = displayName new ∧
      post_authorPhotoURL p = photoURL new.
Proof.
  intros Hdb Hok Hwf Hnone Hnew.
  set (own := with_comments_array <$> posts_by id (posts w)).
  set (w1 := with_trace (trace w ++ [PostsBy id]) w).
  assert (answered_from (length (trace w1))) as Hok1.
  { intros i Hi. apply Hok. unfold w1 in Hi. simpl in Hi.
    rewrite length_app in Hi. lia. }
  destruct (getUsers_resolves (authorIds (sort_newest_first own)) w1 Hdb Hok1)
    as (us & w2 & Hrun).
  assert (Hro := reads_only_getUsers (authorIds (sort_newest_first own)) w1).
  rewrite Hrun in Hro. cbn [snd] in Hro. destruct Hro as (Hu2 & Hp2 & _).
  exists (enrich_post us <$> sort_newest_first own), w2.
  split; [|split; [done|split; [done|split]]].
  - unfold getUserPosts, checkFirestore. rewrite Hdb, bind_run. simpl.
    rewrite bind_run, roundtrip_ok by (apply Hok; lia).
    rewrite bind_run. simpl. fold own. fold w1.
    unfold enrichPostsWithUserData. rewrite bind_run, Hrun. reflexivity.
  - rewrite <- list_fmap_compose.
    rewrite (list_fmap_ext (post_id ∘ enrich_post us) post_id (sort_newest_first own))
      by (intros; unfold enrich_post; simpl; destruct (JsMap.get _ us); done).
    rewrite sort_newest_first_perm. unfold own. rewrite <- list_fmap_compose.
    apply Permutation_refl'. apply list_fmap_ext. done.
  - intros p Hp. apply list_elem_of_fmap in Hp as (q & -> & Hq).
    assert (post_authorId q = id) as Hauthor.
    { rewrite sort_newest_first_perm in Hq. unfold own in Hq.
      apply list_elem_of_fmap in Hq as (r & -> & Hr).
      apply list_elem_of_filter in Hr as [Hr _]. done. }
    assert (JsMap.get id us = Some new) as Hus.
    { rewrite <- Hnew.
      apply (getUsers_lookup_no_entry (authorIds (sort_newest_first own)) w1 id us w2);
        try done.
      apply elem_of_authorIds. exists q. auto. }
    unfold enrich_post. rewrite Hauthor, Hus. done.
Qed.

(** X29.  Saving the profile as [handleSaveProfile] does (lines 183-207
    of page.tsx): [updateUserProfile] with the display name and bio of
    the form, then [refreshUserProfile], then [getUserPosts].  The
    repair that the update started is not awaited: [before] and
    [between] stand for what the event loop does on it before the
    refresh and before the posts are asked for, be it nothing, a part of
    the repair or all of it ([run_detached] is such a step: it may have
    rewritten the stored posts by then).  With Firestore initialised and
    answering, for a user whose profile exists, and whatever these steps
    are: the three calls resolve; the profile of the state is the stored
    one, with the new name and bio; the stored posts are the same
    documents, by their ids; the posts returned are the posts of the
    user, each showing the new display name. *)
Theorem saving_the_profile_shows_the_new_name
    (u : AuthUser) (name about : string) (old : User) (s : AuthState) (c : Cloud)
    (before between : M unit) :
  db = true → answered_from (length (trace (world c))) → wf_users (users (world c)) →
  user_state s = Some u → JsMap.get (auth_uid u) (users (world c)) = Some old →
  background before → background between →
  let data := mkPartialUser None None (Some name) None (Some about) None None in
  let new := apply_data data (clock (ticks (world c))) old in
  ∃ s' result c',
    (lift (updateUserProfile (auth_uid u) data) ;;
     lift before ;;
     s' ← refreshUserProfile s;
     lift between ;;
     result ← lift (getUserPosts (auth_uid u));
     mret (s', result)) c = (Resolved (s', result), c') ∧
    userProfile s' = Some new ∧ displayName new = name ∧ bio new = Some about ∧
    JsMap.get (auth_uid u) (users (world c')) = Some new ∧
    post_id <$> posts (world c') = post_id <$> posts (world c) ∧
    post_id <$> result ≡ₚ post_id <$> posts_by (auth_uid u) (posts (world c)) ∧
    ∀ p, p ∈ result → post_authorName p = name.
Proof.
  intros Hdb Hok Hwf Hus Hold Hbefore Hbetween data new.
  destruct c as [w docs ups reqs]. simpl in *.
  assert (Hupd := updateUserProfile_ok (auth_uid u) data w old Hdb Hok Hold).
  simpl in Hupd. remember (mkWorld _ _ _ _ _ _) as w1 eqn:Hw1 in Hupd.
  assert (length (trace w) ≤ length (trace w1)) as Ht1.
  { subst w1. simpl. rewrite length_app. lia. }
  assert (users w1 = update_doc (auth_uid u)
            (apply_data data (clock (ticks w))) (users w)) as Hu1 by (subst w1; done).
  assert (posts w1 = posts w) as Hp1 by (subst w1; done).
  assert (cache w1 !! auth_uid u = None) as Hc1.
  { subst w1. simpl. apply lookup_delete_eq. }
  destruct (Hbefore w1) as (w1' & Hrun1 & Hu1' & Hi1' & Ha1' & Ht1' & Hc1').
  assert (fault (length (trace w1')) = false) as Hf1 by (apply Hok; lia).
  assert (Hget := getUserProfile_ok (auth_uid u) w1' Hdb Hf1).
  assert (JsMap.get (auth_uid u) (users w1') = Some new) as Hnew.
  { rewrite Hu1', Hu1, get_update_doc, decide_True, Hold by done. done. }
  rewrite Hnew in Hget. remember (with_trace _ w1') as w2 eqn:Hw2 in Hget.
  assert (users w2 = users w1' ∧ posts w2 = posts w1' ∧ cache w2 = cache w1' ∧
          length (trace w1') ≤ length (trace w2)) as (Hu2 & Hp2 & Hc2 & Ht2).
  { subst w2. simpl. rewrite length_app. repeat split; lia. }
  destruct (Hbetween w2) as (w2' & Hrun2 & Hu2' & Hi2' & Ha2' & Ht2' & Hc2').
  assert (users w2' = users w1) as Husers by congruence.
  destruct (getUserPosts_with_new_profile (auth_uid u) new w2')
    as (result & w3 & Hposts & Hp3 & Hu3 & Hperm & Hnames).
  { done. }
  { intros i Hi. apply Hok. lia. }
  { rewrite Husers, Hu1. apply wf_users_update_doc; auto. }
  { apply Hc2'. rewrite Hc2. apply Hc1'. exact Hc1. }
  { congruence. }
  assert (post_id <$> posts w2' = post_id <$> posts w ∧
          post_authorId <$> posts w2' = post_authorId <$> posts w) as [Hids Hauthors].
  { rewrite Hi2', Ha2', Hp2, Hi1', Ha1', Hp1. done. }
  exists (mkAuthState (user_state s) (Some new) (loading s)), result,
    (mkCloud w3 docs ups reqs).
  split; [|split; [done|split; [done|split; [done|split; [|split; [|split]]]]]].
  - nstep. simpl. rewrite Hupd. nstep. simpl. rewrite Hrun1.
    unfold refreshUserProfile. rewrite Hus.
    nstep. simpl. rewrite Hget. nstep. simpl. rewrite Hrun2.
    nstep. simpl. rewrite Hposts. reflexivity.
  - simpl. rewrite Hu3. congruence.
  - simpl. rewrite Hp3. exact Hids.
  - rewrite Hperm, (posts_by_keys _ _ _ Hids Hauthors). done.
  - intros p Hp. apply Hnames in Hp as (_ & Hn & _). exact Hn.
Qed.

End CloudFacts.

(** ** The queries of the enrichment *)

Lemma NoDup_set_add x s : NoDup s → NoDup (set_add x s).
Proof.
  intros Hnd. unfold set_add. destruct (decide (x ∈ s)) as [|Hout]; [done|].
  apply NoDup_app. split; [done|]. split; [|apply NoDup_singleton].
  intros y Hy Hy'. apply list_elem_of_singleton in Hy' as ->. done.
Qed.

Lemma NoDup_authorIds ps : NoDup (authorIds ps).
Proof.
  unfold authorIds. generalize (NoDup_nil_2 (A := string)).
  generalize ([] : list string).
  induction ps as [|p ps IH]; intros ids Hnd; simpl; [done|].
  apply IH. generalize (NoDup_set_add (post_authorId p) ids Hnd).
  generalize (set_add (post_authorId p) ids).
  induction (default [] (post_comments p)) as [|c cs IHc]; intros ids' Hnd'; simpl;
    [done|].
  apply IHc, NoDup_set_add, Hnd'.
Qed.

(** X30.  The queries of [enrichPostsWithUserData], lines 375-416 of
    firebaseUtils.ts: the ids it asks [getUsers] for are the authors of
    the posts and of their comments, each once, however many posts and
    comments an author wrote.  With none of them cached, on an
    initialised store that answers, the call sends these ids, ten to a
    query, and nothing else. *)
Theorem enrich_asks_for_each_author_once (ps : list Post) (w : World) :
  db = true → answered_from (length (trace w)) →
  (∀ k, k ∈ authorIds ps → cache w !! k = None) →
  ∃ ps' w', enrichPostsWithUserData ps w = (Resolved ps', w') ∧
    trace w' = trace w ++ (UsersIn <$> slices (authorIds ps) 0) ∧
    length (slices (authorIds ps) 0) = (length (authorIds ps) + 9) / 10 ∧
    NoDup (authorIds ps) ∧
    ∀ x, x ∈ authorIds ps ↔
      ∃ p, p ∈ ps ∧
        (x = post_authorId p ∨
         ∃ c, c ∈ default [] (post_comments p) ∧ x = comment_authorId c).
Proof.
  intros Hdb Hok Hnone.
  destruct (getUsers_no_entries (authorIds ps) w Hdb Hok Hnone)
    as (w' & Hrun & Ht & _).
  eexists _, w'. split.
  { unfold enrichPostsWithUserData. rewrite bind_run, Hrun. reflexivity. }
  split; [exact Ht|]. split.
  { rewrite (slices_length (authorIds ps) (length (authorIds ps)) 0) by lia.
    rewrite Nat.sub_0_r. done. }
  split; [apply NoDup_authorIds|].
  intros x. rewrite elem_of_authorIds. split.
  - intros (p & Hp & [Hx|Hx]); exists p; (split; [done|]); [left; done|right].
    apply list_elem_of_fmap in Hx as (c & -> & Hc). eauto.
  - intros (p & Hp & [Hx|(c & Hc & Hx)]); exists p; (split; [done|]); [left; done|right].
    apply list_elem_of_fmap. eauto.
Qed.

End Program.

(** * The program on the scenarios *)

(** C1 at its failing input.  Alice renames herself in the world [feed];
    the call resolves and leaves the repair detached; the repair then
    runs to its end.  Read from the store afterwards, [p1] and [p2] carry
    the new name and avatar and Bob's comment on [p1] is as it was, but
    [p3], which Bob wrote, is the document it was before: the comment
    [c1] that Alice left on it still shows her old name and avatar.  This
    is so in every store with one document per post id: the repair never
    changes a post of another author. *)
Theorem repair_skips_comments_on_posts_of_others :
  (∃ w1 w2 p1' p2',
    updateUserProfile true steady reliable "alice" rename feed = (Resolved tt, w1) ∧
    detached w1 = [Repair "alice" "NewName" "newAvatar"] ∧
    run_detached true steady reliable w1 = (Resolved tt, w2) ∧
    detached w2 = [] ∧
    posts w2 = [p1'; p2'; p3] ∧
    post_id p1' = "p1" ∧ post_authorName p1' = "NewName" ∧
    post_authorPhotoURL p1' = "newAvatar" ∧ post_comments p1' = Some [c0] ∧
    post_id p2' = "p2" ∧ post_authorName p2' = "NewName" ∧
    post_authorPhotoURL p2' = "newAvatar" ∧
    post_comments p3 = Some [c1] ∧ comment_authorId c1 = "alice" ∧
    comment_authorName c1 = "Alice" ∧ comment_authorPhotoURL c1 = "alice.png")
  ∧
  (∀ db clock fault id name photo w i p,
     NoDup (post_id <$> posts w) →
     posts w !! i = Some p → post_authorId p ≠ id →
     posts (updateUserContentReferences db clock fault id name photo w).2 !! i
       = Some p).
Proof.
  split.
  - do 4 eexists. split; [vm_compute; reflexivity|].
    split; [reflexivity|]. split; [vm_compute; reflexivity|].
    repeat split.
  - intros db clock fault id name photo w i p Hnd Hi Hauthor.
    apply (repair_leaves_posts_of_others db clock fault id name photo w Hnd i p Hi Hauthor).
Qed.

(** C2 at its failing input.  Alice has 251 posts, each with the empty
    [comments] array [createPost] gives it.  The repair stages two
    updates per post and counts one, so the counter stands at 251 when
    the loop ends and the only commit carries 502 operations.  In
    general, for a user with at least one and fewer than 500 posts the
    single commit carries one operation per post and one more per post
    with a [comments] array.  With 501 posts that have no [comments]
    array the counter reaches 500 at the 500th post and that batch is
    committed, but the batch object is not replaced: staging the 501st
    post is refused, the repair rejects, and the 501st post keeps the old
    name. *)
Theorem repair_commits_more_than_500_operations :
  (let r := updateUserContentReferences true steady reliable
              "alice" "NewName" "newAvatar" (prolific (Some []) 251) in
   r.1 = Resolved tt ∧ commit_sizes (trace r.2) = [502])
  ∧
  (∀ db clock fault id name photo w,
     db = true → answered_from fault (length (trace w)) →
     0 < length (posts_by id (posts w)) < MAX_BATCH_SIZE →
     ∃ ops w',
       updateUserContentReferences db clock fault id name photo w = (Resolved tt, w') ∧
       trace w' = trace w ++ [PostsBy id; Commit ops] ∧
       length ops = length (posts_by id (posts w)) +
         length (filter (λ p, is_Some (post_comments p)) (posts_by id (posts w))))
  ∧
  (let r := updateUserContentReferences true steady reliable
              "alice" "NewName" "newAvatar" (prolific None 501) in
   r.1 = Rejected "A write batch can no longer be used after commit() has been called." ∧
   commit_sizes (trace r.2) = [500] ∧
   post_authorName <$> posts r.2 !! 499 = Some "NewName" ∧
   post_authorName <$> posts r.2 !! 500 = Some "Alice").
Proof.
  split; [vm_compute; done|]. split; [|vm_compute; done].
  intros db clock fault id name photo w Hdb Hok Hlen.
  destruct (repair_below_limit db clock fault id name photo w Hdb Hok Hlen)
    as (w' & Hrun & Ht & _ & Hops).
  eexists _, w'. split; [exact Hrun|]. split; [exact Ht|exact Hops].
Qed.

(** C5 as stated fails: with a fresh entry that the store has since
    moved on from, the mapping [getUsers] returns from the warm cache is
    not the one it returns from the cold cache. *)
Lemma getUsers_warm_and_cold_differ :
  (getUsers true steady reliable ["bob"] stale_cache).1 = Resolved [("bob", bob)] ∧
  (getUsers true steady reliable ["bob"] cold_cache).1 = Resolved [("bob", bob_renamed)] ∧
  (getUsers true steady reliable ["bob"] stale_cache).1 ≠
  (getUsers true steady reliable ["bob"] cold_cache).1.
Proof.
  assert ((getUsers true steady reliable ["bob"] stale_cache).1 = Resolved [("bob", bob)])
    as Hwarm by (vm_compute; reflexivity).
  assert ((getUsers true steady reliable ["bob"] cold_cache).1
          = Resolved [("bob", bob_renamed)]) as Hcold by (vm_compute; reflexivity).
  split; [done|]. split; [done|]. rewrite Hwarm, Hcold. discriminate.
Qed.

(** * The theorems at concrete inputs *)

Ltac by_compute :=
  lazymatch goal with
  | |- ?P => refine (@bool_decide_unpack P _ _); vm_compute; exact I
  end.

Lemma reliable_answers lo : answered_from reliable lo.
Proof. intros i _. reflexivity. Defined.

Lemma wf_users_two : wf_users [("alice", alice); ("bob", bob)].
Proof.
  split.
  - by_compute.
  - apply Forall_forall. repeat constructor.
Defined.

(** C4 on [warm]: Alice is served from the cache, Bob is fetched and
    cached, Carol does not exist. *)
Lemma getUser_on_warm_cache :
  getUser true steady reliable "alice" warm
    = (Resolved (Some alice), with_ticks 1 warm)
  ∧ (∃ w2, getUser true steady reliable "bob" warm = (Resolved (Some bob), w2) ∧
           trace w2 = [GetDoc "bob"] ∧
           ∃ e, cache w2 !! "bob" = Some e ∧ user e = bob)
  ∧ (∃ w1, getUser true steady reliable "carol" warm = (Resolved None, w1) ∧
           trace w1 = [GetDoc "carol"] ∧ cache w1 = cache warm).
Proof.
  split; [|split].
  - apply (proj1 (getUser_serves_fresh_entries_else_looks_up
                    true steady reliable "alice" warm) (mkCacheEntry alice 0)).
    + vm_compute. reflexivity.
    + vm_compute. reflexivity.
  - destruct (proj2 (getUser_serves_fresh_entries_else_looks_up
                       true steady reliable "bob" warm))
      as (w1 & _ & _ & _ & w2 & _ & Hrun & Ht & He).
    + reflexivity.
    + reflexivity.
    + left. vm_compute. reflexivity.
    + exists w2. split; [exact Hrun|]. split; [exact Ht|exact He].
  - destruct (proj2 (getUser_serves_fresh_entries_else_looks_up
                       true steady reliable "carol" warm))
      as (w1 & Ht & Hc & _ & Hrun).
    + reflexivity.
    + reflexivity.
    + left. vm_compute. reflexivity.
    + exists w1. split; [exact Hrun|]. split; [exact Ht|exact Hc].
Defined.

(** C7 with the 1001 [newcomers] written into the empty cache of
    [blank]: all are kept. *)
Lemma setUsers_1001_newcomers :
  ∃ w', setUsers steady newcomers blank = (Resolved tt, w') ∧
        size (cache w') = 1001 ∧ MAX_CACHE_SIZE < size (cache w').
Proof.
  destruct (proj2 (setUser_sweeps_expired_entries_only steady) newcomers blank)
    as (w' & Hrun & Hsize & Hover & _).
  - by_compute.
  - intros k _. apply lookup_empty.
  - intros i j _ _. vm_compute. reflexivity.
  - intros k e i He. unfold blank in He. simpl in He. rewrite lookup_empty in He. discriminate He.
  - exists w'. split; [exact Hrun|]. split; [exact Hsize|].
    apply Hover. vm_compute. lia.
Defined.

(** C5, as amended, on [warm]: Alice from the cache, Bob from the store,
    Carol nowhere. *)
Lemma getUsers_on_warm_cache :
  ∃ result w',
    getUsers true steady reliable ["alice"; "bob"; "carol"] warm
      = (Resolved result, w') ∧
    JsMap.get "alice" result = Some alice ∧
    JsMap.get "bob" result = Some bob ∧
    JsMap.get "carol" result = None ∧
    ∃ e, cache w' !! "bob" = Some e ∧ user e = bob.
Proof.
  destruct (getUsers_returns_resolved_ids true steady reliable
              ["alice"; "bob"; "carol"] warm 1000 eq_refl
              (reliable_answers _) wf_users_two)
    as (result & w' & Hrun & Hget & _ & _ & Hfill).
  - intros i k e _ _ _. reflexivity.
  - exists result, w'. split; [exact Hrun|].
    split; [rewrite Hget; vm_compute; reflexivity|].
    split; [rewrite Hget; vm_compute; reflexivity|].
    split; [rewrite Hget; vm_compute; reflexivity|].
    apply Hfill.
    + intros i j _ _. vm_compute. reflexivity.
    + by_compute.
    + vm_compute. reflexivity.
    + vm_compute. reflexivity.
Defined.


(** C10, as amended, on [feed], where nobody is called Carol. *)
Lemma carol_is_never_cached :
  (∃ w', getUser true steady reliable "carol" feed = (Resolved None, w') ∧
         cache w' = cache feed ∧ trace w' = [GetDoc "carol"])
  ∧ (∃ w', again 3 (getUser true steady reliable "carol") feed
             = (Resolved [None; None; None], w') ∧
           trace w' = [GetDoc "carol"; GetDoc "carol"; GetDoc "carol"])
  ∧ (∃ result w' queries,
       getUsers true steady reliable ["alice"; "carol"] feed = (Resolved result, w') ∧
       trace w' = UsersIn <$> queries ∧
       (∃ batch, batch ∈ queries ∧ "carol" ∈ batch) ∧
       JsMap.get "carol" result = None).
Proof.
  destruct (absence_is_never_cached true steady reliable "carol" feed eq_refl
              (reliable_answers _))
    as ((w1 & Hrun1 & Hc1 & Ht1 & _) & Hagain & Hmany & _).
  - split; [vm_compute; reflexivity|].
    apply Forall_forall. repeat constructor; discriminate.
  - intros e i He. unfold feed in He. simpl in He. rewrite lookup_empty in He. discriminate He.
  - split; [|split].
    + exists w1. split; [exact Hrun1|]. split; [exact Hc1|exact Ht1].
    + destruct (Hagain 3) as (w3 & Hrun3 & _ & Ht3). exists w3.
      split; [exact Hrun3|exact Ht3].
    + destruct (Hmany ["alice"; "carol"]) as (result & w' & queries & Hrun & Ht & Hq & Hnone & _).
      * by_compute.
      * exists result, w', queries. repeat split; assumption.
Defined.

(** C10 as stated fails for an id that has a fresh entry although the
    store has no profile for it: after [setUser], a public method of the
    cache, has been given a profile of Carol, who has no document in the
    store of [feed], [getUser] returns that profile and sends no lookup,
    and so does [getUsers]. *)
Lemma cached_profile_of_an_absent_id_is_served :
  absent (users feed) "carol" ∧
  ∃ w1 w2 result w3,
    setUser steady "carol" carol feed = (Resolved tt, w1) ∧
    users w1 = users feed ∧
    getUser true steady reliable "carol" w1 = (Resolved (Some carol), w2) ∧
    trace w2 = [] ∧
    getUsers true steady reliable ["carol"] w1 = (Resolved result, w3) ∧
    JsMap.get "carol" result = Some carol ∧ trace w3 = [].
Proof.
  split.
  - split; [vm_compute; reflexivity|].
    apply Forall_forall. repeat constructor; discriminate.
  - do 4 eexists. split; [vm_compute; reflexivity|].
    split; [reflexivity|]. split; [vm_compute; reflexivity|].
    split; [reflexivity|]. split; [vm_compute; reflexivity|].
    split; reflexivity.
Qed.

Lemma wf_users_renamed : wf_users [("bob", bob_renamed)].
Proof.
  split.
  - by_compute.
  - apply Forall_forall. repeat constructor.
Defined.

(** C8 on Alice's post [p1] and Bob's post [p3], in the store of
    [cold_cache], which knows Bob under his new name and does not know
    Alice: the post and the comment of Bob show the new name and photo,
    those of Alice stay as persisted, and everything else is as it
    was. *)
Lemma enrich_two_posts :
  ∃ ps' w' p1' c0' p3' c1',
    enrichPostsWithUserData true steady reliable [p1; p3] cold_cache = (Resolved ps', w') ∧
    users w' = users cold_cache ∧ posts w' = posts cold_cache ∧
    ps' !! 0 = Some p1' ∧ same_post_data p1 p1' ∧
    post_authorName p1' = "Alice" ∧ post_authorPhotoURL p1' = "alice.png" ∧
    default [] (post_comments p1') !! 0 = Some c0' ∧
    comment_authorName c0' = "Robert" ∧ comment_authorPhotoURL c0' = "robert.png" ∧
    ps' !! 1 = Some p3' ∧ same_post_data p3 p3' ∧
    post_authorName p3' = "Robert" ∧ post_authorPhotoURL p3' = "robert.png" ∧
    default [] (post_comments p3') !! 0 = Some c1' ∧
    comment_authorName c1' = "Alice" ∧ comment_authorPhotoURL c1' = "alice.png" ∧
    "bob" ∈ authorIds [p1; p3].
Proof.
  destruct (enrich_overwrites_resolved_author_fields_only true steady reliable
              [p1; p3] cold_cache) as ((Hu & Hp & _) & _ & Hspec & Hids & Hshown).
  destruct (Hshown 1000%Z eq_refl (reliable_answers _) wf_users_renamed)
    as (ps' & w' & Hrun & Hposts).
  { intros i k e _ _ He. unfold cold_cache in He. simpl in He.
    rewrite lookup_empty in He. discriminate He. }
  destruct (Hspec ps' w' Hrun) as (us & _ & _ & Hsame).
  destruct (Hposts 0 p1 eq_refl) as (p1' & H0 & (Hn1 & Hph1) & Hcs1).
  destruct (Hcs1 0 c0 eq_refl) as (c0' & Hc0 & (Hn0 & Hph0)).
  destruct (Hposts 1 p3 eq_refl) as (p3' & H1 & (Hn3 & Hph3) & Hcs3).
  destruct (Hcs3 0 c1 eq_refl) as (c1' & Hc1 & (Hnc1 & Hphc1)).
  destruct (Hsame 0 p1 eq_refl) as (q1 & Hq1 & Hsame1 & _).
  destruct (Hsame 1 p3 eq_refl) as (q3 & Hq3 & Hsame3 & _).
  rewrite H0 in Hq1. injection Hq1 as <-. rewrite H1 in Hq3. injection Hq3 as <-.
  rewrite Hrun in Hu, Hp. exists ps', w', p1', c0', p3', c1'.
  split; [exact Hrun|]. split; [exact Hu|]. split; [exact Hp|].
  split; [exact H0|]. split; [exact Hsame1|].
  split; [exact Hn1|]. split; [exact Hph1|]. split; [exact Hc0|].
  split; [exact Hn0|]. split; [exact Hph0|].
  split; [exact H1|]. split; [exact Hsame3|].
  split; [exact Hn3|]. split; [exact Hph3|]. split; [exact Hc1|].
  split; [exact Hnc1|]. split; [exact Hphc1|].
  apply Hids. exists p1. split; [left|]. right. exists c0. split; [left|reflexivity].
Defined.

(** C3 as stated fails on its second half: the entry is invalidated on
    completion of the repair as well.  After the update has returned, a
    [getUser] caches the renamed profile; when the repair then completes,
    that entry is gone again. *)
Lemma repair_completion_invalidates_again :
  ∃ w1 w2 w3 e,
    updateUserProfile true steady reliable "alice" rename feed_warm = (Resolved tt, w1) ∧
    cache w1 !! "alice" = None ∧
    detached w1 = [Repair "alice" "NewName" "newAvatar"] ∧
    (getUser true steady reliable "alice" w1).2 = w2 ∧
    cache w2 !! "alice" = Some e ∧
    displayName (user e) = "NewName" ∧ photoURL (user e) = "newAvatar" ∧
    run_detached true steady reliable w2 = (Resolved tt, w3) ∧
    detached w3 = [] ∧
    cache w3 !! "alice" = None.
Proof.
  do 4 eexists. split; [vm_compute; reflexivity|].
  split; [vm_compute; reflexivity|]. split; [reflexivity|].
  split; [vm_compute; reflexivity|]. split; [vm_compute; reflexivity|].
  split; [reflexivity|]. split; [reflexivity|].
  split; [vm_compute; reflexivity|]. split; [reflexivity|].
  vm_compute. reflexivity.
Qed.

(** C3, as amended, on [feed_warm]. *)
Lemma rename_invalidates_first :
  ∃ w' new w'',
    updateUserProfile true steady reliable "alice" rename feed_warm = (Resolved tt, w') ∧
    cache w' !! "alice" = None ∧
    posts w' = [p1; p2; p3] ∧
    detached w' = [Repair "alice" "NewName" "newAvatar"] ∧
    getUser true steady reliable "alice" w' = (Resolved (Some new), w'') ∧
    displayName new = "NewName" ∧ photoURL new = "newAvatar".
Proof.
  destruct (proj1 (proj2 (updateUserProfile_invalidates_before_repair
                     true steady reliable "alice" rename feed_warm))
              alice eq_refl (reliable_answers _) eq_refl)
    as (w' & Hrun & Hc & _ & Hp & Hd & Hname & Hphoto & w'' & Hget & _).
  exists w', (apply_data rename (steady 0) alice), w''.
  split; [exact Hrun|]. split; [exact Hc|]. split; [exact Hp|].
  split; [exact Hd|]. split; [exact Hget|].
  split; [apply Hname; reflexivity|apply Hphoto; reflexivity].
Defined.

(** C9 on [feed] with the store [commit_fails], whose fourth round trip,
    the commit of the repair, is rejected: the update resolves, the
    repair fails, the failure is logged and the posts stay as they
    were. *)
Lemma failed_repair_is_logged :
  ∃ w1 w2,
    updateUserProfile true steady commit_fails "alice" rename feed = (Resolved tt, w1) ∧
    cache w1 !! "alice" = None ∧
    detached w1 = [Repair "alice" "NewName" "newAvatar"] ∧
    run_detached true steady commit_fails w1 = (Resolved tt, w2) ∧
    last (trace w2) =
      Some (ConsoleError "Error updating user content references: unavailable") ∧
    detached w2 = [] ∧ posts w2 = [p1; p2; p3].
Proof.
  destruct (repair_failure_is_logged_and_swallowed true steady commit_fails)
    as (Hcaller & Hrepair & _).
  set (r1 := updateUserProfile true steady commit_fails "alice" rename feed).
  assert (r1 = (r1.1, r1.2)) as Hr1 by (destruct r1; reflexivity).
  destruct (Hcaller "alice" rename feed r1.1 r1.2
              (Repair "alice" "NewName" "newAvatar") Hr1) as (Hout & Hc).
  { vm_compute. reflexivity. }
  set (r2 := updateUserContentReferences true steady commit_fails
               "alice" "NewName" "newAvatar" (with_detached [] r1.2)).
  destruct (Hrepair r1.2 "alice" "NewName" "newAvatar" [] "unavailable" r2.2)
    as (Hrun & Hd & _).
  { vm_compute. reflexivity. }
  { vm_compute. reflexivity. }
  exists r1.2, (with_trace (trace r2.2 ++
    [ConsoleError ("Error updating user content references: " +:+ "unavailable")]) r2.2).
  split; [rewrite Hr1 at 1; rewrite Hout; reflexivity|].
  split; [exact Hc|]. split; [vm_compute; reflexivity|].
  split; [exact Hrun|]. split; [vm_compute; reflexivity|].
  split; [exact Hd|]. vm_compute. reflexivity.
Defined.

(** * More of the program at concrete inputs *)

Lemma granted_answers lo : granted_from granted lo.
Proof. intros i _. reflexivity. Defined.

(** X1 on [feed]: three reads of Bob's profile, one lookup. *)
Lemma bob_is_looked_up_once :
  ∃ w', again 3 (getUser true steady reliable "bob") feed
          = (Resolved [Some bob; Some bob; Some bob], w') ∧
        trace w' = [GetDoc "bob"].
Proof.
  destruct (getUser_repeated_reads_send_one_lookup true steady reliable
              "bob" bob 2 feed) as (w' & Hrun & Ht).
  - reflexivity.
  - reflexivity.
  - left. vm_compute. reflexivity.
  - vm_compute. reflexivity.
  - intros i j _ _. vm_compute. reflexivity.
  - exists w'. split; [exact Hrun|exact Ht].
Defined.

(** X3 on [warm]: once the cache is cleared, Alice is asked for again. *)
Lemma clearCache_on_warm_cache :
  ∃ w1 result w2,
    clearCache warm = (Resolved tt, w1) ∧ cache w1 = ∅ ∧
    getUsers true steady reliable ["alice"; "carol"] w1 = (Resolved result, w2) ∧
    trace w2 = [UsersIn ["alice"; "carol"]] ∧
    JsMap.get "alice" result = Some alice ∧ JsMap.get "carol" result = None.
Proof.
  destruct (clearCache_forgets_every_profile true steady reliable warm
              ["alice"; "carol"] eq_refl (reliable_answers _) wf_users_two)
    as (w1 & Hclear & Hc & _ & _ & _ & result & w2 & Hrun & Ht & Hget).
  exists w1, result, w2. split; [exact Hclear|]. split; [exact Hc|].
  split; [exact Hrun|]. split; [rewrite Ht; vm_compute; reflexivity|].
  split; rewrite Hget; vm_compute; reflexivity.
Defined.

(** X4 on [warm], without Firestore: Alice comes from the cache. *)
Lemma getUsers_warm_without_store :
  ∃ result,
    getUsers false steady reliable ["alice"] warm = (Resolved result, with_ticks 1 warm) ∧
    JsMap.get "alice" result = Some alice.
Proof.
  destruct (getUsers_served_from_cache_sends_nothing false steady reliable
              ["alice"] warm) as (result & Hrun & Hget).
  - intros k Hk. apply list_elem_of_singleton in Hk. rewrite Hk.
    exists (mkCacheEntry alice 0). split; [vm_compute; reflexivity|].
    intros i _. vm_compute. reflexivity.
  - exists result. split; [exact Hrun|]. rewrite Hget. vm_compute. reflexivity.
Defined.

(** X5 on [warm], without Firestore: Bob is not cached, and the call for
    Alice and Bob fails. *)
Lemma getUsers_miss_without_store :
  ∃ w', getUsers false steady reliable ["alice"; "bob"] warm
          = (Rejected "Firestore is not initialized", w') ∧
        trace w' = [] ∧ cache w' = cache warm.
Proof.
  destruct (getUsers_without_store_rejects_on_a_miss false steady reliable
              ["alice"; "bob"] "bob" warm) as (w' & Hrun & Ht & Hc & _).
  - reflexivity.
  - by_compute.
  - vm_compute. reflexivity.
  - exists w'. split; [exact Hrun|]. split; [exact Ht|exact Hc].
Defined.

(** X6 on [twenty_three], with the second of the three queries refused:
    the profile "3", which the first query brought back, is not
    cached. *)
Lemma getUsers_second_query_fails :
  ∃ w', getUsers true steady (fails_at 1) twenty_three two_of_them
          = (Rejected "unavailable", w') ∧
        length (trace w') = 2 ∧ cache w' = ∅.
Proof.
  set (r := getUsers true steady (fails_at 1) twenty_three two_of_them).
  assert (r = (Rejected "unavailable", r.2)) as Hrun by (vm_compute; reflexivity).
  destruct (getUsers_rejected_caches_nothing true steady (fails_at 1)
              twenty_three two_of_them r.2 "unavailable" Hrun) as (Hc & _).
  exists r.2. split; [exact Hrun|]. split; [vm_compute; reflexivity|exact Hc].
Defined.

(** X7 on [twenty_three]: three queries, the last for "20" to "22". *)
Lemma batchGetUsers_on_twenty_three :
  ∃ batches result w',
    batchGetUsers true reliable twenty_three two_of_them = (Resolved result, w') ∧
    trace w' = UsersIn <$> batches ∧
    length batches = 3 ∧ batches !! 2 = Some ["20"; "21"; "22"] ∧
    concat batches = twenty_three.
Proof.
  destruct (batchGetUsers_sends_one_query_per_ten_ids true reliable
              twenty_three two_of_them eq_refl (reliable_answers _))
    as (batches & result & w' & Hrun & Ht & Hlen & Hnth & Hcat & _).
  exists batches, result, w'. split; [exact Hrun|]. split; [exact Ht|].
  split; [rewrite Hlen; reflexivity|]. split; [|exact Hcat].
  rewrite (Hnth 2); [reflexivity|]. rewrite Hlen. vm_compute. lia.
Defined.

(** X8 on [thread]: the repair of Alice sends its query and at most one
    commit, of at most 500 operations; on her post [p4] her own comment gets the new name and
    photo and Bob's comment stays as it is; Bob's post [p3] is left. *)
Lemma repair_of_alice_on_thread :
  ∃ w' commits p4' c3',
    updateUserContentReferences true steady reliable
      "alice" "NewName" "newAvatar" thread = (Resolved tt, w') ∧
    trace w' = PostsBy "alice" :: commits ∧ length commits ≤ 1 ∧
    (∀ e, e ∈ commits → ∃ ops, e = Commit ops ∧ length ops ≤ 500) ∧
    posts w' !! 0 = Some p4' ∧
    post_authorName p4' = "NewName" ∧ post_authorPhotoURL p4' = "newAvatar" ∧
    post_content p4' = "four" ∧
    post_comments p4' = Some [c2; c3'] ∧
    comment_authorName c3' = "NewName" ∧ comment_authorPhotoURL c3' = "newAvatar" ∧
    comment_content c3' = "thanks" ∧ comment_authorId c3' = "alice" ∧
    posts w' !! 1 = Some p3.
Proof.
  destruct (repair_rewrites_the_posts_of_its_user true steady reliable
              "alice" "NewName" "newAvatar" thread eq_refl (reliable_answers _))
    as (w' & commits & Hrun & Ht & Hone & Hcap & _ & _ & _ & Hposts).
  - by_compute.
  - vm_compute. lia.
  - vm_compute. lia.
  - assert (H0 := Hposts 0 p4 eq_refl). assert (H1 := Hposts 1 p3 eq_refl).
    destruct H0 as (p4' & H0 & Hp4). destruct H1 as (p3' & H1 & Hp3).
    destruct (decide (post_authorId p4 = "alice")) as [_|Hne] in Hp4;
      [|exfalso; apply Hne; reflexivity].
    destruct (decide (post_authorId p3 = "alice")) as [Heq|_] in Hp3;
      [discriminate Heq|].
    destruct Hp4 as (Hn & Hph & _ & _ & Hcontent & _ & _ & _ & _ & Hcs).
    change (post_comments p4) with (Some [c2; c3]) in Hcs.
    destruct Hcs as (cs' & Hcs' & Hlen & Hcs).
    destruct (Hcs 0 c2 eq_refl) as (c2' & Hk0 & Hc2).
    destruct (Hcs 1 c3 eq_refl) as (c3' & Hk1 & Hc3).
    destruct (decide (comment_authorId c2 = "alice")) as [Heq|_] in Hc2;
      [discriminate Heq|].
    destruct (decide (comment_authorId c3 = "alice")) as [_|Hne] in Hc3;
      [|exfalso; apply Hne; reflexivity].
    destruct Hc3 as ((_ & _ & Haid & Hcc & _) & Hcn & Hcph).
    assert (cs' = [c2; c3']) as Hcs'2.
    { destruct cs' as [|x [|y [|z cs']]]; try discriminate Hlen.
      simpl in Hk0, Hk1. injection Hk0 as ->. injection Hk1 as ->.
      rewrite Hc2. reflexivity. }
    exists w', commits, p4', c3'. split; [exact Hrun|].
    split; [exact Ht|]. split; [exact Hone|]. split; [exact Hcap|].
    split; [exact H0|]. split; [exact Hn|]. split; [exact Hph|].
    split; [exact Hcontent|]. split; [rewrite Hcs', Hcs'2; reflexivity|].
    split; [exact Hcn|]. split; [exact Hcph|]. split; [exact Hcc|].
    split; [exact Haid|]. rewrite H1, Hp3. reflexivity.
Defined.

(** X9 on [feed_warm], with the commit refused: no post is rewritten and
    Alice's cache entry stays. *)
Lemma repair_with_refused_commit :
  ∃ w', updateUserContentReferences true steady (fails_at 1)
          "alice" "NewName" "newAvatar" feed_warm = (Rejected "unavailable", w') ∧
    posts w' = [p1; p2; p3] ∧ cache w' = cache feed_warm.
Proof.
  set (r := updateUserContentReferences true steady (fails_at 1)
              "alice" "NewName" "newAvatar" feed_warm).
  assert (r = (Rejected "unavailable", r.2)) as Hrun by (vm_compute; reflexivity).
  destruct (rejected_repair_below_limit_writes_nothing true steady (fails_at 1)
              "alice" "NewName" "newAvatar" feed_warm r.2 "unavailable")
    as (Hp & _ & Hc).
  - vm_compute. lia.
  - exact Hrun.
  - exists r.2. split; [exact Hrun|]. split; [exact Hp|exact Hc].
Defined.

(** X10 on [feed_warm]: right after Alice's rename, her post [p1] and
    her comment on Bob's post [p3] are shown with the new name. *)
Lemma enrich_right_after_rename :
  ∃ w1 ps' w2 p1' p3' c1',
    updateUserProfile true steady reliable "alice" rename feed_warm = (Resolved tt, w1) ∧
    posts w1 = [p1; p2; p3] ∧
    enrichPostsWithUserData true steady reliable [p1; p3] w1 = (Resolved ps', w2) ∧
    ps' !! 0 = Some p1' ∧ post_authorName p1' = "NewName" ∧
    ps' !! 1 = Some p3' ∧ default [] (post_comments p3') !! 0 = Some c1' ∧
    comment_authorName c1' = "NewName".
Proof.
  destruct (enrich_after_update_shows_the_new_profile true steady reliable
              "alice" rename alice feed_warm [p1; p3] eq_refl (reliable_answers _)
              wf_users_two eq_refl eq_refl)
    as (w1 & Hupd & Hp1 & ps' & w2 & Hrun & _ & _ & Hposts).
  destruct (Hposts 0 p1 eq_refl) as (p1' & H0 & Hname & _).
  destruct (Hposts 1 p3 eq_refl) as (p3' & H1 & _ & Hcs).
  destruct (Hcs 0 c1 eq_refl) as (c1' & Hc1 & Hcname).
  exists w1, ps', w2, p1', p3', c1'.
  split; [exact Hupd|]. split; [exact Hp1|]. split; [exact Hrun|].
  split; [exact H0|]. split; [apply Hname; reflexivity|].
  split; [exact H1|]. split; [exact Hc1|]. apply Hcname. reflexivity.
Defined.

(** X12 on [feed_warm], with the re-read refused: the store has the new
    name, the cache the old one, and [getUser] serves the old one. *)
Lemma rename_with_lost_reread :
  ∃ w', updateUserProfile true steady (fails_at 1) "alice" rename feed_warm
          = (Rejected "unavailable", w') ∧
    displayName <$> JsMap.get "alice" (users w') = Some "NewName" ∧
    cache w' = cache feed_warm ∧ detached w' = [] ∧
    getUser true steady (fails_at 1) "alice" w'
      = (Resolved (Some alice), with_ticks (S (ticks w')) w').
Proof.
  destruct (updateUserProfile_lost_reread_leaves_cache_stale true steady (fails_at 1)
              "alice" rename alice feed_warm)
    as (w' & Hrun & Hu & Hc & Hd & _ & Hget).
  - reflexivity.
  - reflexivity.
  - reflexivity.
  - reflexivity.
  - reflexivity.
  - exists w'. split; [exact Hrun|]. split; [rewrite Hu; reflexivity|].
    split; [exact Hc|]. split; [exact Hd|].
    apply (Hget (mkCacheEntry alice 0)); vm_compute; reflexivity.
Defined.

(** X13 on [feed]: renaming starts a repair, clearing the display name
    does not. *)
Lemma repair_starts_on_a_name :
  (∃ w', updateUserProfile true steady reliable "alice" rename feed = (Resolved tt, w') ∧
     detached w' = [Repair "alice" "NewName" "newAvatar"]) ∧
  (∃ w', updateUserProfile true steady reliable "alice"
           (mkPartialUser None None (Some "") None None None None) feed
           = (Resolved tt, w') ∧
     displayName <$> JsMap.get "alice" (users w') = Some "" ∧
     detached w' = [] ∧ trace w' = [UpdateDoc "alice"
       (mkPartialUser None None (Some "") None None None None) 1000]).
Proof.
  split.
  - destruct (updateUserProfile_repairs_on_nonempty_name_or_photo true steady reliable
                "alice" rename alice feed eq_refl (reliable_answers _) eq_refl)
      as (w' & Hrun & _ & Hyes & _).
    exists w'. split; [exact Hrun|]. apply Hyes. left. exists "NewName".
    split; [reflexivity|discriminate].
  - destruct (updateUserProfile_repairs_on_nonempty_name_or_photo true steady reliable
                "alice" (mkPartialUser None None (Some "") None None None None)
                alice feed eq_refl (reliable_answers _) eq_refl)
      as (w' & Hrun & Hu & _ & Hno).
    exists w'. split; [exact Hrun|]. split; [rewrite Hu; reflexivity|].
    apply Hno; [right|left]; reflexivity.
Defined.

(** X14 on [feed]: Alice's posts, and nothing written. *)
Lemma getUserPosts_of_alice :
  ∃ result w',
    getUserPosts true steady reliable "alice" feed = (Resolved result, w') ∧
    post_id <$> result ≡ₚ ["p1"; "p2"] ∧ posts w' = [p1; p2; p3] ∧
    ∀ a b, result !! 0 = Some a → result !! 1 = Some b →
      (post_createdAt b ≤ post_createdAt a)%Z.
Proof.
  destruct (getUserPosts_returns_the_posts_newest_first true steady reliable
              "alice" feed eq_refl (reliable_answers _))
    as (result & w' & Hrun & _ & Hp & _ & Hperm & Hsorted & _).
  exists result, w'. split; [exact Hrun|]. split; [exact Hperm|].
  split; [exact Hp|]. intros a b Ha Hb. apply (Hsorted 0 1 a b); [lia|exact Ha|exact Hb].
Defined.

(** X15: three hours and five minutes. *)
Lemma three_hours_ago :
  formatTimeAgo (λ _, None) 1700000000000%Z (JsDate (Some 1699988900000%Z))
    = ("3 hours ago", []).
Proof.
  rewrite (formatTimeAgo_is_a_function_of_the_age (λ _, None)
             1700000000000%Z 1699988900000 (JsDate (Some 1699988900000%Z))).
  - vm_compute. reflexivity.
  - unfold time_value. lia.
  - unfold time_value. lia.
  - reflexivity.
Defined.

(** X16: 29 days, and 362 days. *)
Lemma twenty_nine_days_ago :
  formatTimeAgo (λ _, None) 1700000000000%Z (HasToDate (Some 1697494400000%Z))
    = ("0 month ago", []) ∧
  formatTimeAgo (λ _, None) 1700000000000%Z (JsDate (Some 1668723200000%Z))
    = ("0 year ago", []).
Proof.
  split.
  - apply (proj1 (formatTimeAgo_shows_zero_months_and_zero_years (λ _, None)
                    1700000000000%Z 1697494400000 (HasToDate (Some 1697494400000%Z))
                    ltac:(unfold time_value; lia) ltac:(unfold time_value; lia) eq_refl)).
    unfold day_ms, hour_ms, minute_ms. lia.
  - apply (proj2 (formatTimeAgo_shows_zero_months_and_zero_years (λ _, None)
                    1700000000000%Z 1668723200000 (JsDate (Some 1668723200000%Z))
                    ltac:(unfold time_value; lia) ltac:(unfold time_value; lia) eq_refl)).
    unfold day_ms, hour_ms, minute_ms. lia.
Defined.

(** X17: a date five seconds ahead, and a string that is no date. *)
Lemma just_now_for_the_future :
  formatTimeAgo (λ _, None) 1700000000000%Z (JsDate (Some 1700000005000%Z))
    = ("just now", []) ∧
  ∃ warning, formatTimeAgo (λ _, None) 1700000000000%Z (DateString "soon")
    = ("just now", [warning]).
Proof.
  split.
  - apply (proj1 (formatTimeAgo_says_just_now (λ _, None) 1700000000000%Z
                    (JsDate (Some 1700000005000%Z)) ltac:(unfold time_value; lia))
             1700000005000%Z).
    + unfold time_value. lia.
    + reflexivity.
    + unfold minute_ms. lia.
  - apply (proj1 (proj2 (formatTimeAgo_says_just_now (λ _, None) 1700000000000%Z
                           (DateString "soon") ltac:(unfold time_value; lia)))).
    intros t [_ Hparse]. discriminate Hparse.
Defined.

(** X18 on [feed_cloud]: Bob likes [p1], and takes the like back. *)
Lemma bob_likes_and_unlikes :
  ∃ c' likes' c'',
    toggleLike true granted "p1" "bob" feed_cloud = (Resolved tt, c') ∧
    get_post "p1" (posts (world c')) = Some (with_likes likes' p1) ∧
    "bob" ∈ likes' ∧
    toggleLike true granted "p1" "bob" c' = (Resolved tt, c'') ∧
    get_post "p1" (posts (world c'')) = Some p1.
Proof.
  destruct (toggleLike_flips_the_like_of_the_user true granted "p1" "bob"
              feed_cloud p1 eq_refl (granted_answers _) eq_refl)
    as (c' & likes' & Hrun & Hpost & Hin & _ & _ & _ & _ & _ & Hback).
  destruct Hback as (c'' & Hrun' & Hpost').
  { intros H. inversion H. }
  exists c', likes', c''. split; [exact Hrun|]. split; [exact Hpost|].
  split; [apply Hin; intros H; inversion H|]. split; [exact Hrun'|exact Hpost'].
Defined.

(** X19 on [feed_cloud]: there is no post "p9". *)
Lemma like_of_a_missing_post :
  ∃ c', toggleLike true granted "p9" "bob" feed_cloud = (Resolved tt, c') ∧
    world c' = feed ∧ requests c' = [GetPost "p9"].
Proof.
  destruct (proj1 (toggleLike_of_a_missing_post_writes_nothing true granted
                     "p9" "bob" feed_cloud eq_refl) eq_refl eq_refl)
    as (c' & Hrun & Hw & _ & Hr).
  exists c'. split; [exact Hrun|]. split; [exact Hw|exact Hr].
Defined.

(** X20 on [feed_cloud]: Bob comments on his post [p3], after Alice. *)
Lemma bob_comments_on_p3 :
  ∃ c', addComment true steady granted numbered "p3" "hi" bob feed_cloud
          = (Resolved (mkComment "id0" "p3" "bob" "Bob" "bob.png" "hi" 1000), c') ∧
    (post_comments <$> get_post "p3" (posts (world c')))
      = Some (Some [c1; mkComment "id0" "p3" "bob" "Bob" "bob.png" "hi" 1000]) ∧
    length (comment_docs c') = 3.
Proof.
  destruct (addComment_appends_the_comment true steady granted numbered
              "p3" "hi" bob feed_cloud eq_refl (granted_answers _))
    as (c' & Hrun & Hdocs & _ & _ & Hpost).
  exists c'. split; [exact Hrun|].
  split; [|rewrite Hdocs; reflexivity].
  change (get_post "p3" (posts (world feed_cloud))) with (Some p3) in Hpost.
  rewrite Hpost. reflexivity.
Defined.

(** X21 on [feed_cloud]: Bob's comment [c0] is taken off [p1] and out of
    the collection. *)
Lemma c0_is_deleted :
  ∃ c', deleteComment true steady granted "p1" "c0" feed_cloud = (Resolved tt, c') ∧
    (post_comments <$> get_post "p1" (posts (world c'))) = Some (Some []) ∧
    comment_docs c' = [c1].
Proof.
  destruct (deleteComment_removes_the_comment true steady granted "p1" "c0"
              feed_cloud eq_refl (granted_answers _)
            : ∃ c', deleteComment true steady granted "p1" "c0" feed_cloud
                      = (Resolved tt, c') ∧
                get_post "p1" (posts (world c')) =
                  Some (with_comments (filter (λ x, comment_id x ≠ "c0") [c0])
                          (steady (ticks (world feed_cloud))) p1) ∧
                comment_docs c' = delete_comment_doc "c0" (comment_docs feed_cloud) ∧
                (∀ i p, posts (world feed_cloud) !! i = Some p → post_id p ≠ "p1" →
                   posts (world c') !! i = Some p))
    as (c' & Hrun & Hpost & Hdocs & _).
  exists c'. split; [exact Hrun|]. split; [rewrite Hpost; reflexivity|].
  rewrite Hdocs. reflexivity.
Defined.

(** X22 on [feed_cloud]: a comment on [p3] made and deleted. *)
Lemma comment_made_and_deleted :
  ∃ newComment c1' c2,
    addComment true steady granted numbered "p3" "hi" bob feed_cloud
      = (Resolved newComment, c1') ∧
    deleteComment true steady granted "p3" (comment_id newComment) c1'
      = (Resolved tt, c2) ∧
    (post_comments <$> get_post "p3" (posts (world c2))) = Some (Some [c1]) ∧
    comment_docs c2 = [c0; c1].
Proof.
  destruct (deleteComment_undoes_addComment true steady granted numbered
              "p3" "hi" bob feed_cloud p3 eq_refl (granted_answers _) eq_refl)
    as (newComment & c1' & c2 & Hadd & Hdel & (post' & Hpost & Hcs & _) & Hdocs).
  - by_compute.
  - by_compute.
  - exists newComment, c1', c2. split; [exact Hadd|]. split; [exact Hdel|].
    split; [rewrite Hpost; simpl; rewrite Hcs; reflexivity|exact Hdocs].
Defined.

(** X23 on [feed_cloud]: Alice posts a text, then a text with a
    picture. *)
Lemma alice_posts :
  (∃ c', createPost true steady true granted numbered cdn
           (mkCreatePostData "hello" None) alice feed_cloud
           = (Resolved (mkPost "id0" "alice" "Alice" "alice.png" "hello" None []
                          (Some []) 1000 1000), c') ∧
     length (posts (world c')) = 4) ∧
  (∃ post c', createPost true steady true granted numbered cdn
           (mkCreatePostData "look" (Some "cat.png")) alice feed_cloud
           = (Resolved post, c') ∧
     post_id post = "id2" ∧
     post_imageURL post = Some "https://cdn.example.org/posts/1000_cat.png" ∧
     uploads c' = [("posts/1000_cat.png", "cat.png")]).
Proof.
  destruct (createPost_stores_the_post_it_returns true steady true granted numbered
              cdn "hello" alice feed_cloud eq_refl (granted_answers _))
    as ((c' & Hrun & Hposts & _) & _).
  destruct (createPost_stores_the_post_it_returns true steady true granted numbered
              cdn "look" alice feed_cloud eq_refl (granted_answers _))
    as (_ & Himage).
  destruct (Himage "cat.png" eq_refl) as (c'' & Hrun' & _ & Hup & _).
  split.
  - exists c'. split; [exact Hrun|]. rewrite Hposts. reflexivity.
  - eexists _, c''. split; [exact Hrun'|]. split; [vm_compute; reflexivity|].
    split; [vm_compute; reflexivity|]. rewrite Hup. vm_compute. reflexivity.
Defined.

(** X24 on [feed_cloud]: the picture is uploaded, the post is refused. *)
Lemma upload_without_post :
  ∃ c', createPost true steady true (fails_at 2) numbered cdn
          (mkCreatePostData "look" (Some "cat.png")) alice feed_cloud
          = (Rejected "unavailable", c') ∧
    posts (world c') = [p1; p2; p3] ∧
    uploads c' = [("posts/1000_cat.png", "cat.png")].
Proof.
  destruct (proj2 (createPost_failure_can_leave_the_upload true steady true
                     (fails_at 2) numbered cdn "look" "cat.png" alice feed_cloud
                     eq_refl) eq_refl eq_refl eq_refl eq_refl)
    as (c' & Hrun & Hp & Hup).
  exists c'. split; [exact Hrun|]. split; [exact Hp|].
  rewrite Hup. vm_compute. reflexivity.
Defined.

(** X25 on [feed_cloud]: Bob's post [p3] is deleted; Alice's comment on
    it stays in the collection "comments". *)
Lemma p3_is_deleted :
  ∃ c', deletePost true granted "p3" feed_cloud = (Resolved tt, c') ∧
    get_post "p3" (posts (world c')) = None ∧
    p1 ∈ posts (world c') ∧ comment_docs c' = [c0; c1] ∧
    comment_postId c1 = "p3".
Proof.
  destruct (deletePost_removes_the_post_and_keeps_its_comments true granted
              "p3" feed_cloud eq_refl eq_refl)
    as (c' & Hrun & Hgone & Hin & _ & _ & Hdocs & _).
  exists c'. split; [exact Hrun|]. split; [exact Hgone|].
  split; [apply Hin; split; [by_compute|discriminate]|].
  split; [exact Hdocs|reflexivity].
Defined.

(** X26 on [feed_cloud]: Carol signs in for the first time. *)
Lemma carol_signs_in :
  ∃ s' c', authStateChanged true steady reliable granted (Some carol_auth)
             (mkAuthState None None true) feed_cloud = (Resolved s', c') ∧
    user_state s' = Some carol_auth ∧ loading s' = false ∧
    userProfile s' =
      Some (mkUser "carol" "carol@example.org" "Carol" "carol.png" (Some "") 1000 1000) ∧
    JsMap.get "carol" (users (world c')) = userProfile s' ∧
    JsMap.get "alice" (users (world c')) = Some alice.
Proof.
  destruct (sign_in_gets_or_creates_the_profile true steady reliable granted
              carol_auth (mkAuthState None None true) feed_cloud
              eq_refl eq_refl eq_refl
            : ∃ s' c', authStateChanged true steady reliable granted (Some carol_auth)
                         (mkAuthState None None true) feed_cloud = (Resolved s', c') ∧
                user_state s' = Some carol_auth ∧ loading s' = false ∧
                posts (world c') = posts (world feed_cloud) ∧
                let p := mkUser "carol" "carol@example.org" "Carol" "carol.png"
                           (Some "") 1000 1000 in
                userProfile s' = Some p ∧
                JsMap.get "carol" (users (world c')) = Some p ∧
                (∀ k, k ≠ "carol" →
                   JsMap.get k (users (world c')) =
                     JsMap.get k (users (world feed_cloud))) ∧
                requests c' = requests feed_cloud ++ [SetDoc "carol" p])
    as (s' & c' & Hrun & Hu & Hl & _ & Hp & Hget & Hothers & _).
  exists s', c'. split; [exact Hrun|]. split; [exact Hu|]. split; [exact Hl|].
  split; [exact Hp|]. split; [rewrite Hget, Hp; reflexivity|].
  rewrite Hothers by discriminate. reflexivity.
Defined.

(** X29 on [feed_cloud]: Alice saves a new name and bio, and the repair
    runs before the profile is read again.  Her stored posts show the
    new name by the time her posts are returned; Bob's post does not
    change. *)
Lemma alice_saves_her_profile :
  ∃ s' result c',
    (lift (updateUserProfile true steady reliable "alice"
             (mkPartialUser None None (Some "Alicia") None (Some "hi") None None)) ;;
     lift (run_detached true steady reliable) ;;
     s' ← refreshUserProfile true reliable (mkAuthState (Some alice_auth) (Some alice) false);
     lift (ret tt) ;;
     result ← lift (getUserPosts true steady reliable "alice");
     mret (s', result)) feed_cloud = (Resolved (s', result), c') ∧
    displayName <$> userProfile s' = Some "Alicia" ∧
    post_id <$> posts (world c') = ["p1"; "p2"; "p3"] ∧
    post_authorName <$> posts (world c') = ["Alicia"; "Alicia"; "Bob"] ∧
    post_id <$> result ≡ₚ ["p1"; "p2"] ∧
    ∀ p, p ∈ result → post_authorName p = "Alicia".
Proof.
  destruct (saving_the_profile_shows_the_new_name true steady reliable
              alice_auth "Alicia" "hi" alice
              (mkAuthState (Some alice_auth) (Some alice) false) feed_cloud
              (run_detached true steady reliable) (ret tt)
              eq_refl (reliable_answers _) wf_users_two eq_refl eq_refl
              (run_detached_background true steady reliable) idle_background)
    as (s' & result & c' & Hrun & Hprofile & _ & _ & _ & Hids & Hperm & Hnames).
  exists s', result, c'. split; [exact Hrun|].
  split; [rewrite Hprofile; reflexivity|]. split; [exact Hids|].
  split; [|split; [exact Hperm|exact Hnames]].
  vm_compute in Hrun. injection Hrun as _ _ <-. reflexivity.
Defined.

(** X30 on [feed]: three posts and two comments, two authors, one
    query. *)
Lemma enrich_feed_asks_for_two_authors :
  ∃ ps' w', enrichPostsWithUserData true steady reliable [p1; p2; p3] feed
              = (Resolved ps', w') ∧
    trace w' = [UsersIn ["alice"; "bob"]].
Proof.
  destruct (enrich_asks_for_each_author_once true steady reliable [p1; p2; p3] feed
              eq_refl (reliable_answers _))
    as (ps' & w' & Hrun & Ht & _).
  - intros k _. apply lookup_empty.
  - exists ps', w'. split; [exact Hrun|]. rewrite Ht. vm_compute. reflexivity.
Defined.
